(** * AI request resilience and context budgeting

    A shallow embedding of the resilience layer of the backend:
    - [common/utils/circuit-breaker.ts]: [CircuitBreaker], [CircuitBreakerFactory];
    - [modules/ai/ai.service.ts]: [AIService] (provider registry, cache, retry loop,
      usage tracking);
    - [modules/ai/types/ai.types.ts]: [calculateCost], [getContextLimit];
    - the context builder service: [truncateToFit].

    Conventions.  A JavaScript [number] that holds a counter, a threshold, a
    token count or a millisecond timestamp is a [Z]; a [number] that holds money
    is a binary64 [float], which is what a JavaScript number is.  Objects that
    are mutated and shared (the breakers kept by the factory) live in a store
    and are referred to by their location.  Code that throws runs in the monad
    [Js]: a state monad over [World] whose result is a completion, either
    [Return v] or [Throw e]; a throw keeps every mutation made before it.
    What the outside world decides (the readings of [Date.now()], what a
    provider adapter answers, whether the usage line can be written, the text
    [JSON.stringify] produces) is read from an environment [Env].  The two
    tables of [ai.types.ts] are object literals indexed by a model name that
    comes from the request: a lookup finds the entries of the table and, under
    the names every object inherits from [Object.prototype], a function or an
    object, which counts as NaN where a number is expected. *)

From Stdlib Require Import ZArith List Ascii String Lia Bool Floats QArith Qround.
From stdpp Require Import base option list gmap strings.

Set Warnings "-inexact-float".
Open Scope Z_scope.

(** ** Data model *)

(** [circuit-breaker.ts]: the options, the three states, the object fields. *)
Record CircuitBreakerOptions := mkOptions {
  name : string;
  failureThreshold : Z;
  successThreshold : Z;
  timeoutWindow : Z;      (* [timeout]: time window for failures in ms *)
  resetTimeout : Z        (* time before trying again after opening in ms *)
}.

Inductive CircuitState := CLOSED | OPEN | HALF_OPEN.

Record CircuitBreaker := mkBreaker {
  options : CircuitBreakerOptions;
  state : CircuitState;
  failureCount : Z;
  successCount : Z;
  lastFailureTime : Z;
  nextRetryTime : Z
}.

(** [Partial<CircuitBreakerOptions>]: every field may be missing. *)
Record PartialOptions := mkPartial {
  p_failureThreshold : option Z;
  p_successThreshold : option Z;
  p_timeout : option Z;
  p_resetTimeout : option Z
}.

(** [ai.types.ts] *)
Inductive AIProvider := OPENAI | ANTHROPIC | GEMINI | LOCAL.

Definition providerValue (p : AIProvider) : string :=
  match p with
  | OPENAI => "openai" | ANTHROPIC => "anthropic"
  | GEMINI => "gemini" | LOCAL => "local"
  end.

Inductive Role := RoleSystem | RoleUser | RoleAssistant.

Record ChatMessage := mkMsg { role : Role; content : string }.

Inductive ResponseFormat := FormatText | FormatJson.

Record AICompletionRequest := mkRequest {
  messages : list ChatMessage;
  model : option string;
  maxTokens : option Z;
  temperature : option float;
  stream : option bool;
  responseFormat : option ResponseFormat
}.

Inductive FinishReason := FinishStop | FinishLength | FinishContentFilter | FinishError.

Record TokenUsage := mkUsage {
  promptTokens : Z;
  completionTokens : Z;
  totalTokens : Z;
  estimatedCost : float
}.

Record AICompletionResponse := mkResponse {
  responseContent : string;
  finishReason : FinishReason;
  usage : TokenUsage;
  responseModel : string;
  cached : option bool
}.

(** [ai.service.ts]: [UsageRecord] and the cache entry. *)
Record UsageRecord := mkRecord {
  projectId : string;
  userId : option string;
  recordModel : string;
  recordPromptTokens : Z;
  recordCompletionTokens : Z;
  cost : float;
  operation : string
}.

Record CacheEntry := mkEntry { response : AICompletionResponse; timestamp : Z }.

(** [base.provider.ts]: what the service uses of an adapter.  [complete] is
    the external call; its outcome comes from the environment. *)
Record BaseAIProvider := mkAdapter {
  adapterName : string;
  defaultModel : string;
  countTokens : string -> Z;
  isAvailable : bool
}.

(** The fields [getCacheKey] serialises. *)
Record CacheKeyData := mkKeyData {
  k_messages : list ChatMessage;
  k_model : option string;
  k_maxTokens : option Z;
  k_temperature : option float;
  k_responseFormat : option ResponseFormat
}.

(** ** Object literals used as tables *)

(** The names [Object.prototype] holds, which every object literal inherits:
    under [__proto__] the prototype itself, under the others a function. *)
Definition Object_prototype : list string :=
  [ "constructor"; "__defineGetter__"; "__defineSetter__"; "hasOwnProperty";
    "__lookupGetter__"; "__lookupSetter__"; "isPrototypeOf";
    "propertyIsEnumerable"; "toString"; "valueOf"; "__proto__";
    "toLocaleString" ]%string.

(** What [table[key]] evaluates to when it is not [undefined]. *)
Inductive Property (A : Type) : Type :=
| Own (a : A)        (* an entry of the table *)
| Inherited.         (* a function or an object of [Object.prototype] *)
Arguments Own {A} a.
Arguments Inherited {A}.

(** [table[key]]; [None] is [undefined] *)
Definition getProperty {A} (table : gmap string A) (key : string) : option (Property A) :=
  match table !! key with
  | Some a => Some (Own a)
  | None => if existsb (String.eqb key) Object_prototype then Some Inherited else None
  end.

(** Where a number is expected: a function or an object converts to NaN,
    which is [None] here; NaN propagates through arithmetic and every
    comparison with NaN is false. *)
Definition toNumber (v : Property Z) : option Z :=
  match v with Own n => Some n | Inherited => None end.

(** [x - y] *)
Definition minusNumber (x : option Z) (y : Z) : option Z := (fun n => n - y) <$> x.

(** [x <= y] *)
Definition atMost (x : Z) (y : option Z) : bool :=
  match y with Some n => x <=? n | None => false end.

(** ** Errors, completions, log *)

Inductive JsError :=
| CircuitBreakerOpenError (circuit : string) (retryAfter : Z)
| Error (status : option Z) (message : string).

Inductive Completion (A : Type) :=
| Return (a : A)
| Throw (e : JsError).
Arguments Return {A} a.
Arguments Throw {A} e.

Inductive LogEntry :=
| WarnOpened (circuit : string) (retryAt : Z)
| LogHalfOpen (circuit : string)
| LogClosed (circuit : string)
| LogProviderInitialized (p : AIProvider)
| WarnDefaultNotAvailable (chosen : AIProvider)
| WarnNoProviders
| DebugCachedResponse
| WarnContextLimit (totalTokens : Z) (contextLimit : Property Z)
| WarnAttemptFailed (attempt maxRetries : Z) (e : JsError)
| LogUsage (r : UsageRecord)
| ErrorTrackUsage (e : JsError).

(** ** The JavaScript [Map]: keys in insertion order *)

Section JsMap.
Context {K V : Type} `{EqDecision K}.

Fixpoint map_get (k : K) (m : list (K * V)) : option V :=
  match m with
  | [] => None
  | (k', v) :: m' => if decide (k = k') then Some v else map_get k m'
  end.

Definition map_has (k : K) (m : list (K * V)) : bool :=
  match map_get k m with Some _ => true | None => false end.

(** [set] keeps the position of a key that is already there *)
Fixpoint map_set (k : K) (v : V) (m : list (K * V)) : list (K * V) :=
  match m with
  | [] => [(k, v)]
  | (k', v') :: m' =>
      if decide (k = k') then (k, v) :: m' else (k', v') :: map_set k v m'
  end.

Definition map_values (m : list (K * V)) : list V := map snd m.
Definition map_size (m : list (K * V)) : nat := List.length m.
End JsMap.

(** ** Environment and world *)

Record Env := mkEnv {
  (** the successive values [Date.now()] returns *)
  clock : nat -> Z;
  (** what the adapter answers to its k-th invocation (counted from 0) *)
  adapterReply : nat -> Completion AICompletionResponse;
  (** the body of the [try] in [trackUsage]: [None] when the usage line is
      written, [Some e] when writing it throws [e] *)
  usageSink : UsageRecord -> option JsError;
  (** [JSON.stringify] on the cache key data *)
  JSON_stringify : CacheKeyData -> string
}.

Record World := mkWorld {
  ticks : nat;                                   (* readings of the clock taken *)
  invocations : list (string * AICompletionRequest);  (* adapter calls, oldest first *)
  sleeps : list Z;                               (* [sleep(ms)] calls, oldest first *)
  logs : list LogEntry;                          (* oldest first *)
  cbHeap : list CircuitBreaker;                  (* the breaker objects *)
  breakers : list (string * nat);                (* [CircuitBreakerFactory.breakers] *)
  providers : list (AIProvider * BaseAIProvider);  (* [Map], insertion order *)
  defaultProvider : AIProvider;
  responseCache : gmap string CacheEntry
}.

Definition set_ticks (n : nat) (w : World) : World :=
  mkWorld n (invocations w) (sleeps w) (logs w) (cbHeap w) (breakers w)
          (providers w) (defaultProvider w) (responseCache w).
Definition set_invocations (l : list (string * AICompletionRequest)) (w : World) : World :=
  mkWorld (ticks w) l (sleeps w) (logs w) (cbHeap w) (breakers w)
          (providers w) (defaultProvider w) (responseCache w).
Definition set_sleeps (l : list Z) (w : World) : World :=
  mkWorld (ticks w) (invocations w) l (logs w) (cbHeap w) (breakers w)
          (providers w) (defaultProvider w) (responseCache w).
Definition set_logs (l : list LogEntry) (w : World) : World :=
  mkWorld (ticks w) (invocations w) (sleeps w) l (cbHeap w) (breakers w)
          (providers w) (defaultProvider w) (responseCache w).
Definition set_cbHeap (h : list CircuitBreaker) (w : World) : World :=
  mkWorld (ticks w) (invocations w) (sleeps w) (logs w) h (breakers w)
          (providers w) (defaultProvider w) (responseCache w).
Definition set_breakers (m : list (string * nat)) (w : World) : World :=
  mkWorld (ticks w) (invocations w) (sleeps w) (logs w) (cbHeap w) m
          (providers w) (defaultProvider w) (responseCache w).
Definition set_providers (l : list (AIProvider * BaseAIProvider)) (w : World) : World :=
  mkWorld (ticks w) (invocations w) (sleeps w) (logs w) (cbHeap w) (breakers w)
          l (defaultProvider w) (responseCache w).
Definition set_defaultProvider (p : AIProvider) (w : World) : World :=
  mkWorld (ticks w) (invocations w) (sleeps w) (logs w) (cbHeap w) (breakers w)
          (providers w) p (responseCache w).
Definition set_responseCache (c : gmap string CacheEntry) (w : World) : World :=
  mkWorld (ticks w) (invocations w) (sleeps w) (logs w) (cbHeap w) (breakers w)
          (providers w) (defaultProvider w) c.

(** ** The monad *)

Definition Js (A : Type) : Type := Env -> World -> Completion A * World.

Definition ret {A} (a : A) : Js A := fun _ w => (Return a, w).

Definition bind {A B} (m : Js A) (k : A -> Js B) : Js B :=
  fun env w =>
    match m env w with
    | (Return a, w') => k a env w'
    | (Throw e, w') => (Throw e, w')
    end.

Definition throw {A} (e : JsError) : Js A := fun _ w => (Throw e, w).

(** [try { m } catch (e) { h e }] *)
Definition tryCatch {A} (m : Js A) (h : JsError -> Js A) : Js A :=
  fun env w =>
    match m env w with
    | (Return a, w') => (Return a, w')
    | (Throw e, w') => h e env w'
    end.

Definition gets {A} (f : World -> A) : Js A := fun _ w => (Return (f w), w).
Definition asks {A} (f : Env -> A) : Js A := fun env w => (Return (f env), w).
Definition modify (f : World -> World) : Js unit := fun _ w => (Return tt, f w).

Notation "'let*' x ':=' m 'in' k" := (bind m (fun x => k))
  (at level 10, x name, m at level 100, k at level 200).
Notation "m >> k" := (bind m (fun _ => k))
  (at level 100, k at level 200, right associativity).

(** [Date.now()]: the next reading of the clock. *)
Definition Date_now : Js Z :=
  fun env w => (Return (clock env (ticks w)), set_ticks (S (ticks w)) w).

Definition logger (e : LogEntry) : Js unit :=
  modify (fun w => set_logs (logs w ++ [e]) w).

(** [this.sleep(ms)]: the delay is recorded; the time that passes shows in the
    later readings of the clock. *)
Definition sleep (ms : Z) : Js unit :=
  modify (fun w => set_sleeps (sleeps w ++ [ms]) w).

(** ** [CircuitBreaker] *)

Definition set_state (s : CircuitState) (b : CircuitBreaker) : CircuitBreaker :=
  mkBreaker (options b) s (failureCount b) (successCount b)
            (lastFailureTime b) (nextRetryTime b).
Definition set_failureCount (n : Z) (b : CircuitBreaker) : CircuitBreaker :=
  mkBreaker (options b) (state b) n (successCount b)
            (lastFailureTime b) (nextRetryTime b).
Definition set_successCount (n : Z) (b : CircuitBreaker) : CircuitBreaker :=
  mkBreaker (options b) (state b) (failureCount b) n
            (lastFailureTime b) (nextRetryTime b).
Definition set_lastFailureTime (t : Z) (b : CircuitBreaker) : CircuitBreaker :=
  mkBreaker (options b) (state b) (failureCount b) (successCount b)
            t (nextRetryTime b).
Definition set_nextRetryTime (t : Z) (b : CircuitBreaker) : CircuitBreaker :=
  mkBreaker (options b) (state b) (failureCount b) (successCount b)
            (lastFailureTime b) t.

(** [new CircuitBreaker(options)]: the field initialisers. *)
Definition newCircuitBreaker (o : CircuitBreakerOptions) : CircuitBreaker :=
  mkBreaker o CLOSED 0 0 0 0.

(** Reading a field of [this]; on a location that holds no object the read
    throws, as a property read on [undefined] does. *)
Definition readThis (this : nat) : Js CircuitBreaker :=
  fun _ w =>
    match cbHeap w !! this with
    | Some b => (Return b, w)
    | None => (Throw (Error None "Cannot read properties of undefined"), w)
    end.

(** Assigning to a field of [this]. *)
Definition updateThis (this : nat) (f : CircuitBreaker -> CircuitBreaker) : Js unit :=
  modify (fun w => set_cbHeap (alter f this (cbHeap w)) w).

Definition transitionTo (this : nat) (newState : CircuitState) : Js unit :=
  let* old := readThis this in
  updateThis this (set_state newState) >>
  match newState with
  | OPEN =>
      let* now := Date_now in
      updateThis this (set_nextRetryTime (now + resetTimeout (options old))) >>
      logger (WarnOpened (name (options old)) (now + resetTimeout (options old)))
  | HALF_OPEN =>
      updateThis this (set_successCount 0) >>
      logger (LogHalfOpen (name (options old)))
  | CLOSED =>
      updateThis this (set_failureCount 0) >>
      updateThis this (set_successCount 0) >>
      logger (LogClosed (name (options old)))
  end.

Definition onSuccess (this : nat) : Js unit :=
  updateThis this (set_failureCount 0) >>
  let* b := readThis this in
  match state b with
  | HALF_OPEN =>
      updateThis this (fun b => set_successCount (successCount b + 1) b) >>
      let* b := readThis this in
      if successCount b >=? successThreshold (options b)
      then transitionTo this CLOSED
      else ret tt
  | _ => ret tt
  end.

Definition onFailure (this : nat) : Js unit :=
  updateThis this (fun b => set_failureCount (failureCount b + 1) b) >>
  let* now := Date_now in
  updateThis this (set_lastFailureTime now) >>
  updateThis this (set_successCount 0) >>
  let* b := readThis this in
  match state b with
  | HALF_OPEN => transitionTo this OPEN
  | CLOSED =>
      if failureCount b >=? failureThreshold (options b)
      then transitionTo this OPEN
      else ret tt
  | OPEN => ret tt
  end.

Definition execute {T} (this : nat) (operation : Js T) : Js T :=
  let* b := readThis this in
  match state b with
  | OPEN =>
      let* now := Date_now in
      let* b := readThis this in
      if now >=? nextRetryTime b
      then transitionTo this HALF_OPEN
      else throw (CircuitBreakerOpenError (name (options b)) (nextRetryTime b))
  | _ => ret tt
  end >>
  tryCatch
    (let* result := operation in
     onSuccess this >>
     ret result)
    (fun error =>
       onFailure this >>
       throw error).

(** Manually reset the circuit breaker *)
Definition reset (this : nat) : Js unit :=
  updateThis this (set_failureCount 0) >>
  updateThis this (set_successCount 0) >>
  transitionTo this CLOSED.

(** ** [CircuitBreakerFactory] *)

(** [x ?? d] on an optional field of an optional argument *)
Definition nullish {A B} (o : option A) (f : A -> option B) (d : B) : B :=
  match o with
  | Some a => match f a with Some b => b | None => d end
  | None => d
  end.

Definition fullOptionsOf (n : string) (o : option PartialOptions) : CircuitBreakerOptions :=
  mkOptions n
    (nullish o p_failureThreshold 5)
    (nullish o p_successThreshold 2)
    (nullish o p_timeout 30000)
    (nullish o p_resetTimeout 60000).

(** [new]: the object gets the next free location of the store *)
Definition allocBreaker (b : CircuitBreaker) : Js nat :=
  fun _ w => (Return (List.length (cbHeap w)), set_cbHeap (cbHeap w ++ [b]) w).

Definition getOrCreate (n : string) (o : option PartialOptions) : Js nat :=
  let* has := gets (fun w => map_has n (breakers w)) in
  (if negb has then
     let fullOptions := fullOptionsOf n o in
     let* l := allocBreaker (newCircuitBreaker fullOptions) in
     modify (fun w => set_breakers (map_set n l (breakers w)) w)
   else ret tt) >>
  (* [this.breakers.get(name)!]: a missing key would give [undefined], a
     location that holds no object *)
  let* found := gets (fun w => map_get n (breakers w)) in
  match found with
  | Some l => ret l
  | None => gets (fun w => List.length (cbHeap w))
  end.

(** [CircuitBreakerFactory.reset(name)] *)
Definition factoryReset (n : string) : Js unit :=
  let* breaker := gets (fun w => map_get n (breakers w)) in
  match breaker with
  | Some l => reset l
  | None => ret tt
  end.

(** [CircuitBreakerFactory.resetAll()]: [forEach] in insertion order *)
Fixpoint resetEach (ls : list nat) : Js unit :=
  match ls with
  | [] => ret tt
  | l :: ls' => reset l >> resetEach ls'
  end.

Definition resetAll : Js unit :=
  let* ls := gets (fun w => map_values (breakers w)) in
  resetEach ls.

(** ** [ai.types.ts]: context limits *)

Definition MODEL_CONTEXT_LIMITS : gmap string Z :=
  list_to_map
    [ ("gpt-4o", 128000); ("gpt-4o-mini", 128000); ("gpt-4-turbo", 128000);
      ("gpt-3.5-turbo", 16385);
      ("claude-3-5-sonnet-20241022", 200000);
      ("claude-3-5-haiku-20241022", 200000);
      ("claude-3-opus-20240229", 200000);
      ("gemini-1.5-pro", 2000000); ("gemini-1.5-flash", 1000000);
      ("gemini-1.5-flash-8b", 1000000); ("gemini-2.0-flash-exp", 1000000) ]%string.

Definition getContextLimit (m : string) : Property Z :=
  default (Own 16000) (getProperty MODEL_CONTEXT_LIMITS m).

(** [totalTokens > contextLimit * 0.9], in exact arithmetic *)
Definition aboveNineTenths (totalTokens : Z) (contextLimit : Property Z) : bool :=
  match toNumber contextLimit with
  | Some limit => 10 * totalTokens >? 9 * limit
  | None => false
  end.

(** ** [AIService] *)

Definition CACHE_TTL_MS : Z := 5 * 60 * 1000.

Record CompleteOptions := mkCompleteOptions {
  opt_provider : option AIProvider;
  opt_projectId : option string;
  opt_userId : option string;
  opt_operation : option string;
  opt_useCache : option bool;
  opt_maxRetries : option Z
}.

#[global] Instance AIProvider_eq_dec : EqDecision AIProvider.
Proof. solve_decision. Defined.

(** [for (const provider of priorityOrder) { if (has) { ...; break } }] *)
Fixpoint selectDefault (priorityOrder : list AIProvider) : Js unit :=
  match priorityOrder with
  | [] => ret tt
  | p :: rest =>
      let* has := gets (fun w => map_has p (providers w)) in
      if has
      then modify (set_defaultProvider p) >> logger (WarnDefaultNotAvailable p)
      else selectDefault rest
  end.

Definition registerProvider (key : AIProvider) (adapter : BaseAIProvider) : Js unit :=
  if isAvailable adapter
  then modify (fun w => set_providers (map_set key adapter (providers w)) w) >>
       logger (LogProviderInitialized key)
  else ret tt.

(** [onModuleInit]; the three adapters are the injected constructor
    arguments.  The [setInterval] at its end only schedules [cleanCache],
    which is an operation of its own below. *)
Definition onModuleInit (openaiProvider anthropicProvider geminiProvider : BaseAIProvider)
  : Js unit :=
  registerProvider OPENAI openaiProvider >>
  registerProvider ANTHROPIC anthropicProvider >>
  registerProvider GEMINI geminiProvider >>
  let* hasDefault := gets (fun w => map_has (defaultProvider w) (providers w)) in
  if negb hasDefault then
    (* Priority: Gemini (cheapest) > OpenAI > Anthropic *)
    selectDefault [GEMINI; OPENAI; ANTHROPIC] >>
    let* size := gets (fun w => map_size (providers w)) in
    if Nat.eqb size 0 then logger WarnNoProviders else ret tt
  else ret tt.

Definition getProvider (preferred : option AIProvider) : Js BaseAIProvider :=
  let* dflt := gets defaultProvider in
  let providerKey := default dflt preferred in
  let* provider := gets (fun w => map_get providerKey (providers w)) in
  match provider with
  | None =>
      (* Fallback to any available provider *)
      let* available := gets (fun w => head (map_values (providers w))) in
      match available with
      | None => throw (Error None "No AI provider available")
      | Some a => ret a
      end
  | Some p => ret p
  end.

Definition trackUsage (record : UsageRecord) : Js unit :=
  tryCatch
    (let* failure := asks (fun env => usageSink env record) in
     match failure with
     | None => logger (LogUsage record)
     | Some e => throw e
     end)
    (fun error => logger (ErrorTrackUsage error)).

Definition getCacheKey (request : AICompletionRequest) : Js string :=
  asks (fun env =>
    JSON_stringify env
      (mkKeyData (messages request) (model request) (maxTokens request)
                 (temperature request) (responseFormat request))).

Definition cleanCache : Js unit :=
  let* now := Date_now in
  modify (fun w =>
    set_responseCache
      (filter (fun kv => ~ (now - timestamp (snd kv) > CACHE_TTL_MS)) (responseCache w)) w).

Definition isNonRetryableError (error : JsError) : bool :=
  let nonRetryableCodes := [400; 401; 403; 404] in
  match error with
  | Error (Some status) _ => bool_decide (status ∈ nonRetryableCodes)
  | _ => false
  end.

Definition instanceofCircuitBreakerOpenError (error : JsError) : bool :=
  match error with
  | CircuitBreakerOpenError _ _ => true
  | _ => false
  end.

(** [messages.map((m) => m.content).join('\n')] *)
Definition joinContents (ms : list ChatMessage) : string :=
  String.concat (String (Ascii.ascii_of_nat 10) EmptyString) (map content ms).

Definition estimateRequestTokens (request : AICompletionRequest) (p : BaseAIProvider) : Z :=
  countTokens p (joinContents (messages request)).

(** [provider.complete(request)]: the external call *)
Definition providerComplete (p : BaseAIProvider) (request : AICompletionRequest)
  : Js AICompletionResponse :=
  fun env w =>
    (adapterReply env (List.length (invocations w)),
     set_invocations (invocations w ++ [(adapterName p, request)]) w).

(** truthiness of [request.stream] and of [options?.projectId] *)
Definition truthyFlag (b : option bool) : bool := default false b.
Definition truthyString (s : option string) : option string :=
  match s with
  | Some EmptyString => None
  | other => other
  end.

(** the body of the [try] in the retry loop *)
Definition attemptOnce (circuitBreaker : nat) (provider : BaseAIProvider)
    (request : AICompletionRequest) (options : option CompleteOptions)
    (useCache : bool) : Js AICompletionResponse :=
  let* response := execute circuitBreaker (providerComplete provider request) in
  (if useCache && negb (truthyFlag (stream request)) then
     let* cacheKey := getCacheKey request in
     let* now := Date_now in
     modify (fun w =>
       set_responseCache (<[cacheKey := mkEntry response now]> (responseCache w)) w)
   else ret tt) >>
  match truthyString (options ≫= opt_projectId) with
  | Some pid =>
      trackUsage
        (mkRecord pid (options ≫= opt_userId) (responseModel response)
           (promptTokens (usage response)) (completionTokens (usage response))
           (estimatedCost (usage response))
           (nullish options opt_operation "completion"%string))
  | None => ret tt
  end >>
  ret response.

(** [for (let attempt = 1; attempt <= maxRetries; attempt++)]: [remaining]
    counts the iterations the loop condition still admits. *)
Fixpoint retryLoop (remaining : nat) (attempt maxRetries : Z)
    (lastError : option JsError) (body : Js AICompletionResponse)
  : Js AICompletionResponse :=
  match remaining with
  | O => throw (default (Error None "AI completion failed after retries") lastError)
  | S remaining' =>
      let* outcome :=
        tryCatch
          (let* response := body in ret (inl response))
          (fun error =>
             logger (WarnAttemptFailed attempt maxRetries error) >>
             (* Don't retry on circuit breaker open or non-retryable errors *)
             if instanceofCircuitBreakerOpenError error || isNonRetryableError error
             then throw error
             else
               (* Exponential backoff *)
               (if attempt <? maxRetries
                then sleep (Z.min (1000 * 2 ^ (attempt - 1)) 10000)
                else ret tt) >>
               ret (inr error)) in
      match outcome with
      | inl response => ret response
      | inr error => retryLoop remaining' (attempt + 1) maxRetries (Some error) body
      end
  end.

Definition complete (request : AICompletionRequest) (options : option CompleteOptions)
  : Js AICompletionResponse :=
  let* provider := getProvider (options ≫= opt_provider) in
  let useCache := nullish options opt_useCache true in
  let maxRetries := nullish options opt_maxRetries 3 in
  (* Check cache for identical requests *)
  let* hit :=
    (if useCache && negb (truthyFlag (stream request)) then
       let* cacheKey := getCacheKey request in
       let* cachedEntry := gets (fun w => responseCache w !! cacheKey) in
       match cachedEntry with
       | Some entry =>
           let* now := Date_now in
           if now - timestamp entry <? CACHE_TTL_MS then
             logger DebugCachedResponse >>
             let r := response entry in
             ret (Some (mkResponse (responseContent r) (finishReason r) (usage r)
                                   (responseModel r) (Some true)))
           else ret None
       | None => ret None
       end
     else ret None) in
  match hit with
  | Some r => ret r
  | None =>
      (* Validate context size *)
      let m := default (defaultModel provider) (model request) in
      let total := estimateRequestTokens request provider in
      let contextLimit := getContextLimit m in
      (if aboveNineTenths total contextLimit
       then logger (WarnContextLimit total contextLimit)
       else ret tt) >>
      (* Execute with retry and circuit breaker *)
      let* dflt := gets defaultProvider in
      let* circuitBreaker :=
        getOrCreate
          ("ai-" ++ providerValue (default dflt (options ≫= opt_provider)))%string
          (Some (mkPartial (Some 5) (Some 2) None (Some 60000))) in
      retryLoop (Z.to_nat maxRetries) 1 maxRetries None
        (attemptOnce circuitBreaker provider request options useCache)
  end.

(** ** The context builder: [truncateToFit] *)

(** [AIService.countTokens(text)]: the adapter [getProvider()] resolves counts *)
Definition serviceCountTokens (text : string) : Js Z :=
  let* p := getProvider None in
  ret (countTokens p text).

(** An array slot is a message or [undefined]. *)
Fixpoint definedMessages (ms : list (option ChatMessage)) : option (list ChatMessage) :=
  match ms with
  | [] => Some []
  | Some m :: rest => option_map (cons m) (definedMessages rest)
  | None :: _ => None
  end.

(** [estimateTokens]: reading [m.content] of an [undefined] slot throws *)
Definition estimateTokens (ms : list (option ChatMessage)) : Js Z :=
  match definedMessages ms with
  | Some l => serviceCountTokens (joinContents l)
  | None => throw (Error None "Cannot read properties of undefined")
  end.

(** [truncated.splice(1, 0, m)] *)
Definition spliceAt1 {A} (m : A) (l : list A) : list A :=
  take 1 l ++ m :: drop 1 l.

(** The loop [for (i = middleMessages.length - 1; i >= 0; i--)], walking the
    interior messages from the newest to the oldest; [pending] is
    [middleMessages[0..i]] reversed. *)
Fixpoint fillFromEnd (pending : list (option ChatMessage))
    (systemMessage lastMessage : option ChatMessage) (maxInputTokens : option Z)
    (truncated : list (option ChatMessage)) : Js (list (option ChatMessage)) :=
  match pending with
  | [] => ret truncated
  | candidate :: older =>
      let testMessages :=
        systemMessage :: drop 1 truncated ++ [candidate; lastMessage] in
      let* estimate := estimateTokens testMessages in
      if atMost estimate maxInputTokens
      then fillFromEnd older systemMessage lastMessage maxInputTokens
             (spliceAt1 candidate truncated)
      else ret truncated
  end.

Definition truncateToFit (msgs : list ChatMessage) (m : string)
    (reserveOutputTokens : Z) : Js (list (option ChatMessage)) :=
  let contextLimit := getContextLimit m in
  let maxInputTokens := minusNumber (toNumber contextLimit) reserveOutputTokens in
  let* currentTokens := estimateTokens (map Some msgs) in
  if atMost currentTokens maxInputTokens then ret (map Some msgs)
  else
    (* Strategy: Keep system message, truncate middle of conversation *)
    let systemMessage := head msgs in
    let rest := tail msgs in
    (* Always keep the last user message *)
    let lastMessage := last rest in
    let middleMessages := removelast rest in
    let* truncated :=
      fillFromEnd (rev (map Some middleMessages)) systemMessage lastMessage
        maxInputTokens [systemMessage] in
    ret (truncated ++ [lastMessage]).

(** ** [ai.types.ts]: pricing and cost *)

Record Pricing := mkPricing { input : float; output : float }.

(** Cost per 1M tokens (input/output) *)
Definition MODEL_PRICING : gmap string Pricing :=
  list_to_map
    [ ("gpt-4o", mkPricing 2.50 10.00);
      ("gpt-4o-mini", mkPricing 0.15 0.60);
      ("gpt-4-turbo", mkPricing 10.00 30.00);
      ("gpt-3.5-turbo", mkPricing 0.50 1.50);
      ("claude-3-5-sonnet-20241022", mkPricing 3.00 15.00);
      ("claude-3-5-haiku-20241022", mkPricing 0.80 4.00);
      ("claude-3-opus-20240229", mkPricing 15.00 75.00);
      ("gemini-1.5-pro", mkPricing 1.25 5.00);
      ("gemini-1.5-flash", mkPricing 0.075 0.30);
      ("gemini-1.5-flash-8b", mkPricing 0.0375 0.15);
      ("gemini-2.0-flash-exp", mkPricing 0.00 0.00) ]%string.

(** [Math.floor] on binary64: below 2^52 in magnitude, adding and removing
    2^52 rounds to an integer; from 2^52 on every double is an integer. *)
Definition two52 : float := 4503599627370496%float.

Definition Math_floor (x : float) : float :=
  if PrimFloat.ltb (PrimFloat.abs x) two52 then
    let r := if PrimFloat.leb 0 x
             then ((x + two52) - two52)%float
             else ((x - two52) + two52)%float in
    if PrimFloat.ltb x r then (r - 1)%float else r
  else x.

(** a double whose sign bit is set, [-0] included *)
Definition signBit (x : float) : bool :=
  PrimFloat.ltb x 0 || (PrimFloat.eqb x 0 && PrimFloat.ltb (1 / x) 0).

(** [Math.round]: the nearest integer, a tie going up; the sign of a zero
    result is that of the argument *)
Definition Math_round (x : float) : float :=
  let f := Math_floor x in
  let r := if PrimFloat.leb 0.5 (x - f) then (f + 1)%float else f in
  if PrimFloat.eqb r 0 then (if signBit x then (-0)%float else 0%float) else r.

(** [pricing.input], [pricing.output]: the functions and the object of
    [Object.prototype] have no such property, and [undefined] as a factor
    is NaN *)
Definition rate (field : Pricing -> float) (pricing : Property Pricing) : float :=
  match pricing with Own r => field r | Inherited => nan end.

Definition calculateCost (m : string) (promptTokens completionTokens : float) : float :=
  let pricing := default (Own (mkPricing 5.0 15.0)) (getProperty MODEL_PRICING m) in
  let inputCost := (promptTokens / 1000000 * rate input pricing)%float in
  let outputCost := (completionTokens / 1000000 * rate output pricing)%float in
  (Math_round ((inputCost + outputCost) * 1000000) / 1000000)%float.


(** ** Vocabulary of the statements *)

(** An operation that does not itself touch the breaker at [this]. *)
Definition leavesBreaker {T} (this : nat) (operation : Js T) : Prop :=
  forall env w r w', operation env w = (r, w') -> cbHeap w' !! this = cbHeap w !! this.

(** [n] consecutive calls of [execute] on the breaker at [this], each of
    which throws, with nothing else touching the breaker in between. *)
Inductive failedCalls {T} (env : Env) (this : nat) : nat -> World -> World -> Prop :=
| failed_none w : failedCalls env this 0 w w
| failed_more n w w1 w2 (operation : Js T) e :
    failedCalls env this n w w1 ->
    leavesBreaker this operation ->
    execute this operation env w1 = (Throw e, w2) ->
    failedCalls env this (S n) w w2.

(** The same for calls that return. *)
Inductive succeededCalls {T} (env : Env) (this : nat) : nat -> World -> World -> Prop :=
| succeeded_none w : succeededCalls env this 0 w w
| succeeded_more n w w1 w2 (operation : Js T) r :
    succeededCalls env this n w w1 ->
    leavesBreaker this operation ->
    execute this operation env w1 = (Return r, w2) ->
    succeededCalls env this (S n) w w2.


(** The world in which the trial call runs: the gate of [execute] has read
    the clock and moved the breaker [b] at [this] from OPEN to HALF_OPEN. *)
Definition halfOpened (this : nat) (b : CircuitBreaker) (w : World) : World :=
  set_logs (logs w ++ [LogHalfOpen (name (options b))])
    (set_cbHeap (alter (set_successCount 0 ∘ set_state HALF_OPEN) this (cbHeap w))
       (set_ticks (S (ticks w)) w)).

(** The factory is well formed when every name it knows leads to an object. *)
Definition wfFactory (w : World) : Prop :=
  forall n l, map_get n (breakers w) = Some l -> is_Some (cbHeap w !! l).

(** [w'] has the same factory map as [w], and every breaker of [w] is still
    there with the options it was built with. *)
Definition keepsBreakers (w w' : World) : Prop :=
  breakers w' = breakers w
  /\ forall l b, cbHeap w !! l = Some b ->
       exists b', cbHeap w' !! l = Some b' /\ options b' = options b.

(** Every run of [m] relates the world before to the world after by [R]. *)
Definition preserves (R : World -> World -> Prop) {A} (m : Js A) : Prop :=
  forall env w r w', m env w = (r, w') -> R w w'.

(** What a program does with the factory and its breakers: it asks for a
    breaker, calls [execute] on one the factory holds, or resets. *)
Inductive factoryStep (env : Env) : World -> World -> Prop :=
| step_getOrCreate n o r w w' :
    getOrCreate n o env w = (r, w') -> factoryStep env w w'
| step_execute T n l (operation : Js T) r w w' :
    map_get n (breakers w) = Some l ->
    preserves keepsBreakers operation ->
    execute l operation env w = (r, w') -> factoryStep env w w'
| step_reset n r w w' :
    factoryReset n env w = (r, w') -> factoryStep env w w'
| step_resetAll r w w' :
    resetAll env w = (r, w') -> factoryStep env w w'.

(** [w'] has the adapter calls, the sleeps and the provider registry of [w]. *)
Definition quiet (w w' : World) : Prop :=
  invocations w' = invocations w /\ sleeps w' = sleeps w
  /\ providers w' = providers w /\ defaultProvider w' = defaultProvider w.

(** [w'] has the response cache of [w]. *)
Definition cacheKept (w w' : World) : Prop := responseCache w' = responseCache w.

(** The delay the specification gives for the sleep after attempt [a], and
    the delays after attempts [a], [a+1], ... ([n] of them). *)
Definition backoff (a : Z) : Z := Z.min (1000 * 2 ^ (a - 1)) 10000.

Fixpoint backoffs (a : Z) (n : nat) : list Z :=
  match n with
  | O => []
  | S n' => backoff a :: backoffs (a + 1) n'
  end.

(** An error the retry loop gives up on at once. *)
Definition givesUpOn (e : JsError) : bool :=
  instanceofCircuitBreakerOpenError e || isNonRetryableError e.

(** Two runs of the same code, in environments related by [Re] and from
    worlds related by [Rw], complete the same way and end in related worlds. *)
Definition related (Re : Env -> Env -> Prop) (Rw : World -> World -> Prop)
    {A} (m1 m2 : Js A) : Prop :=
  forall e1 e2 w1 w2, Re e1 e2 -> Rw w1 w2 ->
    fst (m1 e1 w1) = fst (m2 e2 w2) /\ Rw (snd (m1 e1 w1)) (snd (m2 e2 w2)).

(** the worlds agree on everything but the log *)
Definition sameButLogs (w1 w2 : World) : Prop := set_logs [] w1 = set_logs [] w2.

(** the worlds agree on everything but the response cache *)
Definition sameButCache (w1 w2 : World) : Prop :=
  set_responseCache ∅ w1 = set_responseCache ∅ w2.

(** the environments agree on everything but the usage sink *)
Definition sameButSink (e1 e2 : Env) : Prop :=
  clock e1 = clock e2 /\ adapterReply e1 = adapterReply e2
  /\ JSON_stringify e1 = JSON_stringify e2.

(** ** The selection the specification describes for [truncateToFit] *)

(** the estimate of a message list by the adapter [p] *)
Definition estimateWith (p : BaseAIProvider) (ms : list ChatMessage) : Z :=
  countTokens p (joinContents ms).

(** the budget of [truncateToFit], [getContextLimit(model) -
    reserveOutputTokens], which is NaN ([None]) when the limit is not a
    number; an estimate is within it when [<=] says so *)
Definition budgetOf (m : string) (reserve : Z) : option Z :=
  minusNumber (toNumber (getContextLimit m)) reserve.

Definition within (tokens : Z) (budget : option Z) : Prop := atMost tokens budget = true.

(** Scanning the interior messages from the newest to the oldest ([pending]
    is newest first), each is accepted while [fits] holds of it and of the
    ones accepted so far; the scan stops at the first that does not fit. *)
Fixpoint keepNewest (fits : list ChatMessage -> ChatMessage -> bool)
    (pending accepted : list ChatMessage) : list ChatMessage :=
  match pending with
  | [] => accepted
  | candidate :: older =>
      if fits accepted candidate
      then keepNewest fits older (candidate :: accepted)
      else accepted
  end.

(** ** The cost formula the specification gives *)

(** rounding to 6 decimals *)
Definition round6 (x : float) : float := (Math_round (x * 1000000) / 1000000)%float.





(** ** Concrete worlds *)

Definition emptyWorld : World :=
  mkWorld 0 [] [] [] [] [] [] OPENAI ∅.

Definition sampleResponse : AICompletionResponse :=
  mkResponse "ok" FinishStop (mkUsage 10 5 15 0.0001) "gpt-4o" None.

(** a clock that advances by one millisecond per reading, an adapter that
    always answers, a usage sink that never fails *)
Definition sampleEnv : Env :=
  mkEnv (fun n => 1000 + Z.of_nat n) (fun _ => Return sampleResponse)
        (fun _ => None) (fun d => joinContents (k_messages d)).

(** a store with one breaker, failureThreshold 2 and successThreshold 2 *)
Definition sampleBreaker : CircuitBreaker :=
  newCircuitBreaker (mkOptions "ai-openai" 2 2 30000 60000).

Definition breakerWorld (b : CircuitBreaker) : World :=
  set_breakers [("ai-openai"%string, 0%nat)] (set_cbHeap [b] emptyWorld).

Definition failingOperation : Js unit := throw (Error (Some 500) "upstream failure").
Definition succeedingOperation : Js unit := ret tt.

(** the same breaker after it opened, its retry time already past on
    [sampleEnv]'s clock *)
Definition openedBreaker : CircuitBreaker :=
  mkBreaker (mkOptions "ai-openai" 2 2 30000 60000) OPEN 2 0 500 900.

(** three adapters; only their availability differs between the worlds below *)
Definition charEstimate (text : string) : Z := (Z.of_nat (String.length text) + 3) / 4.

Definition openaiAdapter (available : bool) : BaseAIProvider :=
  mkAdapter "openai" "gpt-4o" charEstimate available.
Definition anthropicAdapter (available : bool) : BaseAIProvider :=
  mkAdapter "anthropic" "claude-3-5-sonnet-20241022" charEstimate available.
Definition geminiAdapter (available : bool) : BaseAIProvider :=
  mkAdapter "gemini" "gemini-1.5-flash" charEstimate available.

(** the service as constructed: no adapter registered, OpenAI the default *)
Definition freshService (w : World) : World :=
  set_providers [] (set_defaultProvider OPENAI w).

(** the service after [onModuleInit] with the given availabilities *)
Definition initialised (openai anthropic gemini : bool) : World :=
  snd (onModuleInit (openaiAdapter openai) (anthropicAdapter anthropic)
         (geminiAdapter gemini) sampleEnv (freshService emptyWorld)).

(** ** The provider resolution the specification describes *)

(** the preferred adapter when registered, otherwise the first registered one
    in the priority order Gemini > OpenAI > Anthropic *)
Definition highestPriority (ps : list (AIProvider * BaseAIProvider)) : option BaseAIProvider :=
  head (omap (fun p => map_get p ps) [GEMINI; OPENAI; ANTHROPIC]).

Definition resolveAsSpecified (preferred : option AIProvider) (w : World)
  : Completion BaseAIProvider :=
  match map_get (default (defaultProvider w) preferred) (providers w) with
  | Some a => Return a
  | None =>
      match highestPriority (providers w) with
      | Some a => Return a
      | None => Throw (Error None "No AI provider available")
      end
  end.

(** an adapter that fails its first [k] calls with a 503 and answers after *)
Definition flakyEnv (k : nat) : Env :=
  mkEnv (fun n => 1000 + Z.of_nat n)
        (fun j => if (j <? k)%nat
                  then Throw (Error (Some 503) "service unavailable")
                  else Return sampleResponse)
        (fun _ => None) (fun d => joinContents (k_messages d)).

Definition sampleRequest : AICompletionRequest :=
  mkRequest [mkMsg RoleSystem "be brief"; mkMsg RoleUser "hello"]
            None None None None None.

(** the service with the OpenAI adapter registered *)
Definition serviceWorld : World := initialised true false false.

(** the service with only the Gemini adapter registered; it counts
    [Math.ceil(text.length / 4)] *)
Definition geminiWorld : World := initialised false false true.

Fixpoint repeatChar (n : nat) (c : Ascii.ascii) : string :=
  match n with
  | O => EmptyString
  | S n' => String c (repeatChar n' c)
  end.

Definition longSystemMessage : ChatMessage :=
  mkMsg RoleSystem (repeatChar (500 * 100) "a"%char).

(** a service whose adapter counts one token per character *)
Definition lengthWorld : World :=
  set_defaultProvider LOCAL
    (set_providers
       [(LOCAL, mkAdapter "local" "local-model" (fun t => Z.of_nat (String.length t)) true)]
       emptyWorld).

Definition unauthorizedEnv : Env :=
  mkEnv (fun n => 1000 + Z.of_nat n)
        (fun _ => Throw (Error (Some 401) "invalid api key"))
        (fun _ => None) (fun d => joinContents (k_messages d)).

Definition failingSinkEnv : Env :=
  mkEnv (fun n => 1000 + Z.of_nat n) (fun _ => Return sampleResponse)
        (fun _ => Some (Error None "usage store down"))
        (fun d => joinContents (k_messages d)).

(** * More of the code

    Further functions of the same files, of the adapters the service drives
    and of the context builder:
    - [circuit-breaker.ts]: [getStats], [CircuitBreakerFactory.getAllStats];
    - [ai.service.ts]: [getAvailableProviders], [isAvailable], [simpleComplete];
    - the adapters: [countTokens] of the Gemini and Anthropic adapters, Gemini's
      [convertMessages] and what it passes to the chat session, the system text
      and the messages of Anthropic's call;
    - the context builder: [buildMessages]. *)

(** ** [CircuitBreaker]: [getStats] *)

(** What [getStats] returns.  A [Date] is kept as its time value, [null] is
    [None]. *)
Record BreakerStats := mkStats {
  stats_name : string;
  stats_state : CircuitState;
  stats_failureCount : Z;
  stats_successCount : Z;
  stats_lastFailureTime : option Z;
  stats_nextRetryTime : option Z
}.

(** [t ? new Date(t) : null]: the number 0 is falsy *)
Definition dateOrNull (t : Z) : option Z :=
  if t =? 0 then None else Some t.

Definition getStats (this : nat) : Js BreakerStats :=
  let* b := readThis this in
  ret (mkStats (name (options b)) (state b) (failureCount b) (successCount b)
         (dateOrNull (lastFailureTime b)) (dateOrNull (nextRetryTime b))).

(** [Array.from(this.breakers.values()).map((breaker) => breaker.getStats())] *)
Fixpoint statsEach (ls : list nat) : Js (list BreakerStats) :=
  match ls with
  | [] => ret []
  | l :: ls' =>
      let* s := getStats l in
      let* rest := statsEach ls' in
      ret (s :: rest)
  end.

Definition getAllStats : Js (list BreakerStats) :=
  let* ls := gets (fun w => map_values (breakers w)) in
  statsEach ls.

(** ** [AIService]: which providers there are *)

Module AIService.

Definition getAvailableProviders : Js (list AIProvider) :=
  gets (fun w => map fst (providers w)).

(** [this.providers.size > 0] *)
Definition isAvailable : Js bool :=
  gets (fun w => (0 <? map_size (providers w))%nat).

End AIService.

(** ** [AIService.simpleComplete] *)

Record SimpleParams := mkSimpleParams {
  systemPrompt : string;
  userPrompt : string;
  conversationHistory : option (list ChatMessage);
  param_maxTokens : option Z;
  param_temperature : option float;
  param_provider : option AIProvider;
  param_projectId : option string;
  param_userId : option string
}.

Record SimpleUsage := mkSimpleUsage { usageInput : Z; usageOutput : Z; usageTotal : Z }.

Record SimpleResponse := mkSimpleResponse {
  simpleContent : string;
  simpleModel : string;
  simpleUsage : SimpleUsage
}.

(** the [messages] array [simpleComplete] builds: the system prompt, a copy of
    every message of the history, the user prompt *)
Definition simpleMessages (params : SimpleParams) : list ChatMessage :=
  let msgs := [mkMsg RoleSystem (systemPrompt params)] in
  let msgs :=
    match conversationHistory params with
    | Some h => msgs ++ map (fun msg => mkMsg (role msg) (content msg)) h
    | None => msgs
    end in
  msgs ++ [mkMsg RoleUser (userPrompt params)].

Definition simpleRequest (params : SimpleParams) : AICompletionRequest :=
  mkRequest (simpleMessages params) None (param_maxTokens params)
            (param_temperature params) None None.

Definition simpleOptions (params : SimpleParams) : option CompleteOptions :=
  Some (mkCompleteOptions (param_provider params) (param_projectId params)
          (param_userId params) None None None).

Definition simpleComplete (params : SimpleParams) : Js SimpleResponse :=
  let* response := complete (simpleRequest params) (simpleOptions params) in
  ret (mkSimpleResponse (responseContent response) (responseModel response)
         (mkSimpleUsage (promptTokens (usage response))
                        (completionTokens (usage response))
                        (totalTokens (usage response)))).

(** ** The adapters *)

Definition newline : string := String (Ascii.ascii_of_nat 10) EmptyString.

(** [Math.ceil(text.length / 4)]: the estimate of about 4 characters per
    token that the Gemini and the Anthropic adapter use *)
Definition Math_ceil_quarter (text : string) : Z :=
  Qceiling (inject_Z (Z.of_nat (String.length text)) / 4).

(** Gemini's [Content]: a role and its text parts. *)
Inductive GeminiRole := GeminiUser | GeminiModel.

Record Content := mkContent { contentRole : GeminiRole; parts : list string }.

Module GeminiProvider.

Definition countTokens (text : string) : Z := Math_ceil_quarter text.

(** the loop of [convertMessages] over the messages still to convert *)
Fixpoint convertLoop (msgs : list ChatMessage) (systemInstruction : option string)
    (contents : list Content) : option string * list Content :=
  match msgs with
  | [] => (systemInstruction, contents)
  | msg :: rest =>
      match role msg with
      | RoleSystem =>
          (* Gemini uses systemInstruction separately *)
          convertLoop rest (Some (content msg)) contents
      | r =>
          convertLoop rest systemInstruction
            (contents ++
               [mkContent (match r with RoleAssistant => GeminiModel | _ => GeminiUser end)
                          [content msg]])
      end
  end.

Definition convertMessages (msgs : list ChatMessage) : option string * list Content :=
  let (systemInstruction, contents) := convertLoop msgs None [] in
  (* Ensure there's at least one user message *)
  if Nat.eqb (List.length contents) 0
  then (systemInstruction, contents ++ [mkContent GeminiUser [EmptyString]])
  else (systemInstruction, contents).

(** What [complete] and [stream] hand to the chat session: the history
    [contents.slice(0, -1)], the system instruction ([|| undefined] drops an
    empty one) and the text sent, that of the last content. *)
Record ChatInput := mkChatInput {
  history : list Content;
  systemInstruction : option string;
  sent : string
}.

Definition chatInput (msgs : list ChatMessage) : ChatInput :=
  let (systemInstruction, contents) := convertMessages msgs in
  mkChatInput (removelast contents) (truthyString systemInstruction)
    (match last contents with
     | Some lastMessage => String.concat EmptyString (parts lastMessage)
     | None => EmptyString
     end).

(** the adapter as the service sees it; [available] is [this.client !== null] *)
Definition adapter (available : bool) : BaseAIProvider :=
  mkAdapter "gemini" "gemini-1.5-flash" countTokens available.

End GeminiProvider.

Module AnthropicProvider.

Definition countTokens (text : string) : Z := Math_ceil_quarter text.

(** [request.messages.find((m) => m.role === 'system')] *)
Definition systemMessage (msgs : list ChatMessage) : option ChatMessage :=
  List.find (fun m => match role m with RoleSystem => true | _ => false end) msgs.

(** [request.messages.filter((m) => m.role !== 'system')] *)
Definition userMessages (msgs : list ChatMessage) : list ChatMessage :=
  List.filter (fun m => match role m with RoleSystem => false | _ => true end) msgs.

(** the [system] and [messages] fields of the call to the API *)
Definition payload (msgs : list ChatMessage) : option string * list (Role * string) :=
  (option_map content (systemMessage msgs),
   map (fun m => (role m, content m)) (userMessages msgs)).

Definition adapter (available : bool) : BaseAIProvider :=
  mkAdapter "anthropic" "claude-3-5-haiku-20241022" countTokens available.

End AnthropicProvider.

(** ** The context builder: [buildMessages] *)

(** [conversationHistory.slice(-n)]: the last [n] elements *)
Definition sliceLast {A} (n : nat) (l : list A) : list A :=
  drop (List.length l - n) l.

Definition buildMessages (systemPrompt userMessage : string) (context : option string)
    (conversationHistory : option (list ChatMessage)) : list ChatMessage :=
  (* System prompt with context *)
  let fullSystemPrompt :=
    match truthyString context with
    | Some c =>
        (systemPrompt ++ newline ++ newline ++ "---" ++ newline ++ newline
           ++ "Project Context:" ++ newline ++ c)%string
    | None => systemPrompt
    end in
  let msgs := [mkMsg RoleSystem fullSystemPrompt] in
  (* Add conversation history (limited to prevent context overflow) *)
  let msgs :=
    match conversationHistory with
    | Some h => if (0 <? List.length h)%nat then msgs ++ sliceLast 10 h else msgs
    | None => msgs
    end in
  (* Current user message *)
  msgs ++ [mkMsg RoleUser userMessage].

(** * Vocabulary of the further statements *)

(** ** The breaker after a reset, factories built by [getOrCreate] *)

(** The breaker [b] once [reset] ran on it. *)
Definition afterReset (b : CircuitBreaker) : CircuitBreaker :=
  mkBreaker (options b) CLOSED 0 0 (lastFailureTime b) (nextRetryTime b).

(** What [getStats] reports of the breaker [b]. *)
Definition statsOf (b : CircuitBreaker) : BreakerStats :=
  mkStats (name (options b)) (state b) (failureCount b) (successCount b)
    (dateOrNull (lastFailureTime b)) (dateOrNull (nextRetryTime b)).

(** Every entry of the factory map leads to a breaker that carries the name
    it is registered under, and no name is registered twice. *)
Definition namedFactory (w : World) : Prop :=
  NoDup (map fst (breakers w))
  /\ Forall (fun nl => exists b, cbHeap w !! snd nl = Some b /\ name (options b) = fst nl)
       (breakers w).

(** ** The cache check of [complete] *)

(** the key [complete] files a request under *)
Definition cacheKeyOf (env : Env) (request : AICompletionRequest) : string :=
  JSON_stringify env
    (mkKeyData (messages request) (model request) (maxTokens request)
               (temperature request) (responseFormat request)).

(** whether [complete] may use the cache: [useCache && !request.stream] *)
Definition mayUseCache (request : AICompletionRequest) (options : option CompleteOptions)
  : bool :=
  nullish options opt_useCache true && negb (truthyFlag (stream request)).

(** the cache entry [complete] consults for a request, if any *)
Definition consulted (env : Env) (request : AICompletionRequest)
    (options : option CompleteOptions) (w : World) : option CacheEntry :=
  if mayUseCache request options then responseCache w !! cacheKeyOf env request else None.

(** the name of the breaker [complete] runs its attempts through *)
Definition breakerNameFor (options : option CompleteOptions) (w : World) : string :=
  ("ai-" ++ providerValue (default (defaultProvider w) (options ≫= opt_provider)))%string.

(** The breaker [complete] runs its attempts through lets [k] attempts
    through: the factory holds it, CLOSED, with a failure count that reaches
    its threshold after [k] more failures at the earliest; or the factory
    does not hold it yet, and [k] is at most the threshold 5 that [complete]
    creates it with. *)
Definition breakerAdmits (opts : option CompleteOptions) (w : World) (k : nat) : Prop :=
  match map_get (breakerNameFor opts w) (breakers w) with
  | Some l =>
      exists b, cbHeap w !! l = Some b /\ state b = CLOSED
                /\ failureCount b + Z.of_nat k <= failureThreshold (options b)
  | None => Z.of_nat k <= 5
  end.

(** the copy of a cached response that [complete] returns *)
Definition servedFromCache (r : AICompletionResponse) : AICompletionResponse :=
  mkResponse (responseContent r) (finishReason r) (usage r) (responseModel r) (Some true).

(** The world in which [complete] asks the factory for its breaker after a
    cache miss: the clock has been read once when an entry was consulted, and
    the context warning has been logged when the estimate is above 90% of the
    limit. *)
Definition afterCacheMiss (request : AICompletionRequest) (options : option CompleteOptions)
    (provider : BaseAIProvider) (env : Env) (w : World) : World :=
  let w1 := match consulted env request options w with
            | Some _ => set_ticks (S (ticks w)) w
            | None => w
            end in
  let total := estimateRequestTokens request provider in
  let contextLimit :=
    getContextLimit (default (defaultModel provider) (model request)) in
  if aboveNineTenths total contextLimit
  then set_logs (logs w1 ++ [WarnContextLimit total contextLimit]) w1
  else w1.

(** ** Messages by role, text sizes *)

Definition isSystem (m : ChatMessage) : bool :=
  match role m with RoleSystem => true | _ => false end.

(** the contents of the system messages of a conversation, in order *)
Definition systemContents (msgs : list ChatMessage) : list string :=
  map content (List.filter isSystem msgs).

(** the messages of a conversation that are not system messages, in order *)
Definition conversation (msgs : list ChatMessage) : list ChatMessage :=
  List.filter (fun m => negb (isSystem m)) msgs.

(** the Gemini content of a user or assistant message *)
Definition toContent (m : ChatMessage) : Content :=
  mkContent (match role m with RoleAssistant => GeminiModel | _ => GeminiUser end)
            [content m].

(** a token counter whose answer depends on the length of the text only *)
Definition countsByLength (p : BaseAIProvider) : Prop :=
  forall s t, String.length s = String.length t -> countTokens p s = countTokens p t.

(** ** A breaker with another [timeout] *)

(** the breaker [b] with the option [timeout] set to [t] *)
Definition withTimeout (t : Z) (b : CircuitBreaker) : CircuitBreaker :=
  mkBreaker
    (mkOptions (name (options b)) (failureThreshold (options b))
               (successThreshold (options b)) t (resetTimeout (options b)))
    (state b) (failureCount b) (successCount b) (lastFailureTime b) (nextRetryTime b).

(** the world [w] in which the breaker at [this] has its [timeout] set to [t] *)
Definition retimed (t : Z) (this : nat) (w : World) : World :=
  set_cbHeap (alter (withTimeout t) this (cbHeap w)) w.

(** [m'] run on the retimed world does what [m] does on the world itself *)
Definition sameRetimed (t : Z) (this : nat) {A} (m' m : Js A) : Prop :=
  forall env w,
    m' env (retimed t this w) = (fst (m env w), retimed t this (snd (m env w))).

(** ** What a run leaves alone *)

(** [w'] has the factory map of [w] *)
Definition breakersKept (w w' : World) : Prop := breakers w' = breakers w.

(** ** The usage lines of the log *)

(** a line written by [trackUsage]: the usage line, or the error line when
    writing it failed *)
Definition isUsageLine (e : LogEntry) : bool :=
  match e with
  | LogUsage _ | ErrorTrackUsage _ => true
  | _ => false
  end.

Definition usageLines (w : World) : list LogEntry := List.filter isUsageLine (logs w).

(** [w'] has the usage lines of [w] *)
Definition usageKept (w w' : World) : Prop := usageLines w' = usageLines w.

(** what [complete] has [trackUsage] write for a response [r] it got from the
    adapter: one line when the options carry a project id, none otherwise *)
Definition trackedLines (env : Env) (options : option CompleteOptions)
    (r : AICompletionResponse) : list LogEntry :=
  match truthyString (options ≫= opt_projectId) with
  | Some pid =>
      let record :=
        mkRecord pid (options ≫= opt_userId) (responseModel r)
          (promptTokens (usage r)) (completionTokens (usage r))
          (estimatedCost (usage r))
          (nullish options opt_operation "completion"%string) in
      [match usageSink env record with
       | None => LogUsage record
       | Some e => ErrorTrackUsage e
       end]
  | None => []
  end.

(** ** Consistent counters, the life of one breaker *)

(** The counters of a breaker agree with its state: a CLOSED breaker counts
    fewer failures than its threshold and no success, an OPEN one no success,
    a HALF_OPEN one fewer successes than its threshold. *)
Definition wellCounted (b : CircuitBreaker) : Prop :=
  0 <= failureCount b /\ 0 <= successCount b
  /\ (state b = CLOSED ->
      failureCount b < failureThreshold (options b) /\ successCount b = 0)
  /\ (state b = OPEN -> successCount b = 0)
  /\ (state b = HALF_OPEN -> successCount b < successThreshold (options b)).

(** What happens to the breaker at [this]: a call of [execute] whose
    operation does not itself touch the breaker, or a manual [reset]. *)
Inductive breakerStep {T} (env : Env) (this : nat) : World -> World -> Prop :=
| breaker_call (operation : Js T) r w w' :
    leavesBreaker this operation ->
    execute this operation env w = (r, w') ->
    breakerStep env this w w'
| breaker_reset r w w' :
    reset this env w = (r, w') ->
    breakerStep env this w w'.

(** ** Further concrete worlds *)

(** a clock that reads 1000000 and up, and a cache that holds, under the key
    of [sampleRequest], an answer stamped 1000 *)
Definition lateEnv : Env :=
  mkEnv (fun n => 1000000 + Z.of_nat n) (fun _ => Return sampleResponse)
        (fun _ => None) (fun d => joinContents (k_messages d)).

Definition staleEntry : CacheEntry :=
  mkEntry (mkResponse "old" FinishStop (mkUsage 1 1 2 0.0001) "gpt-4o" None) 1000.

Definition staleWorld : World :=
  set_responseCache {[ cacheKeyOf lateEnv sampleRequest := staleEntry ]} serviceWorld.

(** a service whose only adapter is Gemini's *)
Definition geminiService : World :=
  snd (onModuleInit (openaiAdapter false) (AnthropicProvider.adapter false)
         (GeminiProvider.adapter true) sampleEnv (freshService emptyWorld)).

(** the service of [serviceWorld] once the factory holds the breaker of
    OpenAI, with the default thresholds *)
Definition breakerService : World :=
  snd (getOrCreate "ai-openai" None sampleEnv serviceWorld).

(** * Properties *)

(** ** Running the monad *)

Ltac js_unfold :=
  unfold execute, reset, onFailure, onSuccess, transitionTo, readThis, updateThis,
         bind, ret, throw, tryCatch, modify, gets, asks, logger, sleep, Date_now.

(** Symbolic execution of breaker code on a world whose store holds [b] at
    the location, [H : cbHeap w !! this = Some b]. *)
Ltac js_run H :=
  js_unfold; cbn;
  repeat (progress (rewrite ?list_lookup_alter_eq, ?H; cbn)).

Ltac js_world :=
  cbn; rewrite ?list_alter_alter_eq, ?list_lookup_alter_eq.

Ltac cb_fields :=
  unfold set_state, set_failureCount, set_successCount, set_lastFailureTime,
         set_nextRetryTime; cbn.

(** ** Lookups in the tables *)

Lemma getProperty_own {A} (table : gmap string A) key a :
  table !! key = Some a -> getProperty table key = Some (Own a).
Proof. intros H. unfold getProperty. by rewrite H. Qed.

Lemma getProperty_inherited {A} (table : gmap string A) key :
  table !! key = None -> key ∈ Object_prototype ->
  getProperty table key = Some Inherited.
Proof.
  intros H Hin. unfold getProperty. rewrite H.
  replace (existsb _ _) with true; [done|].
  symmetry. apply existsb_exists. exists key.
  split; [by apply list_elem_of_In|apply String.eqb_refl].
Qed.

Lemma getProperty_undefined {A} (table : gmap string A) key :
  table !! key = None -> key ∉ Object_prototype -> getProperty table key = None.
Proof.
  intros H Hout. unfold getProperty. rewrite H.
  destruct (existsb _ _) eqn:Hex; [|done].
  apply existsb_exists in Hex as (k & Hk & ->%String.eqb_eq).
  by apply list_elem_of_In in Hk.
Qed.

(** the entries of the pricing table *)
Lemma pricing_table_entries m r :
  MODEL_PRICING !! m = Some r ->
  (m, r) ∈ [ ("gpt-4o", mkPricing 2.50 10.00); ("gpt-4o-mini", mkPricing 0.15 0.60);
             ("gpt-4-turbo", mkPricing 10.00 30.00); ("gpt-3.5-turbo", mkPricing 0.50 1.50);
             ("claude-3-5-sonnet-20241022", mkPricing 3.00 15.00);
             ("claude-3-5-haiku-20241022", mkPricing 0.80 4.00);
             ("claude-3-opus-20240229", mkPricing 15.00 75.00);
             ("gemini-1.5-pro", mkPricing 1.25 5.00); ("gemini-1.5-flash", mkPricing 0.075 0.30);
             ("gemini-1.5-flash-8b", mkPricing 0.0375 0.15);
             ("gemini-2.0-flash-exp", mkPricing 0.00 0.00) ]%string.
Proof. unfold MODEL_PRICING. by intros H%elem_of_list_to_map_2. Qed.

(** no model of the pricing table bears a name of [Object.prototype] *)
Lemma pricing_names_are_own m r :
  MODEL_PRICING !! m = Some r -> m ∉ Object_prototype.
Proof.
  intros H%pricing_table_entries. unfold Object_prototype.
  repeat (apply elem_of_cons in H as [[= -> _]|H];
          [intros Hin; repeat (apply elem_of_cons in Hin as [[=]|Hin]);
           by apply elem_of_nil in Hin|]).
  by apply elem_of_nil in H.
Qed.

Lemma context_limit_entries m n :
  MODEL_CONTEXT_LIMITS !! m = Some n -> 16385 <= n <= 2000000.
Proof.
  unfold MODEL_CONTEXT_LIMITS. intros H%elem_of_list_to_map_2.
  repeat (apply elem_of_cons in H as [[= -> ->]|H]; [lia|]).
  by apply elem_of_nil in H.
Qed.

(** the two tables list the same models *)
Lemma tables_list_same_models m :
  is_Some (MODEL_PRICING !! m) <-> is_Some (MODEL_CONTEXT_LIMITS !! m).
Proof.
  rewrite <- !elem_of_dom.
  unfold MODEL_PRICING, MODEL_CONTEXT_LIMITS. by rewrite !dom_list_to_map_L.
Qed.

Lemma getContextLimit_inherited m :
  m ∈ Object_prototype -> getContextLimit m = Inherited.
Proof.
  intros Hin. unfold getContextLimit.
  destruct (MODEL_CONTEXT_LIMITS !! m) as [n|] eqn:Hm.
  - destruct (proj2 (tables_list_same_models m)) as [r Hr]; [by eexists|].
    by destruct (pricing_names_are_own _ _ Hr).
  - by rewrite getProperty_inherited.
Qed.

Lemma getContextLimit_own m n :
  MODEL_CONTEXT_LIMITS !! m = Some n -> getContextLimit m = Own n.
Proof. intros Hm. unfold getContextLimit. by rewrite (getProperty_own _ _ _ Hm). Qed.

Lemma getContextLimit_default m :
  MODEL_CONTEXT_LIMITS !! m = None -> m ∉ Object_prototype ->
  getContextLimit m = Own 16000.
Proof. intros Hm Hout. unfold getContextLimit. by rewrite getProperty_undefined. Qed.

Section BreakerSteps.
Context {T : Type} (env : Env) (this : nat).

(** A call on a CLOSED breaker that throws: the failure is counted, and the
    breaker opens when the count reaches the threshold. *)
Lemma execute_closed_throw w b (operation : Js T) e w2 :
  cbHeap w !! this = Some b -> state b = CLOSED ->
  leavesBreaker this operation ->
  execute this operation env w = (Throw e, w2) ->
  exists t,
    cbHeap w2 !! this =
      Some (if failureCount b + 1 >=? failureThreshold (options b)
            then mkBreaker (options b) OPEN (failureCount b + 1) 0 t
                   (clock env (pred (ticks w2)) + resetTimeout (options b))
            else mkBreaker (options b) CLOSED (failureCount b + 1) 0 t
                   (nextRetryTime b)).
Proof.
  intros Hb Hs Hop Hex.
  unfold execute in Hex. unfold bind at 1 in Hex.
  unfold bind at 1, readThis at 1 in Hex. rewrite Hb in Hex. cbn in Hex. rewrite Hs in Hex. cbn in Hex.
  unfold tryCatch, bind at 1 in Hex.
  destruct (operation env w) as [[a|e'] w1] eqn:Hrun;
    pose proof (Hop _ _ _ _ Hrun) as Hfr; rewrite Hb in Hfr.
  - exfalso. revert Hex. js_run Hfr. rewrite Hs. discriminate.
  - revert Hex. js_run Hfr. rewrite Hs.
    destruct (failureCount b + 1 >=? failureThreshold (options b)).
    + js_run Hfr. intros [= <- <-]. exists (clock env (ticks w1)).
      js_world. rewrite Hfr. cbn. cb_fields. by rewrite ?Hs.
    + intros [= <- <-]. exists (clock env (ticks w1)).
      js_world. rewrite Hfr. cbn. cb_fields. by rewrite ?Hs.
Qed.

(** A call on a HALF_OPEN breaker that throws reopens it. *)
Lemma execute_half_open_throw w b (operation : Js T) e w2 :
  cbHeap w !! this = Some b -> state b = HALF_OPEN ->
  leavesBreaker this operation ->
  execute this operation env w = (Throw e, w2) ->
  exists t,
    cbHeap w2 !! this =
      Some (mkBreaker (options b) OPEN (failureCount b + 1) 0 t
              (clock env (pred (ticks w2)) + resetTimeout (options b))).
Proof.
  intros Hb Hs Hop Hex.
  unfold execute in Hex. unfold bind at 1 in Hex.
  unfold bind at 1, readThis at 1 in Hex.
  rewrite Hb in Hex. cbn in Hex. rewrite Hs in Hex. cbn in Hex.
  unfold tryCatch, bind at 1 in Hex.
  destruct (operation env w) as [[a|e'] w1] eqn:Hrun;
    pose proof (Hop _ _ _ _ Hrun) as Hfr; rewrite Hb in Hfr.
  - exfalso. revert Hex. js_run Hfr. rewrite Hs. js_run Hfr.
    destruct (successCount b + 1 >=? successThreshold (options b));
      js_run Hfr; discriminate.
  - revert Hex. js_run Hfr. rewrite Hs. js_run Hfr.
    intros [= <- <-]. exists (clock env (ticks w1)).
    js_world. rewrite Hfr. cbn. by cb_fields.
Qed.

(** A call on a HALF_OPEN breaker that returns: the success is counted, and
    the breaker closes when the count reaches the threshold. *)
Lemma execute_half_open_return w b (operation : Js T) r w2 :
  cbHeap w !! this = Some b -> state b = HALF_OPEN ->
  leavesBreaker this operation ->
  execute this operation env w = (Return r, w2) ->
  cbHeap w2 !! this =
    Some (if successCount b + 1 >=? successThreshold (options b)
          then mkBreaker (options b) CLOSED 0 0
                 (lastFailureTime b) (nextRetryTime b)
          else mkBreaker (options b) HALF_OPEN 0 (successCount b + 1)
                 (lastFailureTime b) (nextRetryTime b)).
Proof.
  intros Hb Hs Hop Hex.
  unfold execute in Hex. unfold bind at 1 in Hex.
  unfold bind at 1, readThis at 1 in Hex.
  rewrite Hb in Hex. cbn in Hex. rewrite Hs in Hex. cbn in Hex.
  unfold tryCatch, bind at 1 in Hex.
  destruct (operation env w) as [[a|e'] w1] eqn:Hrun;
    pose proof (Hop _ _ _ _ Hrun) as Hfr; rewrite Hb in Hfr.
  - revert Hex. js_run Hfr. rewrite Hs. js_run Hfr.
    destruct (successCount b + 1 >=? successThreshold (options b));
      js_run Hfr; intros [= <- <-]; js_world; rewrite Hfr; cbn; cb_fields;
      by rewrite ?Hs.
  - exfalso. revert Hex. js_run Hfr. rewrite Hs. js_run Hfr. discriminate.
Qed.

Lemma execute_open_elapsed w b (operation : Js T) :
  cbHeap w !! this = Some b -> state b = OPEN ->
  nextRetryTime b <= clock env (ticks w) ->
  execute this operation env w = execute this operation env (halfOpened this b w)
  /\ cbHeap (halfOpened this b w) !! this =
       Some (mkBreaker (options b) HALF_OPEN (failureCount b) 0
               (lastFailureTime b) (nextRetryTime b)).
Proof.
  intros Hb Hs Hle.
  assert (Hh : cbHeap (halfOpened this b w) !! this =
       Some (mkBreaker (options b) HALF_OPEN (failureCount b) 0
               (lastFailureTime b) (nextRetryTime b))).
  { unfold halfOpened. js_world. rewrite Hb. cbn. by cb_fields. }
  split; [|exact Hh].
  clear Hh. unfold halfOpened. js_run Hb. rewrite Hs. js_run Hb.
  destruct (Z.geb_spec (clock env (ticks w)) (nextRetryTime b)); [|lia].
  js_run Hb. rewrite ?list_alter_alter_eq. reflexivity.
Qed.

(** A call on an OPEN breaker before the retry time. *)
Lemma execute_open_rejected w b (operation : Js T) :
  cbHeap w !! this = Some b -> state b = OPEN ->
  clock env (ticks w) < nextRetryTime b ->
  execute this operation env w =
    (Throw (CircuitBreakerOpenError (name (options b)) (nextRetryTime b)),
     set_ticks (S (ticks w)) w).
Proof.
  intros Hb Hs Hlt. js_run Hb. rewrite Hs. js_run Hb.
  destruct (Z.geb_spec (clock env (ticks w)) (nextRetryTime b)); [lia|].
  reflexivity.
Qed.

(** On a breaker that is not OPEN the operation runs, and the call
    completes the way the operation does. *)
Lemma execute_relays w b (operation : Js T) :
  cbHeap w !! this = Some b -> state b <> OPEN ->
  leavesBreaker this operation ->
  fst (execute this operation env w) = fst (operation env w).
Proof.
  intros Hb Hs Hop.
  unfold execute. unfold bind at 1.
  unfold bind at 1, readThis at 1. rewrite Hb. cbn.
  destruct (operation env w) as [[a|e'] w1] eqn:Hrun;
    pose proof (Hop _ _ _ _ Hrun) as Hfr; rewrite Hb in Hfr.
  - destruct (state b) eqn:Hst; [|done|]; js_run Hfr; rewrite Hrun; js_run Hfr;
      rewrite Hst; js_run Hfr; [done|].
    destruct (successCount b + 1 >=? successThreshold (options b));
      js_run Hfr; done.
  - destruct (state b) eqn:Hst; [|done|]; js_run Hfr; rewrite Hrun; js_run Hfr;
      rewrite Hst; js_run Hfr; [|done].
    destruct (failureCount b + 1 >=? failureThreshold (options b));
      js_run Hfr; done.
Qed.

Lemma failedCalls_below w b n w' :
  cbHeap w !! this = Some b -> state b = CLOSED -> failureCount b = 0 ->
  failedCalls (T:=T) env this n w w' ->
  Z.of_nat n < failureThreshold (options b) ->
  exists b', cbHeap w' !! this = Some b' /\ state b' = CLOSED
             /\ failureCount b' = Z.of_nat n /\ options b' = options b.
Proof.
  intros Hb Hs Hfc Hrun. induction Hrun as [w|n w w1 w2 op e Hrun IH Hop Hex]; intros Hlt.
  - exists b. by rewrite Hfc.
  - destruct IH as (b1 & Hb1 & Hs1 & Hfc1 & Ho1); [done|lia|].
    destruct (execute_closed_throw _ _ _ _ _ Hb1 Hs1 Hop Hex) as [t Hb2].
    rewrite Ho1, Hfc1 in Hb2.
    destruct (Z.geb_spec (Z.of_nat n + 1) (failureThreshold (options b))); [lia|].
    eexists; split; [exact Hb2|]. cbn. split_and!; [done|lia|done].
Qed.

Lemma succeededCalls_counts w b n w' :
  cbHeap w !! this = Some b -> state b = HALF_OPEN -> successCount b = 0 ->
  succeededCalls (T:=T) env this n w w' ->
  Z.of_nat n < successThreshold (options b) ->
  exists b', cbHeap w' !! this = Some b' /\ state b' = HALF_OPEN
             /\ successCount b' = Z.of_nat n /\ options b' = options b.
Proof.
  intros Hb Hs Hsc Hrun. induction Hrun as [w|n w w1 w2 op r Hrun IH Hop Hex]; intros Hlt.
  - exists b. by rewrite Hsc.
  - destruct IH as (b1 & Hb1 & Hs1 & Hsc1 & Ho1); [done|lia|].
    pose proof (execute_half_open_return _ _ _ _ _ Hb1 Hs1 Hop Hex) as Hb2.
    rewrite Ho1, Hsc1 in Hb2.
    destruct (Z.geb_spec (Z.of_nat n + 1) (successThreshold (options b))); [lia|].
    eexists; split; [exact Hb2|]. cbn. split_and!; [done|lia|done].
Qed.
End BreakerSteps.

(** C1.  A breaker that is CLOSED with no failure counted, and whose
    failureThreshold is at least 1 (the opening failure is the
    failureThreshold-th one): after exactly failureThreshold consecutive failed
    calls of execute it is OPEN, with nextRetryTime the clock reading taken
    while handling the opening failure plus resetTimeout, and it was still
    CLOSED after every smaller number of failures.  A call of execute on an
    OPEN breaker whose clock reading is strictly before nextRetryTime throws
    CircuitBreakerOpenError whatever the operation is, and leaves the world as
    it was but for the clock reading: the operation did not run, state and
    counters are unchanged. *)
Theorem breaker_opens_at_failure_threshold {T} env this w b n w' :
  cbHeap w !! this = Some b -> state b = CLOSED -> failureCount b = 0 ->
  1 <= failureThreshold (options b) ->
  failedCalls (T:=T) env this n w w' ->
  Z.of_nat n = failureThreshold (options b) ->
  (exists b', cbHeap w' !! this = Some b' /\ state b' = OPEN
              /\ nextRetryTime b' = clock env (pred (ticks w')) + resetTimeout (options b)
              /\ options b' = options b)
  /\ (forall m wm, (m < n)%nat -> failedCalls (T:=T) env this m w wm ->
        exists bm, cbHeap wm !! this = Some bm /\ state bm = CLOSED)
  /\ (forall wo bo (operation : Js T),
        cbHeap wo !! this = Some bo -> state bo = OPEN ->
        clock env (ticks wo) < nextRetryTime bo ->
        execute this operation env wo =
          (Throw (CircuitBreakerOpenError (name (options bo)) (nextRetryTime bo)),
           set_ticks (S (ticks wo)) wo)).
Proof.
  intros Hb Hs Hfc Hpos Hrun Hn. split; [|split].
  - destruct Hrun as [w|n w w1 w2 op e Hrun Hop Hex]; [cbn in Hn; lia|].
    destruct (failedCalls_below _ _ _ _ _ _ Hb Hs Hfc Hrun) as (b1 & Hb1 & Hs1 & Hfc1 & Ho1);
      [lia|].
    destruct (execute_closed_throw _ _ _ _ _ _ _ Hb1 Hs1 Hop Hex) as [t Hb2].
    rewrite Ho1, Hfc1 in Hb2.
    destruct (Z.geb_spec (Z.of_nat n + 1) (failureThreshold (options b))); [|lia].
    eexists; split; [exact Hb2|]. done.
  - intros m wm Hm Hrunm.
    destruct (failedCalls_below _ _ _ _ _ _ Hb Hs Hfc Hrunm) as (bm & Hbm & Hsm & _);
      [lia|]. by exists bm.
  - intros wo bo operation. apply execute_open_rejected.
Qed.


Lemma throw_leavesBreaker {T} this e : leavesBreaker (T:=T) this (throw e).
Proof. intros env w r w'. unfold throw. by intros [= _ <-]. Qed.

Lemma ret_leavesBreaker {T} this (v : T) : leavesBreaker this (ret v).
Proof. intros env w r w'. unfold ret. by intros [= _ <-]. Qed.

Lemma breaker_opens_witness :
  let w1 := snd (execute 0 failingOperation sampleEnv (breakerWorld sampleBreaker)) in
  let w2 := snd (execute 0 failingOperation sampleEnv w1) in
  exists b', cbHeap w2 !! 0%nat = Some b' /\ state b' = OPEN
             /\ nextRetryTime b' = clock sampleEnv (pred (ticks w2))
                                     + resetTimeout (options sampleBreaker)
             /\ options b' = options sampleBreaker.
Proof.
  intros w1 w2.
  refine (proj1 (breaker_opens_at_failure_threshold (T:=unit) sampleEnv 0
            (breakerWorld sampleBreaker) sampleBreaker 2 w2 _ _ _ _ _ _)).
  - reflexivity.
  - reflexivity.
  - reflexivity.
  - simpl. lia.
  - eapply failed_more with (operation := failingOperation)
      (e := Error (Some 500) "upstream failure") (w1 := w1).
    + eapply failed_more with (operation := failingOperation)
        (e := Error (Some 500) "upstream failure") (w1 := breakerWorld sampleBreaker).
      * apply failed_none.
      * apply throw_leavesBreaker.
      * vm_compute. reflexivity.
    + apply throw_leavesBreaker.
    + vm_compute. reflexivity.
  - reflexivity.
Defined.

(** C2.  A breaker that is OPEN, called when the clock reads at least
    nextRetryTime: the call moves it to HALF_OPEN with successCount 0 and then
    runs the operation, the call completing the way the operation does.  From
    there, with successThreshold at least 1, it is still HALF_OPEN after fewer
    than successThreshold consecutive successful calls and CLOSED with
    failureCount and successCount 0 after exactly successThreshold of them (the
    trial call is the first).  A failed call on a HALF_OPEN breaker moves it to
    OPEN with successCount 0 and nextRetryTime the clock reading taken while
    handling the failure plus resetTimeout. *)
Theorem half_open_trial_and_recovery {T} env this w b :
  cbHeap w !! this = Some b -> state b = OPEN ->
  nextRetryTime b <= clock env (ticks w) ->
  1 <= successThreshold (options b) ->
  (cbHeap (halfOpened this b w) !! this =
     Some (mkBreaker (options b) HALF_OPEN (failureCount b) 0
             (lastFailureTime b) (nextRetryTime b))
   /\ forall operation : Js T,
        execute this operation env w = execute this operation env (halfOpened this b w)
        /\ (leavesBreaker this operation ->
            fst (execute this operation env w) = fst (operation env (halfOpened this b w))))
  /\ (forall n w',
        succeededCalls (T:=T) env this n (halfOpened this b w) w' ->
        (Z.of_nat n < successThreshold (options b) ->
           exists b', cbHeap w' !! this = Some b' /\ state b' = HALF_OPEN
                      /\ successCount b' = Z.of_nat n)
        /\ (Z.of_nat n = successThreshold (options b) ->
           exists b', cbHeap w' !! this = Some b' /\ state b' = CLOSED
                      /\ failureCount b' = 0 /\ successCount b' = 0))
  /\ (forall w1 b1 (operation : Js T) e w2,
        cbHeap w1 !! this = Some b1 -> state b1 = HALF_OPEN ->
        leavesBreaker this operation ->
        execute this operation env w1 = (Throw e, w2) ->
        exists b2, cbHeap w2 !! this = Some b2 /\ state b2 = OPEN
                   /\ nextRetryTime b2
                      = clock env (pred (ticks w2)) + resetTimeout (options b1)
                   /\ successCount b2 = 0).
Proof.
  intros Hb Hs Hle Hpos.
  assert (Hh : cbHeap (halfOpened this b w) !! this =
     Some (mkBreaker (options b) HALF_OPEN (failureCount b) 0
             (lastFailureTime b) (nextRetryTime b))).
  { by apply (execute_open_elapsed (T:=unit) env this w b (ret tt)). }
  split; [split; [exact Hh|]|split].
  - intros operation.
    pose proof (proj1 (execute_open_elapsed env this w b operation Hb Hs Hle)) as Heq.
    split; [exact Heq|]. intros Hop. rewrite Heq.
    by eapply execute_relays.
  - intros n w' Hrun. split.
    + intros Hlt.
      destruct (succeededCalls_counts env this _ _ _ _ Hh eq_refl eq_refl Hrun Hlt)
        as (b' & Hb' & Hs' & Hsc' & _).
      by exists b'.
    + intros Hn. destruct Hrun as [wh|n wh w1 w2 op r Hrun Hop Hex]; [cbn in Hn; lia|].
      destruct (succeededCalls_counts env this _ _ _ _ Hh eq_refl eq_refl Hrun)
        as (b1 & Hb1 & Hs1 & Hsc1 & Ho1); [cbn; lia|].
      pose proof (execute_half_open_return _ _ _ _ _ _ _ Hb1 Hs1 Hop Hex) as Hb2.
      rewrite Ho1, Hsc1 in Hb2. cbn in Hb2.
      destruct (Z.geb_spec (Z.of_nat n + 1) (successThreshold (options b))); [|lia].
      eexists; split; [exact Hb2|]. done.
  - intros w1 b1 operation e w2 Hb1 Hs1 Hop Hex.
    destruct (execute_half_open_throw _ _ _ _ _ _ _ Hb1 Hs1 Hop Hex) as [t Hb2].
    eexists; split; [exact Hb2|]. done.
Qed.

Lemma half_open_recovery_witness :
  let wh := halfOpened 0 openedBreaker (breakerWorld openedBreaker) in
  let w1 := snd (execute 0 succeedingOperation sampleEnv wh) in
  let w2 := snd (execute 0 succeedingOperation sampleEnv w1) in
  exists b', cbHeap w2 !! 0%nat = Some b' /\ state b' = CLOSED
             /\ failureCount b' = 0 /\ successCount b' = 0.
Proof.
  intros wh w1 w2.
  refine (proj2 (proj1 (proj2 (half_open_trial_and_recovery (T:=unit) sampleEnv 0
            (breakerWorld openedBreaker) openedBreaker _ _ _ _)) 2%nat w2 _) _).
  - reflexivity.
  - reflexivity.
  - vm_compute. discriminate.
  - simpl. lia.
  - eapply succeeded_more with (operation := succeedingOperation) (r := tt) (w1 := w1).
    + eapply succeeded_more with (operation := succeedingOperation) (r := tt) (w1 := wh).
      * apply succeeded_none.
      * apply ret_leavesBreaker.
      * vm_compute. reflexivity.
    + apply ret_leavesBreaker.
    + vm_compute. reflexivity.
  - reflexivity.
Defined.

(** ** The factory *)

Section JsMapFacts.
Context {K V : Type} `{EqDecision K}.

Lemma map_get_set_eq (k : K) (v : V) (m : list (K * V)) :
  map_get k (map_set k v m) = Some v.
Proof.
  induction m as [|[k' v'] m IH]; simpl.
  - by rewrite decide_True.
  - destruct (decide (k = k')) as [->|Hne]; simpl.
    + by rewrite decide_True.
    + by rewrite decide_False.
Qed.

Lemma map_get_set_ne (k k' : K) (v : V) (m : list (K * V)) :
  k <> k' -> map_get k' (map_set k v m) = map_get k' m.
Proof.
  intros Hne. induction m as [|[k0 v0] m IH]; simpl.
  - rewrite decide_False; [done|congruence].
  - destruct (decide (k = k0)) as [->|Hne0]; simpl.
    + rewrite !decide_False; [done|congruence|congruence].
    + destruct (decide (k' = k0)); [done|apply IH].
Qed.
End JsMapFacts.

#[global] Instance keepsBreakers_preorder : PreOrder keepsBreakers.
Proof.
  split.
  - intros w. split; [done|]. intros l b Hb. by exists b.
  - intros w1 w2 w3 [Hm1 Hh1] [Hm2 Hh2]. split; [congruence|].
    intros l b Hb. destruct (Hh1 _ _ Hb) as (b' & Hb' & Ho').
    destruct (Hh2 _ _ Hb') as (b'' & Hb'' & Ho''). exists b''. split; [done|congruence].
Qed.

Section Preserves.
Context (R : World -> World -> Prop) `{!PreOrder R}.

Lemma preserves_ret {A} (a : A) : preserves R (ret a).
Proof. intros env w r w'. unfold ret. by intros [= _ <-]. Qed.

Lemma preserves_throw {A} e : preserves R (throw (A:=A) e).
Proof. intros env w r w'. unfold throw. by intros [= _ <-]. Qed.

Lemma preserves_gets {A} (f : World -> A) : preserves R (gets f).
Proof. intros env w r w'. unfold gets. by intros [= _ <-]. Qed.

Lemma preserves_asks {A} (f : Env -> A) : preserves R (asks f).
Proof. intros env w r w'. unfold asks. by intros [= _ <-]. Qed.

Lemma preserves_modify f : (forall w, R w (f w)) -> preserves R (modify f).
Proof. intros Hf env w r w'. unfold modify. intros [= _ <-]. apply Hf. Qed.

Lemma preserves_bind {A B} (m : Js A) (k : A -> Js B) :
  preserves R m -> (forall a, preserves R (k a)) -> preserves R (bind m k).
Proof.
  intros Hm Hk env w r w'. unfold bind.
  destruct (m env w) as [[a|e] w1] eqn:Hrun.
  - intros Hrun'. etrans; [by eapply Hm|by eapply Hk].
  - intros [= _ <-]. by eapply Hm.
Qed.

Lemma preserves_tryCatch {A} (m : Js A) (h : JsError -> Js A) :
  preserves R m -> (forall e, preserves R (h e)) -> preserves R (tryCatch m h).
Proof.
  intros Hm Hh env w r w'. unfold tryCatch.
  destruct (m env w) as [[a|e] w1] eqn:Hrun.
  - intros [= _ <-]. by eapply Hm.
  - intros Hrun'. etrans; [by eapply Hm|by eapply Hh].
Qed.
End Preserves.

Lemma keeps_updateThis l f :
  (forall b, options (f b) = options b) -> preserves keepsBreakers (updateThis l f).
Proof.
  intros Hf. apply preserves_modify. intros w. split; [done|].
  intros l' b Hb. cbn. rewrite list_lookup_alter. case_decide as Hl.
  - subst l'. rewrite Hb. cbn. eauto.
  - eauto.
Qed.

Lemma keeps_readThis l : preserves keepsBreakers (readThis l).
Proof.
  intros env w r w'. unfold readThis.
  destruct (cbHeap w !! l); intros [= _ <-]; reflexivity.
Qed.

Lemma keeps_Date_now : preserves keepsBreakers Date_now.
Proof.
  intros env w r w'. unfold Date_now. intros [= _ <-]. split; [done|].
  intros l b Hb. by exists b.
Qed.

Lemma keeps_logger e : preserves keepsBreakers (logger e).
Proof.
  apply preserves_modify. intros w. split; [done|].
  intros l b Hb. by exists b.
Qed.

Ltac keeps_step :=
  first
    [ apply preserves_ret; apply _
    | apply preserves_throw; apply _
    | apply keeps_readThis
    | apply keeps_Date_now
    | apply keeps_logger
    | apply keeps_updateThis; intros ?; reflexivity
    | apply preserves_bind; [apply _| |intros ?]
    | apply preserves_tryCatch; [apply _| |intros ?] ].

Ltac keeps_auto :=
  repeat first
    [ keeps_step
    | match goal with
      | |- preserves _ (match state ?b with _ => _ end) => destruct (state b)
      | |- preserves _ (if ?c then _ else _) => destruct c
      end ].

Lemma keeps_transitionTo l s : preserves keepsBreakers (transitionTo l s).
Proof. unfold transitionTo. destruct s; keeps_auto. Qed.

Lemma keeps_onSuccess l : preserves keepsBreakers (onSuccess l).
Proof. unfold onSuccess. keeps_auto; apply keeps_transitionTo. Qed.

Lemma keeps_onFailure l : preserves keepsBreakers (onFailure l).
Proof. unfold onFailure. keeps_auto; apply keeps_transitionTo. Qed.

Lemma keeps_execute {T} l (operation : Js T) :
  preserves keepsBreakers operation -> preserves keepsBreakers (execute l operation).
Proof.
  intros Hop. unfold execute.
  apply preserves_bind; [apply _|apply keeps_readThis|intros b].
  apply preserves_bind; [apply _| |intros ?].
  - keeps_auto; apply keeps_transitionTo.
  - apply preserves_tryCatch; [apply _| |intros e].
    + apply preserves_bind; [apply _|exact Hop|intros r].
      apply preserves_bind; [apply _|apply keeps_onSuccess|intros ?; keeps_step].
    + apply preserves_bind; [apply _|apply keeps_onFailure|intros ?; keeps_step].
Qed.

Lemma keeps_reset l : preserves keepsBreakers (reset l).
Proof. unfold reset. keeps_auto; apply keeps_transitionTo. Qed.

Lemma keeps_resetEach ls : preserves keepsBreakers (resetEach ls).
Proof.
  induction ls as [|l ls IH]; cbn; [keeps_step|].
  apply preserves_bind; [apply _|apply keeps_reset|intros ?; exact IH].
Qed.

Lemma keepsBreakers_wf w w' : wfFactory w -> keepsBreakers w w' -> wfFactory w'.
Proof.
  intros Hwf [Hm Hh] n l Hn. rewrite Hm in Hn.
  destruct (Hwf _ _ Hn) as [b Hb]. destruct (Hh _ _ Hb) as (b' & Hb' & _). eauto.
Qed.

Lemma getOrCreate_known env w n o l :
  map_get n (breakers w) = Some l -> getOrCreate n o env w = (Return l, w).
Proof.
  intros Hn. unfold getOrCreate, bind, gets, map_has, ret. rewrite Hn. cbn.
  by rewrite Hn.
Qed.

Lemma getOrCreate_new env w n o :
  map_get n (breakers w) = None ->
  getOrCreate n o env w =
    (Return (List.length (cbHeap w)),
     set_breakers (map_set n (List.length (cbHeap w)) (breakers w))
       (set_cbHeap (cbHeap w ++ [newCircuitBreaker (fullOptionsOf n o)]) w)).
Proof.
  intros Hn. unfold getOrCreate, bind, gets, map_has, ret, allocBreaker, modify.
  rewrite Hn. cbn. by rewrite map_get_set_eq.
Qed.

(** What every step of a program keeps: the factory stays well formed, a
    name keeps its object, an object keeps its options. *)
Lemma factoryStep_keeps env w w' :
  wfFactory w -> factoryStep env w w' ->
  wfFactory w'
  /\ (forall n l, map_get n (breakers w) = Some l -> map_get n (breakers w') = Some l)
  /\ (forall l b, cbHeap w !! l = Some b ->
        exists b', cbHeap w' !! l = Some b' /\ options b' = options b).
Proof.
  intros Hwf Hstep.
  assert (Hkeeps : keepsBreakers w w' ->
    wfFactory w'
    /\ (forall n l, map_get n (breakers w) = Some l -> map_get n (breakers w') = Some l)
    /\ (forall l b, cbHeap w !! l = Some b ->
          exists b', cbHeap w' !! l = Some b' /\ options b' = options b)).
  { intros Hk. split; [by eapply keepsBreakers_wf|]. destruct Hk as [Hm Hh].
    split; [by rewrite Hm|done]. }
  destruct Hstep as [n o r w w' Hrun|T n l op r w w' Hn Hop Hrun|n r w w' Hrun|r w w' Hrun].
  - destruct (map_get n (breakers w)) as [l|] eqn:Hn.
    + rewrite (getOrCreate_known _ _ _ _ _ Hn) in Hrun. injection Hrun as _ <-.
      apply Hkeeps. reflexivity.
    + rewrite (getOrCreate_new _ _ _ _ Hn) in Hrun. injection Hrun as _ <-. cbn.
      split; [|split].
      * intros n' l'. cbn. destruct (decide (n = n')) as [<-|Hne].
        -- rewrite map_get_set_eq. intros [= <-].
           rewrite lookup_app_r by lia. rewrite Nat.sub_diag. cbn. eauto.
        -- rewrite map_get_set_ne by done. intros Hn'.
           destruct (Hwf _ _ Hn') as [b Hb]. exists b. by apply lookup_app_l_Some.
      * intros n' l' Hn'. rewrite map_get_set_ne; [done|congruence].
      * intros l' b Hb. exists b. split; [by apply lookup_app_l_Some|done].
  - apply Hkeeps. eapply keeps_execute; eauto.
  - apply Hkeeps. revert Hrun. unfold factoryReset, bind, gets.
    destruct (map_get n (breakers w)) as [l|]; cbn.
    + apply keeps_reset.
    + unfold ret. intros [= _ <-]. reflexivity.
  - apply Hkeeps. revert Hrun. unfold resetAll, bind, gets. apply keeps_resetEach.
Qed.

Lemma factoryRun_keeps env w w' n l o :
  rtc (factoryStep env) w w' ->
  wfFactory w -> map_get n (breakers w) = Some l ->
  options <$> cbHeap w !! l = Some o ->
  wfFactory w' /\ map_get n (breakers w') = Some l
  /\ options <$> cbHeap w' !! l = Some o.
Proof.
  induction 1 as [w|w w1 w' Hstep Hrun IH]; intros Hwf Hn Ho; [done|].
  destruct (factoryStep_keeps _ _ _ Hwf Hstep) as (Hwf1 & Hn1 & Ho1).
  apply IH; [done|by apply Hn1|].
  destruct (cbHeap w !! l) as [b|] eqn:Hb; [|done].
  destruct (Ho1 _ _ Hb) as (b' & -> & Hob). cbn in *. congruence.
Qed.

(** C10.  In a well-formed factory: a call getOrCreate(n, o1) returns a
    location l; when n was new, the object at l is a fresh breaker with the
    options o1 filled in with the defaults 5, 2, 30000, 60000.  After any
    further steps of the program (getOrCreate with any name and options,
    execute, reset, resetAll), getOrCreate(n, o2) returns the same location l
    whatever o2 is, changes nothing, and the object at l still has the options
    it had after the first call. *)
Theorem getOrCreate_same_instance env w n o1 :
  wfFactory w ->
  exists l,
    fst (getOrCreate n o1 env w) = Return l
    /\ (map_get n (breakers w) = None ->
        cbHeap (snd (getOrCreate n o1 env w)) !! l
        = Some (newCircuitBreaker (fullOptionsOf n o1)))
    /\ forall w2 o2,
        rtc (factoryStep env) (snd (getOrCreate n o1 env w)) w2 ->
        getOrCreate n o2 env w2 = (Return l, w2)
        /\ is_Some (cbHeap w2 !! l)
        /\ options <$> cbHeap w2 !! l
           = options <$> cbHeap (snd (getOrCreate n o1 env w)) !! l.
Proof.
  intros Hwf.
  destruct (getOrCreate n o1 env w) as [r w1] eqn:Hrun.
  assert (Hstep : factoryStep env w w1) by (by eapply step_getOrCreate).
  destruct (factoryStep_keeps _ _ _ Hwf Hstep) as (Hwf1 & _ & _).
  destruct (map_get n (breakers w)) as [l|] eqn:Hn.
  - rewrite (getOrCreate_known _ _ _ _ _ Hn) in Hrun. injection Hrun as <- <-.
    exists l. split; [done|]. split; [done|]. intros w2 o2 Hrtc. cbn in *.
    destruct (Hwf _ _ Hn) as [b Hb].
    destruct (factoryRun_keeps _ _ _ n l (options b) Hrtc Hwf Hn) as (_ & Hn2 & Ho2).
    { by rewrite Hb. }
    split; [by apply getOrCreate_known|]. rewrite Ho2, Hb. split; [|done].
    by destruct (cbHeap w2 !! l).
  - rewrite (getOrCreate_new _ _ _ _ Hn) in Hrun. injection Hrun as <- <-.
    exists (List.length (cbHeap w)). cbn.
    assert (Hb : (cbHeap w ++ [newCircuitBreaker (fullOptionsOf n o1)])
                   !! List.length (cbHeap w)
                 = Some (newCircuitBreaker (fullOptionsOf n o1))).
    { rewrite lookup_app_r by lia. by rewrite Nat.sub_diag. }
    split; [done|]. split; [done|]. intros w2 o2 Hrtc.
    destruct (factoryRun_keeps _ _ _ n (List.length (cbHeap w)) (fullOptionsOf n o1)
                Hrtc Hwf1) as (_ & Hn2 & Ho2).
    { cbn. apply map_get_set_eq. }
    { cbn. by rewrite Hb. }
    split; [by apply getOrCreate_known|]. rewrite Ho2, Hb. split; [|done].
    by destruct (cbHeap w2 !! List.length (cbHeap w)).
Qed.

Lemma getOrCreate_same_instance_witness :
  let w1 := snd (getOrCreate "ai-openai" None sampleEnv emptyWorld) in
  getOrCreate "ai-openai" (Some (mkPartial (Some 1) (Some 1) None (Some 1))) sampleEnv w1
  = (Return 0%nat, w1)
  /\ options <$> cbHeap w1 !! 0%nat = Some (mkOptions "ai-openai" 5 2 30000 60000).
Proof.
  intros w1.
  destruct (getOrCreate_same_instance sampleEnv emptyWorld "ai-openai" None)
    as (l & Hl & Hnew & Hlater).
  - intros n l Hn. vm_compute in Hn. discriminate Hn.
  - vm_compute in Hl. injection Hl as <-.
    destruct (Hlater w1 (Some (mkPartial (Some 1) (Some 1) None (Some 1))))
      as (Hsame & _ & _); [apply rtc_refl|].
    split; [exact Hsame|]. vm_compute. reflexivity.
Defined.

(** ** The provider registry *)

Lemma getProvider_run env w preferred :
  getProvider preferred env w =
    (match map_get (default (defaultProvider w) preferred) (providers w) with
     | Some a => Return a
     | None =>
         match providers w with
         | (_, a) :: _ => Return a
         | [] => Throw (Error None "No AI provider available")
         end
     end, w).
Proof.
  unfold getProvider, bind, gets, ret, throw, map_values. cbn.
  destruct (map_get _ _); [done|]. by destruct (providers w) as [|[? ?] ?].
Qed.

Lemma getProvider_returns preferred env w :
  providers w <> [] -> exists p, getProvider preferred env w = (Return p, w).
Proof.
  intros Hne. rewrite getProvider_run.
  destruct (map_get _ _); [eauto|]. destruct (providers w) as [|[? ?] ?]; [done|eauto].
Qed.

Lemma getProvider_registered preferred env w p w' :
  getProvider preferred env w = (Return p, w') -> providers w <> [].
Proof.
  rewrite getProvider_run. intros Hrun Hnil. rewrite Hnil in Hrun. cbn in Hrun.
  discriminate Hrun.
Qed.

(** C7, as the code has it.  After onModuleInit on a freshly constructed
    service, the registered adapters are the available ones in the
    registration order OpenAI, Anthropic, Gemini, and the default provider is
    OpenAI when it is available, otherwise the first available one of Gemini
    and Anthropic.  getProvider(preferred) then returns the adapter registered
    under the preferred name (with no preference: under the default name);
    when there is none under that name it returns the first registered adapter
    in registration order; and it throws Error('No AI provider available')
    when no adapter is registered.  It never changes the world. *)
Theorem getProvider_resolution env w0 (o a g : BaseAIProvider) preferred :
  let w := snd (onModuleInit o a g env (freshService w0)) in
  let registered :=
    filter (fun kv => isAvailable (snd kv) = true) [(OPENAI, o); (ANTHROPIC, a); (GEMINI, g)] in
  providers w = registered
  /\ defaultProvider w =
       (if isAvailable o then OPENAI
        else if isAvailable g then GEMINI
        else if isAvailable a then ANTHROPIC else OPENAI)
  /\ getProvider preferred env w =
       (match map_get (default (defaultProvider w) preferred) registered with
        | Some x => Return x
        | None =>
            match head (map snd registered) with
            | Some x => Return x
            | None => Throw (Error None "No AI provider available")
            end
        end, w).
Proof.
  intros w registered.
  assert (Hp : providers w = registered).
  { subst w registered. unfold onModuleInit, registerProvider.
    destruct (isAvailable o) eqn:Ho, (isAvailable a) eqn:Ha, (isAvailable g) eqn:Hg;
      cbn; rewrite ?Ho, ?Ha, ?Hg; reflexivity. }
  split; [exact Hp|]. split.
  - subst w. unfold onModuleInit, registerProvider.
    destruct (isAvailable o) eqn:Ho, (isAvailable a) eqn:Ha, (isAvailable g) eqn:Hg;
      reflexivity.
  - rewrite getProvider_run, Hp.
    destruct (map_get _ registered); [done|].
    by destruct registered as [|[? ?] ?].
Qed.

(** C7 as stated fails: with OpenAI not available and Anthropic and Gemini
    registered, asking for OpenAI gives the Anthropic adapter, the first one
    registered, while the priority order Gemini > OpenAI > Anthropic of the
    statement would give the Gemini adapter. *)
Lemma getProvider_fallback_is_not_priority :
  let w := initialised false true true in
  fst (getProvider (Some OPENAI) sampleEnv w) = Return (anthropicAdapter true)
  /\ resolveAsSpecified (Some OPENAI) w = Return (geminiAdapter true)
  /\ fst (getProvider (Some OPENAI) sampleEnv w) <> resolveAsSpecified (Some OPENAI) w.
Proof.
  intros w. split; [reflexivity|]. split; [reflexivity|].
  vm_compute. discriminate.
Qed.

(** ** What the breaker leaves alone *)

#[global] Instance quiet_preorder : PreOrder quiet.
Proof.
  split.
  - intros w. by repeat split.
  - intros w1 w2 w3 (?&?&?&?) (?&?&?&?). repeat split; congruence.
Qed.

Lemma preserves_readThis R `{!PreOrder R} l : preserves R (readThis l).
Proof.
  intros env w r w'. unfold readThis.
  destruct (cbHeap w !! l); intros [= _ <-]; reflexivity.
Qed.

Lemma preserves_Date_now R :
  (forall w, R w (set_ticks (S (ticks w)) w)) -> preserves R Date_now.
Proof. intros HR env w r w'. unfold Date_now. intros [= _ <-]. apply HR. Qed.

Ltac quiet_step :=
  first
    [ apply preserves_ret; apply _
    | apply preserves_throw; apply _
    | apply preserves_gets; apply _
    | apply preserves_asks; apply _
    | apply preserves_readThis; apply _
    | apply preserves_Date_now; intros ?; done
    | apply preserves_modify; intros ?; done
    | apply preserves_bind; [apply _| |intros ?]
    | apply preserves_tryCatch; [apply _| |intros ?] ].

Ltac quiet_auto :=
  repeat first
    [ quiet_step
    | match goal with
      | |- preserves _ (match ?x with _ => _ end) => destruct x
      | |- preserves _ (if ?c then _ else _) => destruct c
      end ].

Lemma quiet_transitionTo l s : preserves quiet (transitionTo l s).
Proof. unfold transitionTo. destruct s; quiet_auto. Qed.

Lemma quiet_onSuccess l : preserves quiet (onSuccess l).
Proof. unfold onSuccess. quiet_auto; apply quiet_transitionTo. Qed.

Lemma quiet_onFailure l : preserves quiet (onFailure l).
Proof. unfold onFailure. quiet_auto; apply quiet_transitionTo. Qed.

Lemma quiet_getOrCreate n o : preserves quiet (getOrCreate n o).
Proof.
  unfold getOrCreate. quiet_auto.
Qed.

Lemma quiet_trackUsage record : preserves quiet (trackUsage record).
Proof. unfold trackUsage. quiet_auto. Qed.

Lemma quiet_getProvider preferred : preserves quiet (getProvider preferred).
Proof. unfold getProvider. quiet_auto. Qed.

(** On a location that holds an object the breaker's methods return. *)
Lemma transitionTo_returns l s env w :
  is_Some (cbHeap w !! l) ->
  exists w', transitionTo l s env w = (Return tt, w') /\ is_Some (cbHeap w' !! l).
Proof.
  intros [b Hb]. destruct s; js_run Hb; eexists; (split; [reflexivity|]);
    js_world; rewrite Hb; eauto.
Qed.

Lemma onSuccess_returns l env w :
  is_Some (cbHeap w !! l) ->
  exists w', onSuccess l env w = (Return tt, w') /\ is_Some (cbHeap w' !! l).
Proof.
  intros [b Hb]. js_run Hb. destruct (state b); js_run Hb.
  1,2: eexists; (split; [reflexivity|]); js_world; rewrite Hb; eauto.
  destruct (_ >=? _); js_run Hb;
    eexists; (split; [reflexivity|]); js_world; rewrite Hb; eauto.
Qed.

Lemma onFailure_returns l env w :
  is_Some (cbHeap w !! l) ->
  exists w', onFailure l env w = (Return tt, w') /\ is_Some (cbHeap w' !! l).
Proof.
  intros [b Hb]. js_run Hb. destruct (state b); js_run Hb.
  2,3: eexists; (split; [reflexivity|]); js_world; rewrite Hb; eauto.
  destruct (_ >=? _); js_run Hb;
    eexists; (split; [reflexivity|]); js_world; rewrite Hb; eauto.
Qed.

#[global] Instance cacheKept_preorder : PreOrder cacheKept.
Proof. split; [done|]. intros ? ? ?. unfold cacheKept. congruence. Qed.

Lemma cacheKept_onSuccess l : preserves cacheKept (onSuccess l).
Proof. unfold onSuccess, transitionTo. quiet_auto. Qed.

Lemma cacheKept_onFailure l : preserves cacheKept (onFailure l).
Proof. unfold onFailure, transitionTo. quiet_auto. Qed.

Lemma cacheKept_transitionTo l s : preserves cacheKept (transitionTo l s).
Proof. unfold transitionTo. destruct s; quiet_auto. Qed.

Lemma cacheKept_getOrCreate n o : preserves cacheKept (getOrCreate n o).
Proof. unfold getOrCreate. quiet_auto. Qed.

Lemma cacheKept_trackUsage record : preserves cacheKept (trackUsage record).
Proof. unfold trackUsage. quiet_auto. Qed.

(** ** One attempt *)

Lemma protected_provider l p req env w res w' :
  is_Some (cbHeap w !! l) ->
  tryCatch
    (let* result := providerComplete p req in onSuccess l >> ret result)
    (fun error => onFailure l >> throw error) env w = (res, w') ->
  quiet (set_invocations (invocations w ++ [(adapterName p, req)]) w) w'
  /\ cacheKept w w'
  /\ res = adapterReply env (List.length (invocations w)).
Proof.
  intros Hv. unfold tryCatch, bind at 1. unfold providerComplete at 1.
  set (w1 := set_invocations _ w).
  assert (Hv1 : is_Some (cbHeap w1 !! l)) by done.
  destruct (adapterReply env _) as [r|e].
  - destruct (onSuccess_returns l env w1 Hv1) as (w2 & Hrun & _).
    unfold bind. rewrite Hrun. unfold ret. intros [= <- <-].
    split; [by eapply quiet_onSuccess|]. split; [|done].
    by apply (cacheKept_onSuccess _ _ _ _ _ Hrun).
  - destruct (onFailure_returns l env w1 Hv1) as (w2 & Hrun & _).
    unfold bind. rewrite Hrun. unfold throw. intros [= <- <-].
    split; [by eapply quiet_onFailure|]. split; [|done].
    by apply (cacheKept_onFailure _ _ _ _ _ Hrun).
Qed.

(** A call of [execute] around the adapter either does not reach the adapter
    and throws, or calls it once and completes the way it answers. *)
Lemma execute_provider_cases l p req env w res w' :
  execute l (providerComplete p req) env w = (res, w') ->
  sleeps w' = sleeps w /\ providers w' = providers w
  /\ defaultProvider w' = defaultProvider w /\ cacheKept w w'
  /\ ((invocations w' = invocations w /\ exists e, res = Throw e)
      \/ (invocations w' = invocations w ++ [(adapterName p, req)]
          /\ res = adapterReply env (List.length (invocations w)))).
Proof.
  unfold execute. unfold bind at 1. unfold readThis at 1.
  destruct (cbHeap w !! l) as [b|] eqn:Hb.
  2: { intros [= <- <-]. repeat split; try done. left. eauto. }
  assert (Hgo : forall w0 : World, quiet w w0 -> cacheKept w w0 -> is_Some (cbHeap w0 !! l) ->
    tryCatch
      (let* result := providerComplete p req in onSuccess l >> ret result)
      (fun error => onFailure l >> throw error) env w0 = (res, w') ->
    sleeps w' = sleeps w /\ providers w' = providers w
    /\ defaultProvider w' = defaultProvider w /\ cacheKept w w'
    /\ ((invocations w' = invocations w /\ exists e, res = Throw e)
        \/ (invocations w' = invocations w ++ [(adapterName p, req)]
            /\ res = adapterReply env (List.length (invocations w))))).
  { intros w0 (Hi & Hs & Hp & Hd) Hc Hv Hrun.
    destruct (protected_provider _ _ _ _ _ _ _ Hv Hrun) as ((Hi' & Hs' & Hp' & Hd') & Hc' & Hres).
    cbn in *. unfold cacheKept in *. repeat split; try congruence.
    right. rewrite Hi', Hres, Hi. done. }
  unfold bind at 1. destruct (state b) eqn:Hst.
  - cbn. by apply Hgo.
  - unfold bind at 1. unfold Date_now at 1. unfold bind at 1, readThis at 1.
    cbn. rewrite Hb.
    destruct (_ >=? _).
    + destruct (transitionTo_returns l HALF_OPEN env (set_ticks (S (ticks w)) w))
        as (wg & Hrun & Hv); [cbn; by rewrite Hb|].
      rewrite Hrun. apply Hgo; [|by apply (cacheKept_transitionTo _ _ _ _ _ _ Hrun)|done].
      by apply (quiet_transitionTo _ _ _ _ _ _ Hrun).
    + unfold throw. intros [= <- <-]. repeat split; try done. left. eauto.
  - cbn. by apply Hgo.
Qed.

(** One attempt of the retry loop: the same, the sleeps untouched. *)
Lemma attemptOnce_cases l p req opts uc env w res w' :
  attemptOnce l p req opts uc env w = (res, w') ->
  sleeps w' = sleeps w /\ providers w' = providers w
  /\ defaultProvider w' = defaultProvider w
  /\ ((invocations w' = invocations w /\ exists e, res = Throw e)
      \/ (invocations w' = invocations w ++ [(adapterName p, req)]
          /\ res = adapterReply env (List.length (invocations w)))).
Proof.
  unfold attemptOnce. unfold bind at 1.
  destruct (execute l (providerComplete p req) env w) as [[r|e] w1] eqn:Hex;
    destruct (execute_provider_cases _ _ _ _ _ _ _ Hex) as (Hs & Hp & Hd & _ & Hcases).
  2: { intros [= <- <-]. done. }
  assert (Hrest : preserves quiet
    ((if uc && negb (truthyFlag (stream req))
      then let* cacheKey := getCacheKey req in
           let* now := Date_now in
           modify (fun w => set_responseCache
                      (<[cacheKey := mkEntry r now]> (responseCache w)) w)
      else ret tt) >>
     match truthyString (opts ≫= opt_projectId) with
     | Some pid =>
         trackUsage
           (mkRecord pid (opts ≫= opt_userId) (responseModel r)
              (promptTokens (usage r)) (completionTokens (usage r))
              (estimatedCost (usage r))
              (nullish opts opt_operation "completion"%string))
     | None => ret tt
     end >> ret r)).
  { unfold getCacheKey. quiet_auto. }
  intros Hrun. pose proof (Hrest _ _ _ _ Hrun) as (Hi' & Hs' & Hp' & Hd').
  assert (Hres : res = Return r).
  { revert Hrun. clear.
    unfold bind, getCacheKey, asks, Date_now, modify, trackUsage, tryCatch,
           logger, throw, ret.
    destruct (uc && negb (truthyFlag (stream req))), (truthyString _); cbn;
      try destruct (usageSink _ _); cbn; by intros [= <- _]. }
  repeat split; try congruence.
  destruct Hcases as [[Hi [e He]]|[Hi Hr]]; [done|].
  right. split; congruence.
Qed.

(** ** The retry loop *)

Section RetryLoop.
Context (M : Z) (body : Js AICompletionResponse) (env : Env).

Lemma retryLoop_success r a last w response w1 :
  body env w = (Return response, w1) ->
  retryLoop (S r) a M last body env w = (Return response, w1).
Proof. intros Hb. cbn. unfold bind, tryCatch. rewrite Hb. reflexivity. Qed.

Lemma retryLoop_gives_up r a last w e w1 :
  body env w = (Throw e, w1) -> givesUpOn e = true ->
  retryLoop (S r) a M last body env w
  = (Throw e, set_logs (logs w1 ++ [WarnAttemptFailed a M e]) w1).
Proof.
  intros Hb Hg. cbn. unfold bind at 1. unfold tryCatch, bind at 1. rewrite Hb.
  unfold bind at 1, logger, modify. unfold givesUpOn in Hg. rewrite Hg. reflexivity.
Qed.

Lemma retryLoop_backoff r a last w e w1 :
  body env w = (Throw e, w1) -> givesUpOn e = false -> a < M ->
  retryLoop (S r) a M last body env w
  = retryLoop r (a + 1) M (Some e) body env
      (set_sleeps (sleeps w1 ++ [backoff a])
         (set_logs (logs w1 ++ [WarnAttemptFailed a M e]) w1)).
Proof.
  intros Hb Hg Hlt. cbn. unfold bind at 1. unfold tryCatch, bind at 1. rewrite Hb.
  unfold bind at 1, logger, modify. unfold givesUpOn in Hg. rewrite Hg.
  destruct (Z.ltb_spec a M); [|lia]. reflexivity.
Qed.

Lemma retryLoop_last r a last w e w1 :
  body env w = (Throw e, w1) -> givesUpOn e = false -> M <= a ->
  retryLoop (S r) a M last body env w
  = retryLoop r (a + 1) M (Some e) body env
      (set_logs (logs w1 ++ [WarnAttemptFailed a M e]) w1).
Proof.
  intros Hb Hg Hle. cbn. unfold bind at 1. unfold tryCatch, bind at 1. rewrite Hb.
  unfold bind at 1, logger, modify. unfold givesUpOn in Hg. rewrite Hg.
  destruct (Z.ltb_spec a M); [lia|]. reflexivity.
Qed.

Lemma retryLoop_exhausted a last w :
  retryLoop 0 a M last body env w
  = (Throw (default (Error None "AI completion failed after retries") last), w).
Proof. reflexivity. Qed.
End RetryLoop.

(** The loop as [complete] runs it, around [attemptOnce].  [n] adapter calls
    are made and [s] sleeps taken. *)
Lemma retryLoop_attempts l p req opts uc M env r :
  forall a last w res w',
  retryLoop r a M last (attemptOnce l p req opts uc) env w = (res, w') ->
  exists n s : nat,
    (n <= r)%nat
    /\ invocations w' = invocations w ++ replicate n (adapterName p, req)
    /\ sleeps w' = sleeps w ++ backoffs a s
    /\ (s = 0%nat \/ a + Z.of_nat s <= M)
    /\ providers w' = providers w /\ defaultProvider w' = defaultProvider w
    /\ (forall j, (j < n)%nat ->
          match adapterReply env (List.length (invocations w) + j) with
          | Return x => res = Return x /\ S j = n
          | Throw e => givesUpOn e = true -> res = Throw e /\ S j = n
          end)
    /\ (n = r ->
          (n = 0%nat ->
             res = Throw (default (Error None "AI completion failed after retries") last))
          /\ (forall e, (0 < n)%nat ->
                adapterReply env (List.length (invocations w) + n - 1) = Throw e ->
                res = Throw e)).
Proof.
  induction r as [|r IH]; intros a last w res w' Hrun.
  { rewrite retryLoop_exhausted in Hrun. injection Hrun as <- <-.
    exists 0%nat, 0%nat. cbn. rewrite !app_nil_r.
    split_and!; try done; try lia. intros _. split; [done|]. intros; lia. }
  destruct (attemptOnce l p req opts uc env w) as [[x|e] w1] eqn:Hat;
    destruct (attemptOnce_cases _ _ _ _ _ _ _ _ _ Hat) as (Hs1 & Hp1 & Hd1 & Hcases).
  - rewrite (retryLoop_success _ _ _ _ _ _ _ _ _ Hat) in Hrun. injection Hrun as <- <-.
    destruct Hcases as [[_ [e He]]|[Hi1 Hr1]]; [done|].
    exists 1%nat, 0%nat. cbn. rewrite app_nil_r.
    split_and!; try done; try lia.
    + intros j Hj. assert (j = 0)%nat as -> by lia. rewrite Nat.add_0_r, <- Hr1. done.
    + intros _. split; [done|]. intros e _.
      replace (List.length (invocations w) + 1 - 1)%nat with (List.length (invocations w)) by lia.
      rewrite <- Hr1. done.
  - destruct (givesUpOn e) eqn:Hg.
    + rewrite (retryLoop_gives_up _ _ _ _ _ _ _ _ _ Hat Hg) in Hrun.
      injection Hrun as <- <-. cbn.
      destruct Hcases as [[Hi1 _]|[Hi1 Hr1]].
      * exists 0%nat, 0%nat. cbn. rewrite !app_nil_r.
        split_and!; try done; try lia.
      * exists 1%nat, 0%nat. cbn. rewrite app_nil_r.
        split_and!; try done; try lia.
        -- intros j Hj. assert (j = 0)%nat as -> by lia.
           rewrite Nat.add_0_r, <- Hr1. done.
        -- intros _. split; [done|]. intros e' _.
           replace (List.length (invocations w) + 1 - 1)%nat
             with (List.length (invocations w)) by lia.
           rewrite <- Hr1. by intros [= ->].
    + assert (exists s0 w2,
          retryLoop (S r) a M last (attemptOnce l p req opts uc) env w
          = retryLoop r (a + 1) M (Some e) (attemptOnce l p req opts uc) env w2
          /\ invocations w2 = invocations w1 /\ providers w2 = providers w1
          /\ defaultProvider w2 = defaultProvider w1
          /\ sleeps w2 = sleeps w1 ++ backoffs a s0
          /\ (s0 <= 1)%nat /\ (M <= a -> s0 = 0%nat) /\ (a < M -> s0 = 1%nat))
        as (s0 & w2 & Hstep & Hi2 & Hp2 & Hd2 & Hs2 & Hs0 & Hs0' & Hs0'').
      { destruct (Z.lt_ge_cases a M) as [Hlt|Hge].
        - eexists 1%nat, _. split; [by apply retryLoop_backoff|].
          cbn. split_and!; try done; lia.
        - eexists 0%nat, _. split; [by apply retryLoop_last|].
          cbn. rewrite app_nil_r. split_and!; try done; lia. }
      rewrite Hstep in Hrun.
      destruct (IH _ _ _ _ _ Hrun) as (n & s & Hn & Hi & Hs & Hz0 & Hp & Hd & Hj & Hall).
      assert (Hz : M <= a + 1 -> s = 0%nat) by lia.
      destruct Hcases as [[Hi1 _]|[Hi1 Hr1]].
      * exists n, (s0 + s)%nat.
        split_and!; try congruence; try lia.
        -- rewrite Hs, Hs2, Hs1, <- app_assoc. f_equal.
           destruct (Z.lt_ge_cases a M) as [Hlt|Hge].
           ++ by rewrite (Hs0'' Hlt).
           ++ rewrite (Hs0' Hge), Hz by lia. done.
        -- intros j Hj'. specialize (Hj j Hj'). by rewrite Hi2, Hi1 in Hj.
      * exists (S n), (s0 + s)%nat.
        split_and!; try congruence; try lia.
        -- rewrite Hi, Hi2, Hi1, <- app_assoc. done.
        -- rewrite Hs, Hs2, Hs1, <- app_assoc. f_equal.
           destruct (Z.lt_ge_cases a M) as [Hlt|Hge].
           ++ by rewrite (Hs0'' Hlt).
           ++ rewrite (Hs0' Hge), Hz by lia. done.
        -- intros [|j] Hj'.
           ++ rewrite Nat.add_0_r, <- Hr1. intros Hg'. congruence.
           ++ specialize (Hj j ltac:(lia)). rewrite Hi2, Hi1, length_app in Hj. cbn in Hj.
              replace (List.length (invocations w) + S j)%nat
                with (List.length (invocations w) + 1 + j)%nat by lia.
              revert Hj.
              destruct (adapterReply env (List.length (invocations w) + 1 + j)) as [x|e'].
              ** intros [-> <-]. done.
              ** intros Hj Hg'. destruct (Hj Hg') as [-> <-]. done.
        -- intros [= ->]. split; [lia|]. intros e' _ He'.
           destruct Hall as [Hzero Hpos]; [done|].
           destruct r as [|r].
           ++ rewrite Hzero by done. cbn.
              replace (List.length (invocations w) + 1 - 1)%nat
                with (List.length (invocations w)) in He' by lia.
              congruence.
           ++ apply Hpos; [lia|]. rewrite Hi2, Hi1, length_app. cbn.
              replace (List.length (invocations w) + 1 + S r - 1)%nat
                with (List.length (invocations w) + S (S r) - 1)%nat by lia.
              done.
Qed.

(** ** [complete] *)

Lemma bind_inv {A B} (m : Js A) (k : A -> Js B) env w res w' :
  bind m k env w = (res, w') ->
  (exists a w1, m env w = (Return a, w1) /\ k a env w1 = (res, w'))
  \/ (exists e, m env w = (Throw e, w') /\ res = Throw e).
Proof.
  unfold bind. destruct (m env w) as [[a|e] w1].
  - intros Hk. left. eauto.
  - intros [= <- <-]. right. eauto.
Qed.

(** A call of [complete] either ends before the retry loop (no adapter
    registered, or a response served from the cache) without calling the
    adapter or sleeping, or it runs the retry loop [maxRetries] times at most
    around [attemptOnce], from a world with the same calls and sleeps. *)
Lemma complete_run req opts env w res w' :
  complete req opts env w = (res, w') ->
  quiet w w'
  \/ exists l p w0,
       quiet w w0 /\ providers w <> []
       /\ retryLoop (Z.to_nat (nullish opts opt_maxRetries 3)) 1
            (nullish opts opt_maxRetries 3) None
            (attemptOnce l p req opts (nullish opts opt_useCache true)) env w0
          = (res, w').
Proof.
  unfold complete. intros Hrun.
  apply bind_inv in Hrun as [(p & w1 & Hp & Hrun)|(e & Hp & ->)].
  2: { left. by eapply quiet_getProvider. }
  pose proof (quiet_getProvider _ _ _ _ _ Hp) as Hq1.
  cbv zeta in Hrun.
  apply bind_inv in Hrun as [(hit & w2 & Hhit & Hrun)|(e & Hhit & ->)].
  - assert (Hq2 : quiet w1 w2).
    { revert Hhit. match goal with |- ?m env w1 = _ -> _ =>
        assert (Hpres : preserves quiet m) by (unfold getCacheKey; quiet_auto) end.
      apply Hpres. }
    destruct hit as [r|].
    + injection Hrun as <- <-. left. by etrans.
    + apply bind_inv in Hrun as [(u & w3 & Hlog & Hrun)|(e & Hlog & ->)].
      2: { left. etrans; [exact Hq1|]. etrans; [exact Hq2|].
           revert Hlog. match goal with |- ?m env w2 = _ -> _ =>
             assert (Hpres : preserves quiet m) by quiet_auto end. apply Hpres. }
      assert (Hq3 : quiet w2 w3).
      { revert Hlog. match goal with |- ?m env w2 = _ -> _ =>
          assert (Hpres : preserves quiet m) by quiet_auto end. apply Hpres. }
      apply bind_inv in Hrun as [(dflt & w4 & Hd & Hrun)|(e & Hd & ->)].
      2: { discriminate Hd. }
      injection Hd as <- <-.
      apply bind_inv in Hrun as [(l & w5 & Hl & Hrun)|(e & Hl & ->)].
      2: { left. etrans; [exact Hq1|]. etrans; [exact Hq2|]. etrans; [exact Hq3|].
           by eapply quiet_getOrCreate. }
      right. exists l, p, w5. split; [|split; [by eapply getProvider_registered|exact Hrun]].
      etrans; [exact Hq1|]. etrans; [exact Hq2|]. etrans; [exact Hq3|].
      by eapply quiet_getOrCreate.
  - left. etrans; [exact Hq1|].
    revert Hhit. match goal with |- ?m env w1 = _ -> _ =>
      assert (Hpres : preserves quiet m) by (unfold getCacheKey; quiet_auto) end.
    apply Hpres.
Qed.

Lemma attemptOnce_throws l p req opts uc env w e w1 :
  execute l (providerComplete p req) env w = (Throw e, w1) ->
  attemptOnce l p req opts uc env w = (Throw e, w1).
Proof. intros Hex. unfold attemptOnce, bind at 1. by rewrite Hex. Qed.

Lemma isNonRetryableError_codes e :
  isNonRetryableError e = true <->
  exists status message,
    e = Error (Some status) message
    /\ (status = 400 \/ status = 401 \/ status = 403 \/ status = 404).
Proof.
  destruct e as [c t|[status|] message]; cbn.
  - split; [done|]. by intros (? & ? & ? & _).
  - rewrite bool_decide_eq_true, !elem_of_cons, elem_of_nil. split.
    + intros H. exists status, message. split; [done|]. tauto.
    + intros (? & ? & [= -> _] & H). tauto.
  - split; [done|]. by intros (? & ? & ? & _).
Qed.

(** C4.  Whatever maxRetries is.  At any attempt of the retry loop of
    complete: when the breaker-protected adapter call throws a
    CircuitBreakerOpenError, or an error whose status is 400, 401, 403 or 404,
    the loop ends at once with that very error, in the world the attempt left
    plus the warning: no sleep, no further adapter call.  A call of complete
    either ends before the loop without calling the adapter, or is that loop.
    Over a whole call: an adapter call answered with a status 400, 401, 403 or
    404 error is the last adapter call and complete throws that error; so when
    the first adapter call fails that way it is the only one. *)
Theorem complete_gives_up_on_fatal_errors req opts env :
  let M := nullish opts opt_maxRetries 3 in
  let uc := nullish opts opt_useCache true in
  (forall l p r a last w e w1,
      execute l (providerComplete p req) env w = (Throw e, w1) ->
      instanceofCircuitBreakerOpenError e = true \/ isNonRetryableError e = true ->
      retryLoop (S r) a M last (attemptOnce l p req opts uc) env w
      = (Throw e, set_logs (logs w1 ++ [WarnAttemptFailed a M e]) w1))
  /\ (forall w,
        quiet w (snd (complete req opts env w))
        \/ exists l p w0,
             quiet w w0
             /\ complete req opts env w
                = retryLoop (Z.to_nat M) 1 M None (attemptOnce l p req opts uc) env w0)
  /\ (forall w j status message,
        (List.length (invocations w) <= j
         < List.length (invocations (snd (complete req opts env w))))%nat ->
        adapterReply env j = Throw (Error (Some status) message) ->
        status = 400 \/ status = 401 \/ status = 403 \/ status = 404 ->
        fst (complete req opts env w) = Throw (Error (Some status) message)
        /\ List.length (invocations (snd (complete req opts env w))) = S j).
Proof.
  intros M uc. split; [|split].
  - intros l p r a last w e w1 Hex Hfatal.
    apply retryLoop_gives_up; [by apply attemptOnce_throws|].
    unfold givesUpOn. destruct Hfatal as [-> | ->]; [done|by rewrite orb_true_r].
  - intros w. destruct (complete req opts env w) as [res w'] eqn:Hrun.
    destruct (complete_run _ _ _ _ _ _ Hrun) as [Hq|(l & p & w0 & Hq & _ & Hloop)];
      [by left|right; eauto].
  - intros w j status message Hj Hreply Hcode.
    destruct (complete req opts env w) as [res w'] eqn:Hrun. cbn in *.
    destruct (complete_run _ _ _ _ _ _ Hrun) as [Hq|(l & p & w0 & Hq & _ & Hloop)].
    { destruct Hq as (Hi & _). rewrite Hi in Hj. lia. }
    destruct (retryLoop_attempts _ _ _ _ _ _ _ _ _ _ _ _ _ Hloop)
      as (n & s & Hn & Hi & _ & _ & _ & _ & Hcalls & _).
    destruct Hq as (Hi0 & _). rewrite Hi0 in Hi.
    rewrite Hi, length_app, length_replicate in Hj |- *.
    specialize (Hcalls (j - List.length (invocations w))%nat ltac:(lia)).
    rewrite Hi0 in Hcalls.
    replace (List.length (invocations w) + (j - List.length (invocations w)))%nat
      with j in Hcalls by lia.
    rewrite Hreply in Hcalls. destruct Hcalls as [-> Hlast].
    + unfold givesUpOn. apply orb_true_iff. right.
      apply isNonRetryableError_codes. eauto.
    + split; [done|lia].
Qed.

(** ** Two runs side by side *)

Section Related.
Context (Re : Env -> Env -> Prop) (Rw : World -> World -> Prop).

Lemma related_ret {A} (a : A) : related Re Rw (ret a) (ret a).
Proof. intros e1 e2 w1 w2 He Hw. done. Qed.

Lemma related_throw {A} e : related Re Rw (throw (A:=A) e) (throw e).
Proof. intros e1 e2 w1 w2 He Hw. done. Qed.

Lemma related_bind {A B} (m1 m2 : Js A) (k1 k2 : A -> Js B) :
  related Re Rw m1 m2 -> (forall a, related Re Rw (k1 a) (k2 a)) ->
  related Re Rw (bind m1 k1) (bind m2 k2).
Proof.
  intros Hm Hk e1 e2 w1 w2 He Hw. unfold bind.
  destruct (Hm e1 e2 w1 w2 He Hw) as [Hr Hw'].
  destruct (m1 e1 w1) as [[a1|x1] v1], (m2 e2 w2) as [[a2|x2] v2]; cbn in *;
    try discriminate.
  - injection Hr as <-. by apply Hk.
  - injection Hr as ->. by split.
Qed.

Lemma related_tryCatch {A} (m1 m2 : Js A) (h1 h2 : JsError -> Js A) :
  related Re Rw m1 m2 -> (forall e, related Re Rw (h1 e) (h2 e)) ->
  related Re Rw (tryCatch m1 h1) (tryCatch m2 h2).
Proof.
  intros Hm Hh e1 e2 w1 w2 He Hw. unfold tryCatch.
  destruct (Hm e1 e2 w1 w2 He Hw) as [Hr Hw'].
  destruct (m1 e1 w1) as [[a1|x1] v1], (m2 e2 w2) as [[a2|x2] v2]; cbn in *;
    try discriminate.
  - by split.
  - injection Hr as <-. by apply Hh.
Qed.

Lemma related_gets {A} (f : World -> A) :
  (forall w1 w2, Rw w1 w2 -> f w1 = f w2) -> related Re Rw (gets f) (gets f).
Proof. intros Hf e1 e2 w1 w2 He Hw. cbn. split; [by rewrite (Hf _ _ Hw)|done]. Qed.

Lemma related_asks {A} (f : Env -> A) :
  (forall e1 e2, Re e1 e2 -> f e1 = f e2) -> related Re Rw (asks f) (asks f).
Proof. intros Hf e1 e2 w1 w2 He Hw. cbn. split; [by rewrite (Hf _ _ He)|done]. Qed.

Lemma related_modify (f : World -> World) :
  (forall w1 w2, Rw w1 w2 -> Rw (f w1) (f w2)) -> related Re Rw (modify f) (modify f).
Proof. intros Hf e1 e2 w1 w2 He Hw. cbn. split; [done|by apply Hf]. Qed.

(** a step whose result and next world are functions of the environment and
    the world *)
Lemma related_step {A} (m : Js A) :
  (forall e1 e2 w1 w2, Re e1 e2 -> Rw w1 w2 ->
     fst (m e1 w1) = fst (m e2 w2) /\ Rw (snd (m e1 w1)) (snd (m e2 w2))) ->
  related Re Rw m m.
Proof. intros H. exact H. Qed.
End Related.

Lemma sameButLogs_fields w1 w2 :
  sameButLogs w1 w2 <->
  ticks w1 = ticks w2 /\ invocations w1 = invocations w2 /\ sleeps w1 = sleeps w2
  /\ cbHeap w1 = cbHeap w2 /\ breakers w1 = breakers w2 /\ providers w1 = providers w2
  /\ defaultProvider w1 = defaultProvider w2 /\ responseCache w1 = responseCache w2.
Proof.
  unfold sameButLogs. destruct w1, w2. cbn. split.
  - intros [= -> -> -> -> -> -> -> ->]. done.
  - intros (-> & -> & -> & -> & -> & -> & -> & ->). done.
Qed.

Lemma sameButCache_fields w1 w2 :
  sameButCache w1 w2 <->
  ticks w1 = ticks w2 /\ invocations w1 = invocations w2 /\ sleeps w1 = sleeps w2
  /\ logs w1 = logs w2
  /\ cbHeap w1 = cbHeap w2 /\ breakers w1 = breakers w2 /\ providers w1 = providers w2
  /\ defaultProvider w1 = defaultProvider w2.
Proof.
  unfold sameButCache. destruct w1, w2. cbn. split.
  - intros [= -> -> -> -> -> -> -> ->]. done.
  - intros (-> & -> & -> & -> & -> & -> & -> & ->). done.
Qed.

(** side conditions on worlds: split both into their fields *)
Ltac fields_side :=
  intros;
  repeat match goal with
    | H : sameButLogs _ _ |- _ => apply sameButLogs_fields in H; destruct_and! H
    | H : sameButCache _ _ |- _ => apply sameButCache_fields in H; destruct_and! H
    | H : sameButSink _ _ |- _ => destruct H as (? & ? & ?)
    end;
  try match goal with
    | |- sameButLogs _ _ => apply sameButLogs_fields
    | |- sameButCache _ _ => apply sameButCache_fields
    end;
  cbn; repeat split; congruence.

Ltac related_step_tac :=
  first
    [ apply related_ret
    | apply related_throw
    | apply related_gets; fields_side
    | apply related_asks; fields_side
    | apply related_modify; fields_side
    | apply related_bind; [|intros ?]
    | apply related_tryCatch; [|intros ?] ].

Ltac related_auto :=
  repeat first
    [ related_step_tac
    | match goal with
      | |- related _ _ (match ?x with _ => _ end) (match ?x with _ => _ end) => destruct x
      | |- related _ _ (if ?c then _ else _) (if ?c then _ else _) => destruct c
      end ].

Section RelatedCode.
Context (Re : Env -> Env -> Prop) (Rw : World -> World -> Prop).
Context (Hclock : forall e1 e2, Re e1 e2 -> clock e1 = clock e2).
Context (Hreply : forall e1 e2, Re e1 e2 -> adapterReply e1 = adapterReply e2).
Context (Hticks : forall w1 w2, Rw w1 w2 -> ticks w1 = ticks w2).
Context (Hheap : forall w1 w2, Rw w1 w2 -> cbHeap w1 = cbHeap w2).
Context (Hcalls : forall w1 w2, Rw w1 w2 -> invocations w1 = invocations w2).
Context (Hset_ticks : forall n w1 w2, Rw w1 w2 -> Rw (set_ticks n w1) (set_ticks n w2)).
Context (Hset_logs : forall x w1 w2, Rw w1 w2 ->
           Rw (set_logs (logs w1 ++ x) w1) (set_logs (logs w2 ++ x) w2)).
Context (Hset_heap : forall h w1 w2, Rw w1 w2 -> Rw (set_cbHeap h w1) (set_cbHeap h w2)).
Context (Hset_calls : forall x w1 w2, Rw w1 w2 ->
           Rw (set_invocations x w1) (set_invocations x w2)).

Lemma related_Date_now : related Re Rw Date_now Date_now.
Proof.
  intros e1 e2 w1 w2 He Hw. unfold Date_now. cbn.
  rewrite (Hclock _ _ He), (Hticks _ _ Hw). split; [done|by apply Hset_ticks].
Qed.

Lemma related_logger x : related Re Rw (logger x) (logger x).
Proof. intros e1 e2 w1 w2 He Hw. unfold logger, modify. cbn. split; [done|by apply Hset_logs]. Qed.

Lemma related_readThis l : related Re Rw (readThis l) (readThis l).
Proof.
  intros e1 e2 w1 w2 He Hw. unfold readThis. rewrite (Hheap _ _ Hw).
  by destruct (cbHeap w2 !! l).
Qed.

Lemma related_updateThis l f : related Re Rw (updateThis l f) (updateThis l f).
Proof.
  intros e1 e2 w1 w2 He Hw. unfold updateThis, modify. cbn.
  rewrite (Hheap _ _ Hw). split; [done|by apply Hset_heap].
Qed.

Lemma related_providerComplete p req :
  related Re Rw (providerComplete p req) (providerComplete p req).
Proof.
  intros e1 e2 w1 w2 He Hw. unfold providerComplete. cbn.
  rewrite (Hreply _ _ He), (Hcalls _ _ Hw). split; [done|by apply Hset_calls].
Qed.

Ltac breaker_related :=
  repeat first
    [ apply related_ret
    | apply related_throw
    | apply related_Date_now
    | apply related_logger
    | apply related_readThis
    | apply related_updateThis
    | apply related_bind; [|intros ?]
    | apply related_tryCatch; [|intros ?]
    | match goal with
      | |- related _ _ (match ?x with _ => _ end) (match ?x with _ => _ end) => destruct x
      | |- related _ _ (if ?c then _ else _) (if ?c then _ else _) => destruct c
      end ].

Lemma related_transitionTo l s : related Re Rw (transitionTo l s) (transitionTo l s).
Proof. unfold transitionTo. destruct s; breaker_related. Qed.

Lemma related_onSuccess l : related Re Rw (onSuccess l) (onSuccess l).
Proof. unfold onSuccess. breaker_related; apply related_transitionTo. Qed.

Lemma related_onFailure l : related Re Rw (onFailure l) (onFailure l).
Proof. unfold onFailure. breaker_related; apply related_transitionTo. Qed.

Lemma related_execute {T} l (op1 op2 : Js T) :
  related Re Rw op1 op2 -> related Re Rw (execute l op1) (execute l op2).
Proof.
  intros Hop. unfold execute.
  apply related_bind; [apply related_readThis|intros b].
  apply related_bind; [|intros ?].
  - breaker_related; apply related_transitionTo.
  - apply related_tryCatch; [|intros e].
    + apply related_bind; [exact Hop|intros r].
      apply related_bind; [apply related_onSuccess|intros ?; apply related_ret].
    + apply related_bind; [apply related_onFailure|intros ?; apply related_throw].
Qed.
End RelatedCode.

(** ** Usage tracking *)

Lemma trackUsage_run record env w :
  trackUsage record env w
  = (Return tt,
     set_logs (logs w ++ [match usageSink env record with
                          | None => LogUsage record
                          | Some e => ErrorTrackUsage e
                          end]) w).
Proof.
  unfold trackUsage, tryCatch, bind, asks, logger, modify, throw.
  by destruct (usageSink env record).
Qed.

Lemma logs_trackUsage record :
  related sameButSink sameButLogs (trackUsage record) (trackUsage record).
Proof.
  intros e1 e2 w1 w2 He Hw. rewrite !trackUsage_run. cbn. split; [done|].
  fields_side.
Qed.

Lemma logs_getOrCreate n o :
  related sameButSink sameButLogs (getOrCreate n o) (getOrCreate n o).
Proof.
  unfold getOrCreate. related_auto.
Qed.

Lemma logs_attemptOnce l p req opts uc :
  related sameButSink sameButLogs
    (attemptOnce l p req opts uc) (attemptOnce l p req opts uc).
Proof.
  unfold attemptOnce.
  apply related_bind; [|intros r].
  { apply related_execute; try fields_side. apply related_providerComplete; fields_side. }
  apply related_bind; [|intros ?].
  { destruct (uc && _); [|apply related_ret]. unfold getCacheKey.
    apply related_bind; [apply related_asks; fields_side|intros key].
    apply related_bind; [apply related_Date_now; fields_side|intros now].
    apply related_modify; fields_side. }
  apply related_bind; [|intros ?; apply related_ret].
  destruct (truthyString _); [apply logs_trackUsage|apply related_ret].
Qed.

Lemma related_retryLoop Re Rw
    (Hlogs : forall x w1 w2, Rw w1 w2 ->
               Rw (set_logs (logs w1 ++ x) w1) (set_logs (logs w2 ++ x) w2))
    (Hsleeps : forall x w1 w2, Rw w1 w2 ->
               Rw (set_sleeps (sleeps w1 ++ x) w1) (set_sleeps (sleeps w2 ++ x) w2))
    M body1 body2 r :
  related Re Rw body1 body2 ->
  forall a last, related Re Rw (retryLoop r a M last body1) (retryLoop r a M last body2).
Proof.
  intros Hbody. induction r as [|r IH]; intros a last; cbn.
  - apply related_throw.
  - apply related_bind.
    + apply related_tryCatch.
      * apply related_bind; [exact Hbody|intros ?; apply related_ret].
      * intros e. apply related_bind.
        -- intros e1 e2 w1 w2 He Hw. cbn. split; [done|by apply Hlogs].
        -- intros ?. destruct (_ || _); [apply related_throw|].
           apply related_bind; [|intros ?; apply related_ret].
           destruct (_ <? _); [|apply related_ret].
           intros e1 e2 w1 w2 He Hw. cbn. split; [done|by apply Hsleeps].
    + intros [response|e]; [apply related_ret|apply IH].
Qed.

Lemma logs_complete req opts :
  related sameButSink sameButLogs (complete req opts) (complete req opts).
Proof.
  unfold complete.
  apply related_bind; [unfold getProvider; related_auto|intros p].
  apply related_bind; [|intros hit].
  { destruct (_ && _); [|apply related_ret]. unfold getCacheKey.
    apply related_bind; [apply related_asks; fields_side|intros key].
    apply related_bind; [apply related_gets; fields_side|intros [entry|]];
      [|apply related_ret].
    apply related_bind; [apply related_Date_now; fields_side|intros now].
    destruct (_ <? _); [|apply related_ret].
    apply related_bind; [apply related_logger; fields_side|intros ?; apply related_ret]. }
  destruct hit as [r|]; [apply related_ret|].
  apply related_bind; [|intros ?].
  { destruct (aboveNineTenths _ _); [apply related_logger; fields_side|apply related_ret]. }
  apply related_bind; [apply related_gets; fields_side|intros dflt].
  apply related_bind; [apply logs_getOrCreate|intros l].
  apply related_retryLoop; try fields_side. apply logs_attemptOnce.
Qed.

(** C9.  The body of trackUsage may fail or not (the usage sink): trackUsage
    always returns, having logged either the usage line or the error, and
    never throws.  Two calls of complete that differ only in the usage sink,
    so that usage recording fails in one and succeeds in the other, complete
    the same way (the same response or the same error) and leave worlds that
    differ in the log only. *)
Theorem usage_recording_never_affects_complete req opts env sink1 sink2 w :
  let env1 := mkEnv (clock env) (adapterReply env) sink1 (JSON_stringify env) in
  let env2 := mkEnv (clock env) (adapterReply env) sink2 (JSON_stringify env) in
  (forall record w0,
      trackUsage record env1 w0
      = (Return tt,
         set_logs (logs w0 ++ [match sink1 record with
                               | None => LogUsage record
                               | Some e => ErrorTrackUsage e
                               end]) w0))
  /\ fst (complete req opts env1 w) = fst (complete req opts env2 w)
  /\ sameButLogs (snd (complete req opts env1 w)) (snd (complete req opts env2 w)).
Proof.
  intros env1 env2. split; [intros record w0; apply trackUsage_run|].
  apply logs_complete; [done|reflexivity].
Qed.

(** ** The response cache *)

(** A request that may use the cache and finds a fresh entry under its key is
    answered from the cache. *)
Lemma complete_cache_hit req opts env w entry :
  providers w <> [] ->
  nullish opts opt_useCache true = true -> truthyFlag (stream req) = false ->
  responseCache w
    !! JSON_stringify env
         (mkKeyData (messages req) (model req) (maxTokens req)
                    (temperature req) (responseFormat req)) = Some entry ->
  clock env (ticks w) - timestamp entry < CACHE_TTL_MS ->
  complete req opts env w
  = (Return (mkResponse (responseContent (response entry)) (finishReason (response entry))
               (usage (response entry)) (responseModel (response entry)) (Some true)),
     set_logs (logs w ++ [DebugCachedResponse]) (set_ticks (S (ticks w)) w)).
Proof.
  intros Hne Huc Hst Hentry Hfresh.
  destruct (getProvider_returns (opts ≫= opt_provider) env w Hne) as [p Hp].
  unfold complete. unfold bind at 1. rewrite Hp. cbv zeta. rewrite Huc, Hst. cbn.
  unfold bind at 1. unfold getCacheKey, bind at 1, asks. unfold bind at 1, gets.
  rewrite Hentry. unfold bind at 1, Date_now.
  destruct (Z.ltb_spec (clock env (ticks w) - timestamp entry) CACHE_TTL_MS); [|lia].
  reflexivity.
Qed.

(** A successful attempt of a request that may use the cache leaves its
    response in the cache, stamped with the last reading of the clock. *)
Lemma attemptOnce_stores l p req opts env w r w' :
  truthyFlag (stream req) = false ->
  attemptOnce l p req opts true env w = (Return r, w') ->
  responseCache w'
    !! JSON_stringify env
         (mkKeyData (messages req) (model req) (maxTokens req)
                    (temperature req) (responseFormat req))
  = Some (mkEntry r (clock env (pred (ticks w')))).
Proof.
  intros Hst. unfold attemptOnce. intros Hrun.
  apply bind_inv in Hrun as [(r0 & w1 & _ & Hrun)|(e & _ & [=])].
  rewrite Hst in Hrun. cbn in Hrun.
  revert Hrun. unfold bind, getCacheKey, asks, Date_now, modify, ret. cbn.
  destruct (truthyString _); [rewrite trackUsage_run|]; intros [= <- <-]; cbn;
    by rewrite lookup_insert_eq.
Qed.

Lemma retryLoop_returns M body env r :
  forall a last w x w',
  retryLoop r a M last body env w = (Return x, w') ->
  exists w0, body env w0 = (Return x, w').
Proof.
  induction r as [|r IH]; intros a last w x w' Hrun; [discriminate Hrun|].
  destruct (body env w) as [[x0|e] w1] eqn:Hb.
  - rewrite (retryLoop_success _ _ _ _ _ _ _ _ _ Hb) in Hrun. injection Hrun as <- <-. eauto.
  - destruct (givesUpOn e) eqn:Hg.
    + by rewrite (retryLoop_gives_up _ _ _ _ _ _ _ _ _ Hb Hg) in Hrun.
    + destruct (Z.lt_ge_cases a M).
      * rewrite (retryLoop_backoff _ _ _ _ _ _ _ _ _ Hb Hg) in Hrun by done. eauto.
      * rewrite (retryLoop_last _ _ _ _ _ _ _ _ _ Hb Hg) in Hrun by done. eauto.
Qed.

Ltac kept_auto :=
  repeat first
    [ assumption
    | quiet_step
    | match goal with
      | |- preserves _ (match ?x with _ => _ end) => destruct x
      | |- preserves _ (if ?c then _ else _) => destruct c
      end ].

Lemma cacheKept_execute {T} l (operation : Js T) :
  preserves cacheKept operation -> preserves cacheKept (execute l operation).
Proof. intros Hop. unfold execute, onSuccess, onFailure, transitionTo. kept_auto. Qed.

Lemma cacheKept_retryLoop M body r :
  preserves cacheKept body ->
  forall a last, preserves cacheKept (retryLoop r a M last body).
Proof.
  intros Hbody. induction r as [|r IH]; intros a last; cbn; [kept_auto|].
  apply preserves_bind; [apply _| |intros [x|e]; [kept_auto|apply IH]].
  kept_auto.
Qed.

(** With the stream flag set, [complete] leaves the cache as it is. *)
Lemma cacheKept_complete_stream req opts :
  truthyFlag (stream req) = true -> preserves cacheKept (complete req opts).
Proof.
  intros Hst. unfold complete.
  apply preserves_bind; [apply _|unfold getProvider; kept_auto|intros p].
  cbv zeta. rewrite Hst. cbn. rewrite andb_false_r.
  apply preserves_bind; [apply _|kept_auto|intros hit].
  destruct hit; [kept_auto|].
  apply preserves_bind; [apply _|kept_auto|intros ?].
  apply preserves_bind; [apply _|kept_auto|intros dflt].
  apply preserves_bind; [apply _|apply cacheKept_getOrCreate|intros l].
  apply cacheKept_retryLoop. unfold attemptOnce. rewrite Hst. cbn. rewrite andb_false_r.
  apply preserves_bind; [apply _| |intros r].
  { apply cacheKept_execute. intros env w r w'. unfold providerComplete. by intros [= _ <-]. }
  apply preserves_bind; [apply _|kept_auto|intros ?].
  apply preserves_bind; [apply _| |intros ?; kept_auto].
  destruct (truthyString _); [apply cacheKept_trackUsage|kept_auto].
Qed.

(** With the stream flag set, what [complete] does is the same whatever the
    cache holds. *)
Lemma cache_complete_stream req opts :
  truthyFlag (stream req) = true ->
  related eq sameButCache (complete req opts) (complete req opts).
Proof.
  intros Hst. unfold complete.
  apply related_bind; [unfold getProvider; related_auto|intros p].
  cbv zeta. rewrite Hst. cbn. rewrite andb_false_r.
  apply related_bind; [apply related_ret|intros hit].
  destruct hit as [r|]; [apply related_ret|].
  apply related_bind; [|intros ?].
  { destruct (aboveNineTenths _ _); [apply related_logger; fields_side|apply related_ret]. }
  apply related_bind; [apply related_gets; fields_side|intros dflt].
  apply related_bind; [unfold getOrCreate; related_auto|intros l].
  apply related_retryLoop; try fields_side.
  unfold attemptOnce. rewrite Hst. cbn. rewrite andb_false_r.
  apply related_bind; [|intros r].
  { apply related_execute; try fields_side. apply related_providerComplete; fields_side. }
  apply related_bind; [apply related_ret|intros ?].
  apply related_bind; [|intros ?; apply related_ret].
  destruct (truthyString _); [|apply related_ret].
  intros e1 e2 w1 w2 He Hw. rewrite !trackUsage_run. subst e2. cbn. split; [done|].
  fields_side.
Qed.

Lemma sameButCache_world w1 w2 :
  sameButCache w1 w2 -> w1 = set_responseCache (responseCache w1) w2.
Proof.
  intros H. apply sameButCache_fields in H. destruct w1, w2. cbn in *.
  destruct_and! H. by subst.
Qed.

(** C6, as the code has it.  Two calls of complete, both allowed to use the
    cache and without the stream flag, with the same messages, model,
    maxTokens, temperature and responseFormat.  When the first call returns a
    response r1 obtained from the adapter, and the second call reads the clock
    less than 5 minutes after the reading stamped on the cache entry (the last
    reading of the first call), the second call returns r1 with cached = true
    and calls no adapter: it only reads the clock and logs.  Over both calls
    the adapter is called n times with 1 <= n <= maxRetries of the first call
    (the first call may have retried).  A call whose request has the stream
    flag set behaves the same whatever the cache holds and leaves the cache
    as it is. *)
Theorem cache_serves_repeated_request env :
  (forall req1 req2 opts1 opts2 w r1 w1,
      nullish opts1 opt_useCache true = true ->
      nullish opts2 opt_useCache true = true ->
      truthyFlag (stream req1) = false -> truthyFlag (stream req2) = false ->
      messages req1 = messages req2 -> model req1 = model req2 ->
      maxTokens req1 = maxTokens req2 -> temperature req1 = temperature req2 ->
      responseFormat req1 = responseFormat req2 ->
      complete req1 opts1 env w = (Return r1, w1) ->
      invocations w1 <> invocations w ->
      clock env (ticks w1) - clock env (pred (ticks w1)) < CACHE_TTL_MS ->
      complete req2 opts2 env w1
      = (Return (mkResponse (responseContent r1) (finishReason r1) (usage r1)
                   (responseModel r1) (Some true)),
         set_logs (logs w1 ++ [DebugCachedResponse]) (set_ticks (S (ticks w1)) w1))
      /\ exists n,
           (1 <= n)%nat /\ (n <= Z.to_nat (nullish opts1 opt_maxRetries 3%Z))%nat
           /\ List.length (invocations (snd (complete req2 opts2 env w1)))
              = (List.length (invocations w) + n)%nat)
  /\ (forall req opts w c,
        truthyFlag (stream req) = true ->
        complete req opts env (set_responseCache c w)
        = (fst (complete req opts env w),
           set_responseCache c (snd (complete req opts env w)))).
Proof.
  split.
  - intros req1 req2 opts1 opts2 w r1 w1 Huc1 Huc2 Hst1 Hst2 Hm Hmo Hmt Ht Hf
           Hrun Hcalled Hfresh.
    destruct (complete_run _ _ _ _ _ _ Hrun) as [Hq|(l & p & w0 & Hq & Hne & Hloop)].
    { by destruct Hq as (Hi & _). }
    rewrite Huc1 in Hloop.
    destruct (retryLoop_returns _ _ _ _ _ _ _ _ _ Hloop) as [wl Hlast].
    pose proof (attemptOnce_stores _ _ _ _ _ _ _ _ Hst1 Hlast) as Hentry.
    rewrite Hm, Hmo, Hmt, Ht, Hf in Hentry.
    destruct (retryLoop_attempts _ _ _ _ _ _ _ _ _ _ _ _ _ Hloop)
      as (n & s & Hn & Hi & _ & _ & Hp & _ & _ & _).
    destruct Hq as (Hi0 & _ & Hp0 & _).
    assert (Hne1 : providers w1 <> []) by congruence.
    pose proof (complete_cache_hit req2 opts2 env w1 _ Hne1 Huc2 Hst2 Hentry Hfresh) as Hhit.
    cbn in Hhit. split; [exact Hhit|].
    exists n. rewrite Hhit. cbn. rewrite Hi, Hi0, length_app, length_replicate.
    split; [|split; done].
    destruct n; [|lia]. cbn in Hi. rewrite app_nil_r in Hi. congruence.
  - intros req opts w c Hst.
    destruct (cache_complete_stream req opts Hst env env (set_responseCache c w) w)
      as [Hres Hsame]; [done|reflexivity|].
    pose proof (cacheKept_complete_stream req opts Hst env (set_responseCache c w)
                  (fst (complete req opts env (set_responseCache c w)))
                  (snd (complete req opts env (set_responseCache c w)))) as Hkept.
    apply sameButCache_world in Hsame.
    destruct (complete req opts env (set_responseCache c w)) as [res1 wc1].
    cbn in *. rewrite <- Hres. rewrite Hsame at 1. unfold cacheKept in Hkept.
    rewrite (Hkept eq_refl). reflexivity.
Qed.

Lemma cache_serves_repeated_request_witness :
  let w1 := snd (complete sampleRequest None sampleEnv serviceWorld) in
  complete sampleRequest None sampleEnv w1
  = (Return (mkResponse "ok" FinishStop (mkUsage 10 5 15 0.0001) "gpt-4o" (Some true)),
     set_logs (logs w1 ++ [DebugCachedResponse]) (set_ticks (S (ticks w1)) w1)).
Proof.
  intros w1.
  refine (proj1 (proj1 (cache_serves_repeated_request sampleEnv)
            sampleRequest sampleRequest None None serviceWorld sampleResponse w1
            _ _ _ _ _ _ _ _ _ _ _ _)).
  - reflexivity.
  - reflexivity.
  - reflexivity.
  - reflexivity.
  - reflexivity.
  - reflexivity.
  - reflexivity.
  - reflexivity.
  - reflexivity.
  - vm_compute. reflexivity.
  - vm_compute. discriminate.
  - vm_compute. reflexivity.
Defined.

(** C6 as stated fails: the adapter fails twice with a 503 and then answers.
    The first call succeeds at its third attempt, the second call, one
    millisecond later, is served from the cache with cached = true; over both
    calls the adapter was called three times, not at most once. *)
Lemma cache_hit_after_retries_counts_three_calls :
  let run1 := complete sampleRequest None (flakyEnv 2) serviceWorld in
  let run2 := complete sampleRequest None (flakyEnv 2) (snd run1) in
  fst run1 = Return sampleResponse
  /\ fst run2
     = Return (mkResponse "ok" FinishStop (mkUsage 10 5 15 0.0001) "gpt-4o" (Some true))
  /\ List.length (invocations serviceWorld) = 0%nat
  /\ List.length (invocations (snd run2)) = 3%nat
  /\ ~ (List.length (invocations (snd run2)) <= 1)%nat.
Proof.
  intros run1 run2.
  assert (H3 : List.length (invocations (snd run2)) = 3%nat) by (vm_compute; reflexivity).
  split_and!; [vm_compute; reflexivity..|exact H3|rewrite H3; lia].
Qed.

(** ** The context budget *)

Lemma definedMessages_Some ms : definedMessages (map Some ms) = Some ms.
Proof. induction ms as [|m ms IH]; cbn; [done|]. by rewrite IH. Qed.

Lemma estimateTokens_run p env w ms :
  getProvider None env w = (Return p, w) ->
  estimateTokens (map Some ms) env w = (Return (estimateWith p ms), w).
Proof.
  intros Hp. unfold estimateTokens. rewrite definedMessages_Some.
  unfold serviceCountTokens, bind. by rewrite Hp.
Qed.

Lemma fillFromEnd_run p env w sys final budget pending :
  getProvider None env w = (Return p, w) ->
  forall accepted,
  fillFromEnd (map Some pending) (Some sys) (Some final) budget
    (Some sys :: map Some accepted) env w
  = (Return (Some sys :: map Some
       (keepNewest
          (fun acc c => atMost (estimateWith p (sys :: acc ++ [c; final])) budget)
          pending accepted)), w).
Proof.
  intros Hp. induction pending as [|c older IH]; intros accepted; [done|].
  cbn [map fillFromEnd keepNewest]. unfold bind at 1.
  replace (Some sys :: drop 1 (Some sys :: map Some accepted) ++ [Some c; Some final])
    with (map Some (sys :: accepted ++ [c; final])).
  2: { cbn. rewrite drop_0, map_app. done. }
  rewrite (estimateTokens_run p) by done.
  destruct (atMost _ _); [|done].
  unfold spliceAt1. cbn. rewrite drop_0. apply (IH (c :: accepted)).
Qed.

(** what the scan keeps is a suffix of the interior messages, in their order;
    every kept message fitted when it was reached; the newest dropped one did
    not fit *)
Lemma keepNewest_spec fits pending :
  forall accepted,
  exists taken rest,
    pending = taken ++ rest
    /\ keepNewest fits pending accepted = rev taken ++ accepted
    /\ (forall t1 c t2, taken = t1 ++ c :: t2 -> fits (rev t1 ++ accepted) c = true)
    /\ (forall c rest', rest = c :: rest' -> fits (rev taken ++ accepted) c = false).
Proof.
  induction pending as [|c older IH]; intros accepted.
  - exists [], []. split_and!; try done. intros [|? ?] ? ?; discriminate.
  - cbn. destruct (fits accepted c) eqn:Hfit.
    + destruct (IH (c :: accepted)) as (taken & rest & -> & Hk & Hin & Hout).
      exists (c :: taken), rest. split_and!; try done.
      * rewrite Hk. cbn. by rewrite <- app_assoc.
      * intros [|x t1] c' t2; cbn; intros [= <- Heq]; [done|].
        rewrite <- app_assoc. apply (Hin _ _ _ Heq).
      * intros c' rest' Hr. cbn. rewrite <- app_assoc. by apply (Hout _ _ Hr).
    + exists [], (c :: older). split_and!; try done.
      * intros [|? ?] ? ?; discriminate.
      * by intros c' rest' [= <- _].
Qed.

(** The budget scan on a list with a system message, interior messages and a
    final message.  With p the adapter that counts, the budget
    getContextLimit(model) - reserveOutputTokens and the estimate of a list
    the count of its joined contents: a list within the budget is returned
    unchanged; otherwise the result is the system message, a suffix of the
    interior messages in their order, and the final message, where each kept
    message k fitted (estimate of system, the kept messages newer than k, k,
    final at most the budget: <=, not <) and the newest dropped message did
    not fit with all the kept ones; with no message kept the pair
    [system, final] is returned whatever its estimate. *)
Lemma truncateToFit_keeps_newest_suffix p env w sys middle final m reserve :
  getProvider None env w = (Return p, w) ->
  let budget := budgetOf m reserve in
  let msgs := sys :: middle ++ [final] in
  exists result,
    truncateToFit msgs m reserve env w = (Return (map Some result), w)
    /\ (atMost (estimateWith p msgs) budget = true -> result = msgs)
    /\ (atMost (estimateWith p msgs) budget = false ->
        exists dropped kept,
          middle = dropped ++ kept
          /\ result = sys :: kept ++ [final]
          /\ (forall k1 c k2, kept = k1 ++ c :: k2 ->
                atMost (estimateWith p (sys :: k2 ++ [c; final])) budget = true)
          /\ (forall d c, dropped = d ++ [c] ->
                atMost (estimateWith p (sys :: kept ++ [c; final])) budget = false)).
Proof.
  intros Hp budget msgs.
  unfold truncateToFit. unfold bind at 1.
  rewrite (estimateTokens_run p) by done. fold (budgetOf m reserve). fold budget.
  destruct (atMost (estimateWith p msgs) budget) eqn:Hfit.
  { exists msgs. split_and!; done. }
  subst msgs. cbn [head tail].
  assert (Hlast : last (middle ++ [final]) = Some final) by apply last_snoc.
  assert (Hmid : removelast (middle ++ [final]) = middle) by apply removelast_last.
  rewrite Hlast, Hmid. unfold bind at 1.
  rewrite <- map_rev.
  pose proof (fillFromEnd_run p env w sys final budget (rev middle) Hp []) as Hfill.
  cbn [map] in Hfill. rewrite Hfill. clear Hfill.
  set (fits := fun acc c => atMost (estimateWith p (sys :: acc ++ [c; final])) budget).
  destruct (keepNewest_spec fits (rev middle) []) as (taken & rest & Hsplit & Hk & Hin & Hout).
  rewrite Hk, app_nil_r.
  exists (sys :: rev taken ++ [final]). split_and!.
  - unfold ret. cbn. by rewrite map_app.
  - done.
  - intros _. exists (rev rest), (rev taken). split_and!.
    + rewrite <- rev_app_distr, <- Hsplit. by rewrite rev_involutive.
    + done.
    + intros k1 c k2 Hkept.
      assert (Ht : taken = rev k2 ++ c :: rev k1).
      { rewrite <- (rev_involutive taken), Hkept, rev_app_distr. cbn.
        by rewrite <- app_assoc. }
      specialize (Hin _ _ _ Ht). rewrite rev_involutive, app_nil_r in Hin.
      exact Hin.
    + intros d c Hd.
      assert (Hr : rest = c :: rev d).
      { rewrite <- (rev_involutive rest), Hd, rev_app_distr. done. }
      specialize (Hout _ _ Hr). rewrite app_nil_r in Hout.
      exact Hout.
Qed.

(** A list of one message, which is both the first and the last of the list:
    when its estimate is not within the budget the result is not a list of
    messages, it has two slots, the message and undefined. *)
Lemma truncateToFit_single_message p env w sys m reserve :
  getProvider None env w = (Return p, w) ->
  atMost (estimateWith p [sys]) (budgetOf m reserve) = false ->
  truncateToFit [sys] m reserve env w = (Return [Some sys; None], w).
Proof.
  intros Hp Hgt. unfold truncateToFit. unfold bind at 1.
  rewrite (estimateTokens_run p) by done. fold (budgetOf m reserve).
  rewrite Hgt. reflexivity.
Qed.

(** C3 fails on a list of one message.  A single system message of 50000
    characters with the model gpt-3.5-turbo (limit 16385) and the default
    reserve 4096: the estimate 12500 exceeds the budget 12289, and
    truncateToFit returns the message followed by undefined instead of a list
    of messages that keeps the system message and the final message. *)
Lemma truncateToFit_single_message_gives_undefined :
  truncateToFit [longSystemMessage] "gpt-3.5-turbo" 4096 sampleEnv geminiWorld
  = (Return [Some longSystemMessage; None], geminiWorld).
Proof.
  apply (truncateToFit_single_message (geminiAdapter true)).
  - reflexivity.
  - vm_compute. reflexivity.
Qed.

(** the boundary: with one token per character and a budget of 9, the two
    newest interior messages bring the estimate to 9 exactly and are kept *)
Example truncateToFit_boundary :
  truncateToFit
    [mkMsg RoleSystem "s"; mkMsg RoleUser "aa"; mkMsg RoleAssistant "bb";
     mkMsg RoleUser "cc"; mkMsg RoleUser "f"] "some-model" 15991 sampleEnv lengthWorld
  = (Return [Some (mkMsg RoleSystem "s"); Some (mkMsg RoleAssistant "bb");
             Some (mkMsg RoleUser "cc"); Some (mkMsg RoleUser "f")], lengthWorld).
Proof. vm_compute. reflexivity. Qed.

(** ** Cost *)

(** NaN as a factor: the product is NaN *)
Lemma times_nan (x : float) : (x * nan)%float = nan.
Proof.
  apply Prim2SF_inj. rewrite mul_spec.
  change (Prim2SF nan) with S754_nan. by destruct (Prim2SF x).
Qed.

Lemma calculateCost_own m r (p c : float) :
  MODEL_PRICING !! m = Some r ->
  calculateCost m p c = round6 (p / 1000000 * input r + c / 1000000 * output r)%float.
Proof. intros Hm. unfold calculateCost. by rewrite (getProperty_own _ _ _ Hm). Qed.

Lemma calculateCost_default m (p c : float) :
  MODEL_PRICING !! m = None -> m ∉ Object_prototype ->
  calculateCost m p c = round6 (p / 1000000 * 5.0 + c / 1000000 * 15.0)%float.
Proof.
  intros Hm Hout. unfold calculateCost. by rewrite getProperty_undefined.
Qed.

Lemma calculateCost_inherited m (p c : float) :
  m ∈ Object_prototype -> calculateCost m p c = nan.
Proof.
  intros Hin. unfold calculateCost.
  destruct (MODEL_PRICING !! m) as [r|] eqn:Hm.
  { by destruct (pricing_names_are_own _ _ Hm). }
  rewrite getProperty_inherited by done. cbn [default from_option id rate].
  rewrite !times_nan. vm_compute. reflexivity.
Qed.



Example calculateCost_gpt4o : calculateCost "gpt-4o" 1000 500 = 0.0075%float.
Proof. vm_compute. reflexivity. Qed.

Example calculateCost_unknown_model :
  calculateCost "some-new-model" 1000000 1000000 = 20%float.
Proof. vm_compute. reflexivity. Qed.

(** a model named after a method of every object has no price *)
Example calculateCost_of_constructor :
  calculateCost "constructor" 1000000 1000000 = nan.
Proof. vm_compute. reflexivity. Qed.

(** ** The scenarios of the specification, run *)

(** the adapter fails twice and then answers, maxRetries = 3: three adapter
    calls, sleeps of 1000 and 2000 ms, the answer returned *)
Example retry_twice_then_success :
  let run := complete sampleRequest None (flakyEnv 2) serviceWorld in
  fst run = Return sampleResponse
  /\ List.length (invocations (snd run)) = 3%nat
  /\ sleeps (snd run) = [1000; 2000].
Proof. vm_compute. done. Qed.

(** an invalid-credentials answer is not retried *)
Example unauthorized_is_not_retried :
  let run := complete sampleRequest None unauthorizedEnv serviceWorld in
  fst run = Throw (Error (Some 401) "invalid api key")
  /\ List.length (invocations (snd run)) = 1%nat
  /\ sleeps (snd run) = [].
Proof. vm_compute. done. Qed.

(** a failing usage sink does not change the outcome *)
Example usage_failure_is_logged :
  let run := complete sampleRequest
               (Some (mkCompleteOptions None (Some "project-1"%string) None None None None))
               failingSinkEnv serviceWorld in
  fst run = Return sampleResponse
  /\ last (logs (snd run)) = Some (ErrorTrackUsage (Error None "usage store down")).
Proof. vm_compute. done. Qed.

(** the periodic sweep keeps every entry that is not older than the TTL *)
Lemma cleanCache_keeps_fresh env w key entry :
  responseCache w !! key = Some entry ->
  clock env (ticks w) - timestamp entry <= CACHE_TTL_MS ->
  responseCache (snd (cleanCache env w)) !! key = Some entry.
Proof.
  intros Hentry Hfresh. unfold cleanCache, bind, Date_now, modify. cbn.
  apply map_lookup_filter_Some_2; [done|]. cbn. lia.
Qed.

(** * Further properties *)

(** ** The breaker between failures *)

Lemma alter_as_insert {A} (f : A -> A) (l : list A) i x :
  l !! i = Some x -> alter f i l = <[i := f x]> l.
Proof.
  intros Hx. apply list_eq. intros j. destruct (decide (i = j)) as [<-|Hne].
  - rewrite list_lookup_alter_eq, Hx. cbn.
    by rewrite list_lookup_insert_eq by (by eapply lookup_lt_Some).
  - by rewrite list_lookup_alter_ne, list_lookup_insert_ne.
Qed.

Lemma execute_closed_return {T} env this w b (operation : Js T) r w1 :
  cbHeap w !! this = Some b -> state b = CLOSED ->
  leavesBreaker this operation ->
  operation env w = (Return r, w1) ->
  execute this operation env w
  = (Return r, set_cbHeap (<[this := set_failureCount 0 b]> (cbHeap w1)) w1).
Proof.
  intros Hb Hs Hleave Hop.
  pose proof (Hleave _ _ _ _ Hop) as Hb1. rewrite Hb in Hb1.
  unfold execute. unfold bind at 1. unfold readThis at 1. rewrite Hb, Hs. cbn.
  unfold tryCatch, bind at 1. rewrite Hop.
  js_run Hb1. rewrite Hs. cbn.
  by rewrite (alter_as_insert _ _ _ _ Hb1).
Qed.

Lemma reset_run env this w b :
  cbHeap w !! this = Some b ->
  reset this env w
  = (Return tt,
     set_logs (logs w ++ [LogClosed (name (options b))])
       (set_cbHeap (<[this := afterReset b]> (cbHeap w)) w)).
Proof.
  intros Hb. js_run Hb. js_world.
  rewrite (alter_as_insert _ _ _ _ Hb). reflexivity.
Qed.

(** X1.  A call of execute on a CLOSED breaker whose operation returns: the
    result is relayed, the failure count goes back to 0 whatever it was, and
    nothing else of the breaker or of the world the operation left changes.
    So only consecutive failures count: after such a call, fewer than
    failureThreshold failed calls leave the breaker CLOSED. *)
Theorem success_clears_failure_count {T} env this w b (operation : Js T) r w1 :
  cbHeap w !! this = Some b -> state b = CLOSED ->
  leavesBreaker this operation ->
  operation env w = (Return r, w1) ->
  let w2 := set_cbHeap (<[this := set_failureCount 0 b]> (cbHeap w1)) w1 in
  execute this operation env w = (Return r, w2)
  /\ cbHeap w2 !! this
     = Some (mkBreaker (options b) CLOSED 0 (successCount b)
               (lastFailureTime b) (nextRetryTime b))
  /\ forall n w3,
       failedCalls (T:=T) env this n w2 w3 ->
       Z.of_nat n < failureThreshold (options b) ->
       exists b3, cbHeap w3 !! this = Some b3 /\ state b3 = CLOSED
                  /\ failureCount b3 = Z.of_nat n.
Proof.
  intros Hb Hs Hleave Hop w2.
  pose proof (Hleave _ _ _ _ Hop) as Hb1. rewrite Hb in Hb1.
  assert (Hb2 : cbHeap w2 !! this
                = Some (mkBreaker (options b) CLOSED 0 (successCount b)
                          (lastFailureTime b) (nextRetryTime b))).
  { subst w2. cbn. rewrite list_lookup_insert_eq by (by eapply lookup_lt_Some).
    unfold set_failureCount. by rewrite Hs. }
  split; [by apply execute_closed_return|]. split; [exact Hb2|].
  intros n w3 Hrun Hn.
  destruct (failedCalls_below env this w2 _ n w3 Hb2 eq_refl eq_refl Hrun Hn)
    as (b3 & Hb3 & Hs3 & Hf3 & _).
  by exists b3.
Qed.

Lemma success_clears_failure_count_witness :
  execute 0 succeedingOperation sampleEnv
    (breakerWorld (set_failureCount 1 sampleBreaker))
  = (Return tt, breakerWorld sampleBreaker).
Proof.
  refine (proj1 (success_clears_failure_count (T:=unit) sampleEnv 0
            (breakerWorld (set_failureCount 1 sampleBreaker))
            (set_failureCount 1 sampleBreaker) succeedingOperation tt
            (breakerWorld (set_failureCount 1 sampleBreaker)) _ _ _ _)).
  - reflexivity.
  - reflexivity.
  - apply ret_leavesBreaker.
  - reflexivity.
Defined.

(** ** Manual resets *)

(** X2.  reset moves a breaker to CLOSED from whatever state it is in, with
    both counters 0; lastFailureTime and nextRetryTime stay, the clock is not
    read, one 'CLOSED' line is logged.  The next call of execute runs its
    operation and completes as it does, even when nextRetryTime is still
    ahead.  CircuitBreakerFactory.reset(name) is reset on the breaker
    registered under the name, and does nothing for a name the factory does
    not know. *)
Theorem reset_closes_and_reenables {T} env this w b (operation : Js T) :
  cbHeap w !! this = Some b ->
  let w' := set_logs (logs w ++ [LogClosed (name (options b))])
              (set_cbHeap (<[this := afterReset b]> (cbHeap w)) w) in
  reset this env w = (Return tt, w')
  /\ cbHeap w' !! this = Some (afterReset b)
  /\ (leavesBreaker this operation ->
      fst (execute this operation env w') = fst (operation env w'))
  /\ (forall n, map_get n (breakers w) = Some this ->
        factoryReset n env w = (Return tt, w'))
  /\ (forall n, map_get n (breakers w) = None ->
        factoryReset n env w = (Return tt, w)).
Proof.
  intros Hb w'.
  assert (Hb' : cbHeap w' !! this = Some (afterReset b)).
  { subst w'. cbn. by rewrite list_lookup_insert_eq by (by eapply lookup_lt_Some). }
  split_and!.
  - by apply reset_run.
  - exact Hb'.
  - intros Hleave. by apply (execute_relays env this w' (afterReset b)).
  - intros n Hn. unfold factoryReset, bind, gets. rewrite Hn. by apply reset_run.
  - intros n Hn. unfold factoryReset, bind, gets. by rewrite Hn.
Qed.

Lemma reset_closes_and_reenables_witness :
  reset 0 sampleEnv (breakerWorld openedBreaker)
  = (Return tt,
     set_logs [LogClosed "ai-openai"]
       (breakerWorld (mkBreaker (mkOptions "ai-openai" 2 2 30000 60000) CLOSED 0 0 500 900))).
Proof.
  refine (proj1 (reset_closes_and_reenables (T:=unit) sampleEnv 0
            (breakerWorld openedBreaker) openedBreaker succeedingOperation _)).
  reflexivity.
Defined.

(** ** The factory map *)

Section JsMapMore.
Context {K V : Type} `{EqDecision K}.

Lemma map_get_None (k : K) (m : list (K * V)) :
  map_get k m = None <-> k ∉ map fst m.
Proof.
  induction m as [|[k' v] m IH]; cbn.
  - split; [intros _; apply not_elem_of_nil|done].
  - rewrite not_elem_of_cons. destruct (decide (k = k')) as [->|Hne].
    + split; [done|]. by intros [? _].
    + rewrite IH. split; [by intros ?|by intros [_ ?]].
Qed.

Lemma map_set_fresh (k : K) (v : V) (m : list (K * V)) :
  map_get k m = None -> map_set k v m = m ++ [(k, v)].
Proof.
  induction m as [|[k' v'] m IH]; cbn; [done|].
  destruct (decide (k = k')); [done|]. intros Hm. by rewrite IH.
Qed.

Lemma map_get_elem_of (k : K) (v : V) (m : list (K * V)) :
  map_get k m = Some v -> (k, v) ∈ m.
Proof.
  induction m as [|[k' v'] m IH]; cbn; [done|].
  destruct (decide (k = k')) as [->|Hne].
  - intros [= ->]. apply list_elem_of_here.
  - intros Hm. apply list_elem_of_further. by apply IH.
Qed.

Lemma map_get_NoDup (k : K) (v : V) (m : list (K * V)) :
  NoDup (map fst m) -> (k, v) ∈ m -> map_get k m = Some v.
Proof.
  induction m as [|[k' v'] m IH]; cbn; [by intros _ ?%elem_of_nil|].
  intros [Hk' Hnd]%NoDup_cons [[= -> ->]|Hin]%elem_of_cons.
  - by rewrite decide_True.
  - rewrite decide_False; [by apply IH|].
    intros ->. apply Hk'. apply list_elem_of_fmap. by exists (k', v).
Qed.
End JsMapMore.

Lemma keepsBreakers_named w w' : namedFactory w -> keepsBreakers w w' -> namedFactory w'.
Proof.
  intros [Hnd Hall] [Hm Hh]. split; rewrite Hm; [done|].
  eapply Forall_impl; [exact Hall|]. intros [n l] (b & Hb & Hname). cbn in *.
  destruct (Hh _ _ Hb) as (b' & Hb' & Ho). exists b'. by rewrite Ho.
Qed.

Lemma factoryStep_named env w w' : namedFactory w -> factoryStep env w w' -> namedFactory w'.
Proof.
  intros Hnamed Hstep.
  destruct Hstep as [n o r w w' Hrun|T n l op r w w' Hn Hop Hrun|n r w w' Hrun|r w w' Hrun].
  - destruct (map_get n (breakers w)) as [l|] eqn:Hn.
    + rewrite (getOrCreate_known _ _ _ _ _ Hn) in Hrun. by injection Hrun as _ <-.
    + rewrite (getOrCreate_new _ _ _ _ Hn) in Hrun. injection Hrun as _ <-.
      destruct Hnamed as [Hnd Hall]. split; cbn; rewrite (map_set_fresh _ _ _ Hn).
      * rewrite map_app. cbn. apply NoDup_app. split; [done|]. split.
        -- intros k Hk ->%list_elem_of_singleton. by apply map_get_None in Hn.
        -- apply NoDup_singleton.
      * apply Forall_app. split.
        -- eapply Forall_impl; [exact Hall|]. intros [n' l'] (b & Hb & Hname).
           exists b. split; [by apply lookup_app_l_Some|done].
        -- apply Forall_singleton. cbn. eexists. split.
           ++ rewrite lookup_app_r by lia. by rewrite Nat.sub_diag.
           ++ reflexivity.
  - eapply keepsBreakers_named; [done|]. eapply keeps_execute; eauto.
  - eapply keepsBreakers_named; [done|]. revert Hrun. unfold factoryReset, bind, gets.
    destruct (map_get n (breakers w)) as [l|]; cbn.
    + apply keeps_reset.
    + unfold ret. intros [= _ <-]. reflexivity.
  - eapply keepsBreakers_named; [done|]. revert Hrun. unfold resetAll, bind, gets.
    apply keeps_resetEach.
Qed.

(** X3.  An invariant of the factory: every breaker it holds carries, as its
    options' name, the name it is registered under, and no name is registered
    twice.  It holds of a factory without breakers and is kept by getOrCreate,
    by execute on a registered breaker, by reset(name) and by resetAll, so it
    holds after every sequence of them.  In particular a breaker created by
    getOrCreate(n, o) is named n, whatever o holds. *)
Theorem factory_keeps_names env :
  (forall w, breakers w = [] -> namedFactory w)
  /\ (forall w w', namedFactory w -> rtc (factoryStep env) w w' -> namedFactory w')
  /\ (forall w n l b, namedFactory w -> map_get n (breakers w) = Some l ->
        cbHeap w !! l = Some b -> name (options b) = n).
Proof.
  split_and!.
  - intros w Hw. unfold namedFactory. rewrite Hw. split; [apply NoDup_nil_2|apply Forall_nil_2].
  - intros w w' Hnamed Hrun. induction Hrun as [|w w1 w2 Hstep _ IH]; [done|].
    apply IH. by eapply factoryStep_named.
  - intros w n l b [_ Hall] Hn Hb.
    apply map_get_elem_of in Hn.
    rewrite Forall_forall in Hall. destruct (Hall _ Hn) as (b' & Hb' & Hname).
    cbn in *. congruence.
Qed.

Lemma afterReset_idemp b : afterReset (afterReset b) = afterReset b.
Proof. reflexivity. Qed.

(** [resetEach] on locations that all hold a breaker *)
Lemma resetEach_run env ls :
  forall w,
  Forall (fun l => is_Some (cbHeap w !! l)) ls ->
  exists w',
    resetEach ls env w = (Return tt, w')
    /\ breakers w' = breakers w /\ ticks w' = ticks w
    /\ invocations w' = invocations w /\ sleeps w' = sleeps w
    /\ List.length (logs w') = (List.length (logs w) + List.length ls)%nat
    /\ forall l, cbHeap w' !! l
                 = (if bool_decide (l ∈ ls) then afterReset else id) <$> cbHeap w !! l.
Proof.
  induction ls as [|l ls IH]; intros w Hall.
  - exists w. cbn. split_and!; try done; try lia. intros l.
    rewrite bool_decide_eq_false_2 by apply not_elem_of_nil. by destruct (cbHeap w !! l).
  - apply Forall_cons in Hall as [[b Hb] Hall].
    cbn [resetEach]. unfold bind at 1. rewrite (reset_run _ _ _ _ Hb).
    set (w1 := set_logs _ _).
    assert (Hw1 : forall l', cbHeap w1 !! l'
                    = if decide (l = l') then Some (afterReset b) else cbHeap w !! l').
    { intros l'. subst w1. cbn. destruct (decide (l = l')) as [<-|Hne].
      - by rewrite list_lookup_insert_eq by (by eapply lookup_lt_Some).
      - by rewrite list_lookup_insert_ne. }
    destruct (IH w1) as (w' & Hrun & Hbr & Ht & Hi & Hsl & Hlog & Hheap).
    { eapply Forall_impl; [exact Hall|]. intros l' [b' Hb']. cbn beta. rewrite Hw1.
      case_decide; eauto. }
    exists w'. split_and!; try done.
    + rewrite Hlog. subst w1. cbn. rewrite length_app. cbn. lia.
    + intros l'. rewrite Hheap, Hw1. destruct (decide (l = l')) as [<-|Hne].
      * rewrite Hb, (bool_decide_eq_true_2 (l ∈ l :: ls)) by apply list_elem_of_here.
        cbn. by case_bool_decide.
      * destruct (decide (l' ∈ ls)) as [Hin|Hnin].
        -- rewrite !bool_decide_eq_true_2; [done|by apply list_elem_of_further|done].
        -- rewrite !bool_decide_eq_false_2; [done| |done].
           rewrite not_elem_of_cons. split; [congruence|done].
Qed.

(** X4.  resetAll on a factory that keeps its invariant: it returns, every
    registered breaker is afterwards CLOSED with both counters 0 and with the
    options and the two time stamps it had, every other object of the store is
    untouched, the factory map and the clock are as before, and one line is
    logged per registered breaker. *)
Theorem resetAll_closes_every_breaker env w :
  namedFactory w ->
  exists w',
    resetAll env w = (Return tt, w')
    /\ breakers w' = breakers w /\ ticks w' = ticks w
    /\ List.length (logs w') = (List.length (logs w) + List.length (breakers w))%nat
    /\ (forall n l, map_get n (breakers w) = Some l ->
          exists b, cbHeap w !! l = Some b /\ cbHeap w' !! l = Some (afterReset b))
    /\ (forall l, l ∉ map_values (breakers w) -> cbHeap w' !! l = cbHeap w !! l).
Proof.
  intros [Hnd Hall].
  destruct (resetEach_run env (map_values (breakers w)) w)
    as (w' & Hrun & Hbr & Ht & _ & _ & Hlog & Hheap).
  { unfold map_values. apply Forall_fmap. eapply Forall_impl; [exact Hall|].
    intros [n l] (b & Hb & _). cbn in *. eauto. }
  exists w'. split_and!; try done.
  - unfold map_values in Hlog. by rewrite length_map in Hlog.
  - intros n l Hn. apply map_get_elem_of in Hn.
    rewrite Forall_forall in Hall. destruct (Hall _ Hn) as (b & Hb & _). cbn in Hb.
    exists b. split; [done|]. rewrite Hheap, Hb, bool_decide_eq_true_2; [done|].
    unfold map_values. apply list_elem_of_fmap. by exists (n, l).
  - intros l Hl. rewrite Hheap, bool_decide_eq_false_2 by done.
    by destruct (cbHeap w !! l).
Qed.

Lemma resetAll_closes_every_breaker_witness :
  exists w',
    resetAll sampleEnv (breakerWorld openedBreaker) = (Return tt, w')
    /\ cbHeap w' !! 0%nat = Some (afterReset openedBreaker).
Proof.
  destruct (resetAll_closes_every_breaker sampleEnv (breakerWorld openedBreaker))
    as (w' & Hrun & _ & _ & _ & Hclosed & _).
  - split; cbn.
    + apply NoDup_singleton.
    + apply Forall_singleton. exists openedBreaker. split; reflexivity.
  - exists w'. split; [exact Hrun|].
    destruct (Hclosed "ai-openai"%string 0%nat eq_refl) as (b & Hb & Hb').
    injection Hb as <-. exact Hb'.
Defined.

Lemma statsEach_run env w (entries : list (string * nat)) :
  Forall (fun nl => exists b, cbHeap w !! snd nl = Some b /\ name (options b) = fst nl)
    entries ->
  exists stats,
    statsEach (map snd entries) env w = (Return stats, w)
    /\ map stats_name stats = map fst entries
    /\ Forall2 (fun s nl => exists b, cbHeap w !! snd nl = Some b /\ s = statsOf b)
         stats entries.
Proof.
  induction entries as [|[n l] entries IH]; intros Hall.
  - exists []. split_and!; [done|done|constructor].
  - apply Forall_cons in Hall as [(b & Hb & Hname) Hall]. cbn in Hb, Hname.
    destruct (IH Hall) as (stats & Hrun & Hnames & Hstats).
    exists (statsOf b :: stats). split_and!.
    + cbn [map statsEach snd]. unfold bind at 1. unfold getStats, bind at 1, readThis.
      rewrite Hb. cbn. unfold bind at 1. by rewrite Hrun.
    + cbn. by rewrite Hnames, Hname.
    + constructor; [|done]. exists b. done.
Qed.

(** X5.  getAllStats on a factory that keeps its invariant returns one record
    per registered breaker, in the order in which the names were registered,
    each with the name it is registered under and the state and counters of
    the breaker as they are; a lastFailureTime or nextRetryTime of 0 is
    reported as null.  It changes nothing.  A breaker that has just been
    created reports CLOSED, 0 failures, 0 successes and null for both times. *)
Theorem getAllStats_reports_every_breaker env w :
  namedFactory w ->
  (exists stats,
     getAllStats env w = (Return stats, w)
     /\ map stats_name stats = map fst (breakers w)
     /\ Forall2 (fun s nl => exists b, cbHeap w !! snd nl = Some b /\ s = statsOf b)
          stats (breakers w))
  /\ (forall b, stats_lastFailureTime (statsOf b)
                = (if lastFailureTime b =? 0 then None else Some (lastFailureTime b))
                /\ stats_nextRetryTime (statsOf b)
                   = (if nextRetryTime b =? 0 then None else Some (nextRetryTime b)))
  /\ (forall n o, statsOf (newCircuitBreaker (fullOptionsOf n o))
                  = mkStats n CLOSED 0 0 None None).
Proof.
  intros [_ Hall]. split_and!; [|done|done].
  destruct (statsEach_run env w _ Hall) as (stats & Hrun & Hnames & Hstats).
  exists stats. split_and!; [|done|done].
  unfold getAllStats, bind, gets, map_values. by rewrite Hrun.
Qed.

Lemma getAllStats_reports_every_breaker_witness :
  exists stats,
    getAllStats sampleEnv (breakerWorld openedBreaker)
    = (Return stats, breakerWorld openedBreaker)
    /\ map stats_name stats = ["ai-openai"%string].
Proof.
  destruct (getAllStats_reports_every_breaker sampleEnv (breakerWorld openedBreaker))
    as ((stats & Hrun & Hnames & _) & _).
  - split; cbn.
    + apply NoDup_singleton.
    + apply Forall_singleton. exists openedBreaker. split; reflexivity.
  - exists stats. split; [exact Hrun|exact Hnames].
Defined.

(** ** [complete] past the cache check *)

Lemma getOrCreate_returns n o env w :
  exists l w', getOrCreate n o env w = (Return l, w')
               /\ quiet w w' /\ cacheKept w w' /\ ticks w' = ticks w /\ logs w' = logs w
               /\ map_get n (breakers w') = Some l
               /\ (forall l0, map_get n (breakers w) = Some l0 -> l = l0 /\ w' = w).
Proof.
  destruct (map_get n (breakers w)) as [l|] eqn:Hn.
  - exists l, w. rewrite (getOrCreate_known _ _ _ _ _ Hn).
    split_and!; try done. by intros l0 [= ->].
  - eexists _, _. rewrite (getOrCreate_new _ _ _ _ Hn).
    split_and!; try done. cbn. apply map_get_set_eq.
Qed.

(** A call of [complete] that is not answered from the cache runs the retry
    loop from the world [getOrCreate] leaves. *)
Lemma complete_miss req opts env w p :
  getProvider (opts ≫= opt_provider) env w = (Return p, w) ->
  match consulted env req opts w with
  | Some entry => CACHE_TTL_MS <= clock env (ticks w) - timestamp entry
  | None => True
  end ->
  exists l w0,
    getOrCreate (breakerNameFor opts w) (Some (mkPartial (Some 5) (Some 2) None (Some 60000)))
      env (afterCacheMiss req opts p env w) = (Return l, w0)
    /\ complete req opts env w
       = retryLoop (Z.to_nat (nullish opts opt_maxRetries 3)) 1
           (nullish opts opt_maxRetries 3) None
           (attemptOnce l p req opts (nullish opts opt_useCache true)) env w0.
Proof.
  intros Hp Hmiss.
  destruct (getOrCreate_returns (breakerNameFor opts w)
              (Some (mkPartial (Some 5) (Some 2) None (Some 60000))) env
              (afterCacheMiss req opts p env w)) as (l & w0 & Hl & _).
  exists l, w0. split; [exact Hl|].
  unfold complete. unfold bind at 1. rewrite Hp. cbv zeta.
  revert Hmiss Hl. unfold afterCacheMiss, consulted, mayUseCache, cacheKeyOf, breakerNameFor.
  destruct (nullish opts opt_useCache true && negb (truthyFlag (stream req))) eqn:Hmay.
  - unfold bind at 1. unfold bind at 1. unfold getCacheKey at 1, asks at 1.
    unfold bind at 1. unfold gets at 1.
    destruct (responseCache w !! _) as [entry|] eqn:Hentry.
    + intros Hstale. unfold bind at 1. unfold Date_now at 1.
      destruct (Z.ltb_spec (clock env (ticks w) - timestamp entry) CACHE_TTL_MS); [lia|].
      unfold ret at 1. unfold bind at 1.
      destruct (aboveNineTenths _ _).
      * unfold logger, modify. unfold bind at 1. unfold gets at 1. cbn [defaultProvider].
        intros Hl. unfold bind at 1. cbn [defaultProvider set_logs set_ticks]. by rewrite Hl.
      * unfold ret at 1. unfold bind at 1. unfold gets at 1. cbn [defaultProvider set_ticks].
        intros Hl. unfold bind at 1. cbn [defaultProvider set_ticks]. by rewrite Hl.
    + intros _. unfold ret at 1. unfold bind at 1.
      destruct (aboveNineTenths _ _).
      * unfold logger, modify. unfold bind at 1. unfold gets at 1.
        intros Hl. unfold bind at 1. cbn [defaultProvider set_logs]. by rewrite Hl.
      * unfold ret at 1. unfold bind at 1. unfold gets at 1.
        intros Hl. unfold bind at 1. by rewrite Hl.
  - intros _. unfold ret at 1. unfold bind at 1. unfold bind at 1.
    destruct (aboveNineTenths _ _).
    + unfold logger, modify. unfold bind at 1. unfold gets at 1.
      intros Hl. unfold bind at 1. cbn [defaultProvider set_logs]. by rewrite Hl.
    + unfold ret at 1. unfold bind at 1. unfold gets at 1.
      intros Hl. unfold bind at 1. by rewrite Hl.
Qed.

(** ** A service without providers *)

Lemma getProvider_none env w preferred :
  providers w = [] ->
  getProvider preferred env w = (Throw (Error None "No AI provider available"), w).
Proof. intros Hnil. rewrite getProvider_run, Hnil. reflexivity. Qed.

(** X6.  isAvailable() answers false exactly when no adapter is registered,
    and then every entry point that needs an adapter throws
    Error('No AI provider available') and changes nothing: getProvider with
    any preference, complete with any request and options (no cache lookup,
    no breaker created, nothing logged), countTokens, and truncateToFit with
    any messages, the empty list included.  When an adapter is registered,
    getProvider returns one of the registered adapters for every preference,
    and changes nothing. *)
Theorem service_without_provider_throws env w :
  (AIService.isAvailable env w = (Return false, w) <-> providers w = [])
  /\ (providers w = [] ->
      (forall preferred,
          getProvider preferred env w = (Throw (Error None "No AI provider available"), w))
      /\ (forall req opts,
            complete req opts env w = (Throw (Error None "No AI provider available"), w))
      /\ (forall text,
            serviceCountTokens text env w
            = (Throw (Error None "No AI provider available"), w))
      /\ (forall msgs m reserve,
            truncateToFit msgs m reserve env w
            = (Throw (Error None "No AI provider available"), w)))
  /\ (providers w <> [] ->
      forall preferred, exists p,
        getProvider preferred env w = (Return p, w) /\ p ∈ map_values (providers w)).
Proof.
  split_and!.
  - unfold AIService.isAvailable, gets, map_size.
    destruct (providers w); cbn; split; intros H; try done; by injection H.
  - intros Hnil. split_and!.
    + intros preferred. by apply getProvider_none.
    + intros req opts. unfold complete, bind. by rewrite getProvider_none.
    + intros text. unfold serviceCountTokens, bind. by rewrite getProvider_none.
    + intros msgs m reserve. unfold truncateToFit, bind, estimateTokens.
      rewrite definedMessages_Some. unfold serviceCountTokens, bind.
      by rewrite getProvider_none.
  - intros Hne preferred. rewrite getProvider_run.
    destruct (map_get _ _) as [p|] eqn:Hp.
    + exists p. split; [done|]. apply map_get_elem_of in Hp.
      unfold map_values. apply list_elem_of_fmap. by eexists (_, p).
    + destruct (providers w) as [|[k p] rest]; [done|].
      exists p. split; [done|]. cbn. apply list_elem_of_here.
Qed.

(** X7.  onModuleInit on a service as constructed returns and registers the
    available adapters; afterwards getAvailableProviders lists them in the
    order OpenAI, Anthropic, Gemini, isAvailable() is true exactly when one of
    the three is available, and whenever one is, the default provider is a
    registered one, so that getProvider() without a preference returns the
    adapter registered under the default name.  What is logged: one line per
    registered adapter, then, when OpenAI is not available, either the warning
    that names the new default (Gemini if available, else Anthropic) or, with
    no adapter at all, the warning that no provider is configured. *)
Theorem onModuleInit_registers_default env w0 (o a g : BaseAIProvider) :
  let run := onModuleInit o a g env (freshService w0) in
  let w := snd run in
  let registered :=
    filter (fun kv => isAvailable (snd kv) = true) [(OPENAI, o); (ANTHROPIC, a); (GEMINI, g)] in
  fst run = Return tt
  /\ AIService.getAvailableProviders env w = (Return (map fst registered), w)
  /\ AIService.isAvailable env w
     = (Return (isAvailable o || isAvailable a || isAvailable g), w)
  /\ (isAvailable o || isAvailable a || isAvailable g = true ->
      exists p, map_get (defaultProvider w) (providers w) = Some p
                /\ getProvider None env w = (Return p, w))
  /\ logs w
     = logs w0 ++ map (fun kv => LogProviderInitialized (fst kv)) registered
       ++ (if isAvailable o then []
           else if isAvailable g then [WarnDefaultNotAvailable GEMINI]
           else if isAvailable a then [WarnDefaultNotAvailable ANTHROPIC]
           else [WarnNoProviders])
  /\ ticks w = ticks w0 /\ cbHeap w = cbHeap w0 /\ breakers w = breakers w0
  /\ responseCache w = responseCache w0.
Proof.
  intros run w registered. subst run w registered.
  unfold AIService.getAvailableProviders, AIService.isAvailable, gets.
  rewrite getProvider_run.
  unfold onModuleInit, registerProvider, freshService.
  rewrite !filter_cons, filter_nil. cbn [snd].
  destruct (isAvailable o) eqn:Ho, (isAvailable a) eqn:Ha, (isAvailable g) eqn:Hg;
    (split_and!; try reflexivity;
     first [ cbn [orb]; intros Hany;
             first [discriminate Hany|eexists; split; reflexivity]
           | cbv -[app]; rewrite <- ?app_assoc; reflexivity ]).
Qed.

Lemma afterCacheMiss_fields req opts p env w :
  let w0 := afterCacheMiss req opts p env w in
  invocations w0 = invocations w /\ sleeps w0 = sleeps w
  /\ cbHeap w0 = cbHeap w /\ breakers w0 = breakers w
  /\ providers w0 = providers w /\ defaultProvider w0 = defaultProvider w
  /\ responseCache w0 = responseCache w
  /\ ticks w0 = match consulted env req opts w with
                | Some _ => S (ticks w)
                | None => ticks w
                end.
Proof.
  unfold afterCacheMiss. destruct (consulted env req opts w), (aboveNineTenths _ _); cbn; done.
Qed.

Lemma afterCacheMiss_usage req opts p env w :
  usageLines (afterCacheMiss req opts p env w) = usageLines w.
Proof.
  unfold usageLines, afterCacheMiss.
  destruct (consulted env req opts w), (aboveNineTenths _ _); cbn; try done;
    rewrite List.filter_app; cbn; by rewrite app_nil_r.
Qed.

(** From here on that world is known by its fields only. *)
Opaque afterCacheMiss.

Lemma consulted_Some env req opts w entry :
  consulted env req opts w = Some entry ->
  nullish opts opt_useCache true = true /\ truthyFlag (stream req) = false
  /\ responseCache w !! cacheKeyOf env req = Some entry.
Proof.
  unfold consulted, mayUseCache.
  destruct (nullish opts opt_useCache true), (truthyFlag (stream req)); cbn; done.
Qed.

(** X8.  complete with maxRetries at most 0 (0 or negative), on a service
    that has an adapter: the loop body never runs, so the adapter is never
    called and nothing sleeps.  Unless the request is answered from the cache
    (an entry under its key, read less than 5 minutes after its time stamp),
    the call throws Error('AI completion failed after retries'). *)
Theorem complete_with_no_attempts req opts env w :
  providers w <> [] -> nullish opts opt_maxRetries 3 <= 0 ->
  let run := complete req opts env w in
  invocations (snd run) = invocations w /\ sleeps (snd run) = sleeps w
  /\ fst run
     = match consulted env req opts w with
       | Some entry =>
           if clock env (ticks w) - timestamp entry <? CACHE_TTL_MS
           then Return (servedFromCache (response entry))
           else Throw (Error None "AI completion failed after retries")
       | None => Throw (Error None "AI completion failed after retries")
       end.
Proof.
  intros Hne HM run. subst run.
  destruct (getProvider_returns (opts ≫= opt_provider) env w Hne) as [p Hp].
  assert (Hmiss :
    match consulted env req opts w with
    | Some entry => CACHE_TTL_MS <= clock env (ticks w) - timestamp entry
    | None => True
    end ->
    invocations (snd (complete req opts env w)) = invocations w
    /\ sleeps (snd (complete req opts env w)) = sleeps w
    /\ fst (complete req opts env w)
       = Throw (Error None "AI completion failed after retries")).
  { intros Hmiss.
    destruct (complete_miss req opts env w p Hp Hmiss) as (l & w0 & Hl & ->).
    destruct (getOrCreate_returns (breakerNameFor opts w)
                (Some (mkPartial (Some 5) (Some 2) None (Some 60000))) env
                (afterCacheMiss req opts p env w))
      as (l' & w0' & Hl' & (Hi & Hs & _) & _).
    rewrite Hl in Hl'. injection Hl' as <- <-.
    destruct (afterCacheMiss_fields req opts p env w) as (Hi0 & Hs0 & _).
    replace (Z.to_nat (nullish opts opt_maxRetries 3)) with 0%nat by lia.
    rewrite retryLoop_exhausted. cbn. split_and!; [congruence|congruence|done]. }
  destruct (consulted env req opts w) as [entry|] eqn:Hc; [|by apply Hmiss].
  destruct (Z.ltb_spec (clock env (ticks w) - timestamp entry) CACHE_TTL_MS) as [Hfresh|Hstale];
    [|by apply Hmiss].
  apply consulted_Some in Hc as (Huc & Hst & Hentry).
  rewrite (complete_cache_hit req opts env w entry Hne Huc Hst Hentry Hfresh). done.
Qed.

Lemma complete_with_no_attempts_witness :
  let run :=
    complete sampleRequest
      (Some (mkCompleteOptions None None None None None (Some 0))) sampleEnv serviceWorld in
  invocations (snd run) = [] /\ sleeps (snd run) = []
  /\ fst run = Throw (Error None "AI completion failed after retries").
Proof.
  refine (complete_with_no_attempts sampleRequest
            (Some (mkCompleteOptions None None None None None (Some 0)))
            sampleEnv serviceWorld _ _).
  - vm_compute. discriminate.
  - vm_compute. discriminate.
Defined.

(** X9.  complete fails fast while the breaker of its provider is open.  The
    service has an adapter, the request is not looked up in the cache or has
    no entry there, the factory holds the breaker 'ai-<provider>' (the
    preferred provider's name, else the default's), that breaker is OPEN and
    the clock reads less than its nextRetryTime, and maxRetries is at least 1:
    then complete throws CircuitBreakerOpenError at its first attempt, without
    calling the adapter, without sleeping and without retrying, and the
    breaker, the factory and the cache are as before; the clock was read once
    and the failed attempt was logged. *)
Theorem complete_fails_fast_on_open_breaker req opts env w l b :
  providers w <> [] ->
  consulted env req opts w = None ->
  map_get (breakerNameFor opts w) (breakers w) = Some l ->
  cbHeap w !! l = Some b -> state b = OPEN ->
  clock env (ticks w) < nextRetryTime b ->
  1 <= nullish opts opt_maxRetries 3 ->
  let run := complete req opts env w in
  let rejected := CircuitBreakerOpenError (name (options b)) (nextRetryTime b) in
  fst run = Throw rejected
  /\ invocations (snd run) = invocations w /\ sleeps (snd run) = sleeps w
  /\ cbHeap (snd run) = cbHeap w /\ breakers (snd run) = breakers w
  /\ responseCache (snd run) = responseCache w
  /\ ticks (snd run) = S (ticks w)
  /\ last (logs (snd run))
     = Some (WarnAttemptFailed 1 (nullish opts opt_maxRetries 3) rejected).
Proof.
  intros Hne Hc Hn Hb Hs Hclock HM run rejected. subst run.
  destruct (getProvider_returns (opts ≫= opt_provider) env w Hne) as [p Hp].
  destruct (complete_miss req opts env w p Hp) as (l' & w0 & Hl & ->); [by rewrite Hc|].
  destruct (afterCacheMiss_fields req opts p env w)
    as (Hi0 & Hs0 & Hh0 & Hb0 & _ & _ & Hc0 & Ht0).
  rewrite Hc in Ht0.
  rewrite (getOrCreate_known env (afterCacheMiss req opts p env w) _ _ l) in Hl
    by (by rewrite Hb0).
  injection Hl as <- <-.
  set (w0 := afterCacheMiss req opts p env w) in *.
  assert (Hex : execute l (providerComplete p req) env w0
                = (Throw rejected, set_ticks (S (ticks w0)) w0)).
  { apply execute_open_rejected; [by rewrite Hh0|done|by rewrite Ht0]. }
  destruct (Z.to_nat (nullish opts opt_maxRetries 3)) as [|r] eqn:Hr; [lia|].
  rewrite (retryLoop_gives_up _ _ _ _ _ _ _ rejected (set_ticks (S (ticks w0)) w0));
    [|by apply attemptOnce_throws|done].
  cbn. rewrite last_snoc, Ht0.
  split_and!; [reflexivity|exact Hi0|exact Hs0|exact Hh0|exact Hb0|exact Hc0|reflexivity|reflexivity].
Qed.

Lemma complete_fails_fast_on_open_breaker_witness :
  let w := set_breakers [("ai-openai"%string, 0%nat)]
             (set_cbHeap [set_nextRetryTime 5000 openedBreaker] serviceWorld) in
  fst (complete sampleRequest None sampleEnv w)
  = Throw (CircuitBreakerOpenError "ai-openai" 5000)
  /\ invocations (snd (complete sampleRequest None sampleEnv w)) = [].
Proof.
  intros w.
  destruct (complete_fails_fast_on_open_breaker sampleRequest None sampleEnv w 0
              (set_nextRetryTime 5000 openedBreaker))
    as (Hres & Hcalls & _).
  - vm_compute. discriminate.
  - vm_compute. reflexivity.
  - vm_compute. reflexivity.
  - reflexivity.
  - reflexivity.
  - vm_compute. reflexivity.
  - vm_compute. discriminate.
  - split; [exact Hres|exact Hcalls].
Defined.

(** ** The cache *)

Lemma cacheKept_complete_uncached req opts :
  nullish opts opt_useCache true = false -> preserves cacheKept (complete req opts).
Proof.
  intros Huc. unfold complete.
  apply preserves_bind; [apply _|unfold getProvider; kept_auto|intros p].
  cbv zeta. rewrite Huc. cbn.
  apply preserves_bind; [apply _|kept_auto|intros hit].
  destruct hit; [kept_auto|].
  apply preserves_bind; [apply _|kept_auto|intros ?].
  apply preserves_bind; [apply _|kept_auto|intros dflt].
  apply preserves_bind; [apply _|apply cacheKept_getOrCreate|intros l].
  apply cacheKept_retryLoop. unfold attemptOnce. cbn.
  apply preserves_bind; [apply _| |intros r].
  { apply cacheKept_execute. intros env w r w'. unfold providerComplete. by intros [= _ <-]. }
  apply preserves_bind; [apply _|kept_auto|intros ?].
  apply preserves_bind; [apply _| |intros ?; kept_auto].
  destruct (truthyString _); [apply cacheKept_trackUsage|kept_auto].
Qed.

Lemma cache_complete_uncached req opts :
  nullish opts opt_useCache true = false ->
  related eq sameButCache (complete req opts) (complete req opts).
Proof.
  intros Huc. unfold complete.
  apply related_bind; [unfold getProvider; related_auto|intros p].
  cbv zeta. rewrite Huc. cbn.
  apply related_bind; [apply related_ret|intros hit].
  destruct hit as [r|]; [apply related_ret|].
  apply related_bind; [|intros ?].
  { destruct (aboveNineTenths _ _); [apply related_logger; fields_side|apply related_ret]. }
  apply related_bind; [apply related_gets; fields_side|intros dflt].
  apply related_bind; [unfold getOrCreate; related_auto|intros l].
  apply related_retryLoop; try fields_side.
  unfold attemptOnce. cbn.
  apply related_bind; [|intros r].
  { apply related_execute; try fields_side. apply related_providerComplete; fields_side. }
  apply related_bind; [apply related_ret|intros ?].
  apply related_bind; [|intros ?; apply related_ret].
  destruct (truthyString _); [|apply related_ret].
  intros e1 e2 w1 w2 He Hw. rewrite !trackUsage_run. subst e2. cbn. split; [done|].
  fields_side.
Qed.

(** X10.  With the option useCache set to false, complete neither reads nor
    writes the response cache: the cache is afterwards what it was, and run
    from the same world with any other cache the call completes the same way
    and leaves the same world, with that other cache untouched. *)
Theorem complete_without_cache req opts env w :
  nullish opts opt_useCache true = false ->
  responseCache (snd (complete req opts env w)) = responseCache w
  /\ forall c,
       complete req opts env (set_responseCache c w)
       = (fst (complete req opts env w),
          set_responseCache c (snd (complete req opts env w))).
Proof.
  intros Huc. split.
  - apply (cacheKept_complete_uncached req opts Huc env w
             (fst (complete req opts env w))). by destruct (complete req opts env w).
  - intros c.
    destruct (cache_complete_uncached req opts Huc env env (set_responseCache c w) w)
      as [Hres Hsame]; [done|reflexivity|].
    pose proof (cacheKept_complete_uncached req opts Huc env (set_responseCache c w)
                  (fst (complete req opts env (set_responseCache c w)))
                  (snd (complete req opts env (set_responseCache c w)))) as Hkept.
    apply sameButCache_world in Hsame.
    destruct (complete req opts env (set_responseCache c w)) as [res1 wc1].
    cbn in *. rewrite <- Hres. rewrite Hsame at 1. unfold cacheKept in Hkept.
    rewrite (Hkept eq_refl). reflexivity.
Qed.

Lemma complete_without_cache_witness :
  let opts := Some (mkCompleteOptions None None None None (Some false) None) in
  responseCache (snd (complete sampleRequest opts sampleEnv serviceWorld)) = ∅.
Proof.
  intros opts.
  refine (proj1 (complete_without_cache sampleRequest opts sampleEnv serviceWorld _)).
  reflexivity.
Defined.

(** X11.  cleanCache reads the clock once and removes from the response
    cache exactly the entries whose time stamp is more than 5 minutes before
    that reading: an entry is in the cache afterwards if and only if it was
    there before, unchanged, with an age of at most 5 minutes.  Nothing else
    changes and nothing is logged.  So every entry complete would still serve
    at that reading (age below 5 minutes) is kept, and an entry of age exactly
    5 minutes is kept although complete no longer serves it. *)
Theorem cleanCache_removes_only_expired env w :
  let now := clock env (ticks w) in
  let w' := snd (cleanCache env w) in
  fst (cleanCache env w) = Return tt
  /\ (forall key entry,
        responseCache w' !! key = Some entry
        <-> responseCache w !! key = Some entry /\ now - timestamp entry <= CACHE_TTL_MS)
  /\ set_responseCache (responseCache w) w' = set_ticks (S (ticks w)) w
  /\ CACHE_TTL_MS = 300000.
Proof.
  intros now w'. subst now w'. unfold cleanCache, bind, Date_now, modify. cbn.
  split_and!; [done| |done|done].
  intros key entry. rewrite map_lookup_filter_Some. cbn. split; intros [? ?]; split; try done; lia.
Qed.

(** A response the retry loop returns is the one its last attempt returned,
    and that attempt ran after every adapter call made before the loop. *)
Lemma retryLoop_returns_later l p req opts uc M env r :
  forall a last w x w',
  retryLoop r a M last (attemptOnce l p req opts uc) env w = (Return x, w') ->
  exists wl, attemptOnce l p req opts uc env wl = (Return x, w')
             /\ (List.length (invocations w) <= List.length (invocations wl))%nat.
Proof.
  induction r as [|r IH]; intros a last w x w' Hrun; [discriminate Hrun|].
  destruct (attemptOnce l p req opts uc env w) as [[x0|e] w1] eqn:Hb.
  - rewrite (retryLoop_success _ _ _ _ _ _ _ _ _ Hb) in Hrun. injection Hrun as <- <-. eauto.
  - assert (Hlen : (List.length (invocations w) <= List.length (invocations w1))%nat).
    { destruct (attemptOnce_cases _ _ _ _ _ _ _ _ _ Hb) as (_ & _ & _ & [[-> _]|[-> _]]);
        [done|rewrite length_app; lia]. }
    destruct (givesUpOn e) eqn:Hg.
    + by rewrite (retryLoop_gives_up _ _ _ _ _ _ _ _ _ Hb Hg) in Hrun.
    + destruct (Z.lt_ge_cases a M).
      * rewrite (retryLoop_backoff _ _ _ _ _ _ _ _ _ Hb Hg) in Hrun by done.
        destruct (IH _ _ _ _ _ Hrun) as (wl & Hwl & Hle). exists wl. split; [done|].
        cbn in Hle. lia.
      * rewrite (retryLoop_last _ _ _ _ _ _ _ _ _ Hb Hg) in Hrun by done.
        destruct (IH _ _ _ _ _ Hrun) as (wl & Hwl & Hle). exists wl. split; [done|].
        cbn in Hle. lia.
Qed.

(** X12.  An entry that is 5 minutes old or older is not served.  When
    complete consults the cache, finds under the request's key an entry whose
    time stamp is at least 5 minutes before the clock reading, and returns a
    response, then that response is what the adapter answered to a call made
    during this run, the last call of the run, and the entry under the key is
    now this response stamped with the last clock reading of the run. *)
Theorem stale_entry_is_refreshed req opts env w entry r w' :
  consulted env req opts w = Some entry ->
  CACHE_TTL_MS <= clock env (ticks w) - timestamp entry ->
  complete req opts env w = (Return r, w') ->
  (exists j, (List.length (invocations w) <= j)%nat
             /\ List.length (invocations w') = S j
             /\ adapterReply env j = Return r)
  /\ responseCache w' !! cacheKeyOf env req = Some (mkEntry r (clock env (pred (ticks w')))).
Proof.
  intros Hc Hstale Hrun.
  assert (Hne : providers w <> []).
  { intros Hnil. revert Hrun. unfold complete, bind. by rewrite getProvider_none. }
  destruct (getProvider_returns (opts ≫= opt_provider) env w Hne) as [p Hp].
  destruct (complete_miss req opts env w p Hp) as (l & w0 & Hl & Heq); [by rewrite Hc|].
  rewrite Heq in Hrun.
  destruct (getOrCreate_returns (breakerNameFor opts w)
              (Some (mkPartial (Some 5) (Some 2) None (Some 60000))) env
              (afterCacheMiss req opts p env w))
    as (l' & w0' & Hl' & (Hi & _) & _).
  rewrite Hl in Hl'. injection Hl' as <- <-.
  destruct (afterCacheMiss_fields req opts p env w) as (Hi0 & _).
  apply consulted_Some in Hc as (Huc & Hst & _). rewrite Huc in Hrun.
  destruct (retryLoop_returns_later _ _ _ _ _ _ _ _ _ _ _ _ _ Hrun) as (wl & Hlast & Hle).
  split.
  - destruct (attemptOnce_cases _ _ _ _ _ _ _ _ _ Hlast)
      as (_ & _ & _ & [[_ [e [=]]]|[Hcalls Hreply]]).
    exists (List.length (invocations wl)). split_and!.
    + rewrite <- Hi0, <- Hi. exact Hle.
    + rewrite Hcalls, length_app. cbn. lia.
    + done.
  - by apply (attemptOnce_stores l p req opts env wl).
Qed.

Lemma stale_entry_is_refreshed_witness :
  responseCache (snd (complete sampleRequest None lateEnv staleWorld))
    !! cacheKeyOf lateEnv sampleRequest
  = Some (mkEntry sampleResponse
            (clock lateEnv (pred (ticks (snd (complete sampleRequest None lateEnv staleWorld)))))).
Proof.
  refine (proj2 (stale_entry_is_refreshed sampleRequest None lateEnv staleWorld staleEntry
                   sampleResponse (snd (complete sampleRequest None lateEnv staleWorld))
                   _ _ _)).
  - vm_compute. reflexivity.
  - vm_compute. discriminate.
  - vm_compute. reflexivity.
Defined.

(** ** The tables of [ai.types.ts] *)

(** X13.  getContextLimit gives a model of the table its limit, which lies
    above 16000 and is at most 2000000, and every other model 16000, unless
    the model bears one of the twelve names of Object.prototype
    ('constructor', 'toString', ...): then what it returns is not a number
    but a function or an object, the budget of truncateToFit is NaN, no list
    is within it, and truncateToFit reduces every conversation to its system
    message and its last message.  A limit that is a number lies between
    16000 and 2000000.  The pricing table and the table of context limits
    list the same models, none under a name of Object.prototype. *)
Theorem context_limit_bounds m :
  (forall n, MODEL_CONTEXT_LIMITS !! m = Some n ->
     getContextLimit m = Own n /\ 16000 < n <= 2000000 /\ m ∉ Object_prototype)
  /\ (MODEL_CONTEXT_LIMITS !! m = None -> m ∉ Object_prototype ->
      getContextLimit m = Own 16000)
  /\ (forall n, getContextLimit m = Own n -> 16000 <= n <= 2000000)
  /\ (m ∈ Object_prototype ->
      getContextLimit m = Inherited
      /\ (forall reserve tokens, within tokens (budgetOf m reserve) -> False)
      /\ (forall p env w sys middle final reserve,
            getProvider None env w = (Return p, w) ->
            truncateToFit (sys :: middle ++ [final]) m reserve env w
            = (Return [Some sys; Some final], w)))
  /\ (is_Some (MODEL_PRICING !! m) <-> is_Some (MODEL_CONTEXT_LIMITS !! m)).
Proof.
  split; [|split; [|split; [|split]]].
  - intros n Hm. rewrite (getContextLimit_own _ _ Hm).
    pose proof (context_limit_entries _ _ Hm). split_and!; [done|lia|lia|].
    destruct (proj2 (tables_list_same_models m)) as [r Hr]; [by eexists|].
    by eapply pricing_names_are_own.
  - by apply getContextLimit_default.
  - destruct (MODEL_CONTEXT_LIMITS !! m) as [n0|] eqn:Hm.
    + rewrite (getContextLimit_own _ _ Hm). intros n [= <-].
      apply context_limit_entries in Hm. lia.
    + destruct (decide (m ∈ Object_prototype)) as [Hin|Hout].
      * by rewrite getContextLimit_inherited.
      * rewrite getContextLimit_default by done. intros n [= <-]. lia.
  - intros Hin. pose proof (getContextLimit_inherited m Hin) as Hlimit.
    assert (Hnan : forall reserve, budgetOf m reserve = None).
    { intros reserve. unfold budgetOf. by rewrite Hlimit. }
    split_and!; [done| |].
    + intros reserve tokens. unfold within. by rewrite Hnan.
    + intros p env w sys middle final reserve Hp.
      destruct (truncateToFit_keeps_newest_suffix p env w sys middle final m reserve Hp)
        as (result & Hrun & _ & Hcut).
      rewrite Hnan in Hcut.
      destruct (Hcut eq_refl) as (dropped & kept & _ & -> & Hkept & _).
      rewrite Hrun. destruct kept as [|c kept _] using rev_ind; [done|].
      by specialize (Hkept kept c [] eq_refl).
  - apply tables_list_same_models.
Qed.

Lemma pricing_entries m r :
  MODEL_PRICING !! m = Some r ->
  r ∈ [ mkPricing 2.50 10.00; mkPricing 0.15 0.60; mkPricing 10.00 30.00;
        mkPricing 0.50 1.50; mkPricing 3.00 15.00; mkPricing 0.80 4.00;
        mkPricing 15.00 75.00; mkPricing 1.25 5.00; mkPricing 0.075 0.30;
        mkPricing 0.0375 0.15; mkPricing 0.00 0.00 ].
Proof.
  unfold MODEL_PRICING. intros H%elem_of_list_to_map_2.
  repeat (apply elem_of_cons in H as [[= -> ->]|H];
          [repeat first [apply list_elem_of_here|apply list_elem_of_further]|]).
  by apply elem_of_nil in H.
Qed.

(** X14.  No tokens, no cost, for every model name but the twelve of
    Object.prototype: calculateCost(m, 0, 0) is 0 exactly when m is none of
    them, whether m is in the pricing table or not, and NaN exactly when m is
    one of them.  0 is the cost the OpenAI and Gemini adapters report for a
    response that carries no usage data. *)
Theorem calculateCost_of_no_tokens m :
  (calculateCost m 0 0 = 0%float <-> m ∉ Object_prototype)
  /\ (calculateCost m 0 0 = nan <-> m ∈ Object_prototype).
Proof.
  assert (Hzero : m ∉ Object_prototype -> calculateCost m 0 0 = 0%float).
  { intros Hout. destruct (MODEL_PRICING !! m) as [r|] eqn:Hm.
    - rewrite (calculateCost_own _ _ _ _ Hm). apply pricing_entries in Hm.
      repeat (apply elem_of_cons in Hm as [->|Hm]; [vm_compute; reflexivity|]).
      by apply elem_of_nil in Hm.
    - rewrite calculateCost_default by done. vm_compute. reflexivity. }
  assert (Hdiff : nan <> 0%float).
  { intros H. apply (f_equal is_nan) in H. vm_compute in H. discriminate H. }
  destruct (decide (m ∈ Object_prototype)) as [Hin|Hout].
  - pose proof (calculateCost_inherited m 0 0 Hin) as Hnan. split; split.
    + intros H. rewrite Hnan in H. by destruct Hdiff.
    + intros Hout. by destruct Hout.
    + intros _. exact Hin.
    + intros _. exact Hnan.
  - specialize (Hzero Hout). split; split.
    + intros _. exact Hout.
    + intros _. exact Hzero.
    + intros H. rewrite Hzero in H. symmetry in H. by destruct Hdiff.
    + intros Hin. by destruct Hout.
Qed.

(** ** The adapters: what they send *)

Lemma last_snoc_or {A} (l : list A) (x : A) (d : option A) :
  match last (l ++ [x]) with Some y => Some y | None => d end = Some x.
Proof. by rewrite last_snoc. Qed.

Lemma convertLoop_spec msgs :
  forall sys contents,
  GeminiProvider.convertLoop msgs sys contents
  = (match last (systemContents msgs) with Some s => Some s | None => sys end,
     contents ++ map toContent (conversation msgs)).
Proof.
  unfold systemContents, conversation.
  induction msgs as [|[r c] msgs IH]; intros sys contents; cbn.
  - by rewrite app_nil_r.
  - destruct r; cbn; rewrite IH; unfold isSystem; cbn.
    + f_equal.
      match goal with |- context [last (c :: ?l)] => generalize l end.
      intros l. rewrite last_cons. by destruct (last l).
    + by rewrite <- app_assoc.
    + by rewrite <- app_assoc.
Qed.

(** X15.  What the Gemini adapter makes of a conversation.  The system
    instruction is the content of the last system message (none when there is
    no system message); the contents are the other messages in their order,
    an assistant message with the role 'model' and any other with the role
    'user', each with its content as its one text part; when there is no such
    message the contents are a single user content with an empty text, so
    that they are never empty.  The chat session gets all contents but the
    last as its history, and the text sent is the content of the last message
    that is not a system message, whatever its role; an empty system
    instruction is passed as none. *)
Theorem gemini_convertMessages msgs :
  fst (GeminiProvider.convertMessages msgs) = last (systemContents msgs)
  /\ snd (GeminiProvider.convertMessages msgs)
     = match conversation msgs with
       | [] => [mkContent GeminiUser [EmptyString]]
       | c => map toContent c
       end
  /\ snd (GeminiProvider.convertMessages msgs) <> []
  /\ GeminiProvider.history (GeminiProvider.chatInput msgs)
     = map toContent (removelast (conversation msgs))
  /\ GeminiProvider.sent (GeminiProvider.chatInput msgs)
     = match last (conversation msgs) with
       | Some m => content m
       | None => EmptyString
       end
  /\ GeminiProvider.systemInstruction (GeminiProvider.chatInput msgs)
     = truthyString (last (systemContents msgs)).
Proof.
  unfold GeminiProvider.chatInput, GeminiProvider.convertMessages.
  rewrite convertLoop_spec. cbn [app].
  destruct (last (systemContents msgs)) as [s|] eqn:Hs;
    destruct (conversation msgs) as [|m c] eqn:Hc; cbn [map List.length Nat.eqb fst snd app];
    (split_and!; try done).
  all: cbn [GeminiProvider.history GeminiProvider.sent GeminiProvider.systemInstruction].
  all: try (rewrite <- (map_cons toContent), <- fmap_last; by destruct (last (m :: c))).
  all: change (toContent m :: map toContent c) with (map toContent (m :: c)).
  all: generalize (m :: c); intros l; induction l as [|x [|y l] IH]; cbn in *; congruence.
Qed.

(** X16.  What the Anthropic adapter makes of a conversation.  The system
    text is the content of the first system message (none when there is no
    system message); the messages are all messages that are not system
    messages, in their order, with their role and content, none of them with
    the role system.  So every system message after the first is dropped:
    the number of messages sent is the number of messages minus the number of
    system messages. *)
Theorem anthropic_payload msgs :
  fst (AnthropicProvider.payload msgs) = head (systemContents msgs)
  /\ snd (AnthropicProvider.payload msgs)
     = map (fun m => (role m, content m)) (conversation msgs)
  /\ Forall (fun rc => fst rc <> RoleSystem) (snd (AnthropicProvider.payload msgs))
  /\ (List.length (snd (AnthropicProvider.payload msgs))
      + List.length (systemContents msgs) = List.length msgs)%nat.
Proof.
  unfold AnthropicProvider.payload, AnthropicProvider.systemMessage,
    AnthropicProvider.userMessages, systemContents, conversation. cbn [fst snd].
  induction msgs as [|[r c] msgs (IH1 & IH2 & IH3 & IH4)]; [by split_and!; try constructor|].
  destruct r; cbn in *; split_and!; try done; try (by f_equal); try (by constructor); lia.
Qed.

(** ** Token estimates by length *)

Lemma Math_ceil_quarter_eq text :
  Math_ceil_quarter text = (Z.of_nat (String.length text) + 3) / 4.
Proof.
  unfold Math_ceil_quarter, Qceiling, Qfloor. cbn.
  rewrite Z.mul_1_r. Z.div_mod_to_equations. lia.
Qed.

Lemma string_length_app (s t : string) :
  String.length (s ++ t) = (String.length s + String.length t)%nat.
Proof.
  induction s as [|c s IH]; [reflexivity|].
  change (S (String.length (s ++ t)) = S (String.length s + String.length t)).
  by rewrite IH.
Qed.

(** the number of characters of the contents of a conversation *)
Lemma joinContents_length ms :
  ms <> [] ->
  (String.length (joinContents ms) + 1
   = sum_list_with (fun m => String.length (content m)) ms + List.length ms)%nat.
Proof.
  unfold joinContents. induction ms as [|m ms IH]; [done|]. intros _.
  destruct ms as [|m' ms].
  - cbn. lia.
  - change (String.concat ?sep (map content (m :: m' :: ms)))
      with (content m ++ sep ++ String.concat sep (map content (m' :: ms)))%string.
    rewrite !string_length_app. cbn [sum_list_with List.length] in *.
    specialize (IH ltac:(done)). cbn [String.length]. lia.
Qed.

Lemma estimateWith_Permutation p ms1 ms2 :
  countsByLength p -> ms1 ≡ₚ ms2 -> estimateWith p ms1 = estimateWith p ms2.
Proof.
  intros Hp Hperm. unfold estimateWith. apply Hp.
  destruct ms1 as [|m1 ms1].
  - apply Permutation_nil_l in Hperm. by subst.
  - assert (Hne2 : ms2 <> []).
    { intros ->. by apply Permutation_nil_r in Hperm. }
    pose proof (joinContents_length (m1 :: ms1) ltac:(done)) as H1.
    pose proof (joinContents_length ms2 Hne2) as H2.
    assert (Hsum : sum_list_with (fun m => String.length (content m)) (m1 :: ms1)
                   = sum_list_with (fun m => String.length (content m)) ms2).
    { by rewrite Hperm. }
    apply Permutation_length in Hperm. lia.
Qed.

(** X17.  The estimate of the Gemini and of the Anthropic adapter,
    Math.ceil(text.length / 4): it is the least number n with 4 * n at least
    the length of the text, 0 for the empty text only, it is (length + 3)
    divided by 4 rounding down, it depends on the length of the text alone and
    it grows with it. *)
Theorem length_estimate_properties text :
  GeminiProvider.countTokens text = AnthropicProvider.countTokens text
  /\ GeminiProvider.countTokens text = (Z.of_nat (String.length text) + 3) / 4
  /\ 4 * (GeminiProvider.countTokens text - 1) < Z.of_nat (String.length text)
     <= 4 * GeminiProvider.countTokens text
  /\ (GeminiProvider.countTokens text = 0 <-> text = EmptyString)
  /\ (forall other, (String.length text <= String.length other)%nat ->
        GeminiProvider.countTokens text <= GeminiProvider.countTokens other)
  /\ (forall available, countsByLength (GeminiProvider.adapter available))
  /\ (forall available, countsByLength (AnthropicProvider.adapter available)).
Proof.
  unfold GeminiProvider.countTokens, AnthropicProvider.countTokens, countsByLength.
  cbn [countTokens GeminiProvider.adapter AnthropicProvider.adapter].
  unfold GeminiProvider.countTokens, AnthropicProvider.countTokens.
  split; [done|]. split; [apply Math_ceil_quarter_eq|]. split; [|split; [|split; [|split]]].
  - rewrite Math_ceil_quarter_eq. Z.div_mod_to_equations. lia.
  - rewrite Math_ceil_quarter_eq. destruct text as [|c s]; [done|]. split; [|done].
    cbn [String.length]. intros H. exfalso. revert H. Z.div_mod_to_equations. lia.
  - intros other Hle. rewrite !Math_ceil_quarter_eq. Z.div_mod_to_equations. lia.
  - intros _ s t Hst. by rewrite !Math_ceil_quarter_eq, Hst.
  - intros _ s t Hst. by rewrite !Math_ceil_quarter_eq, Hst.
Qed.

(** ** The context builder *)

Lemma sliceLast_length {A} n (l : list A) :
  List.length (sliceLast n l) = Nat.min n (List.length l).
Proof. unfold sliceLast. rewrite length_drop. lia. Qed.

Lemma buildMessages_parts systemPrompt userMessage context conversationHistory :
  exists sys middle,
    buildMessages systemPrompt userMessage context conversationHistory
    = sys :: middle ++ [mkMsg RoleUser userMessage]
    /\ (List.length middle <= 10)%nat.
Proof.
  unfold buildMessages.
  destruct conversationHistory as [h|]; [destruct (0 <? List.length h)%nat|].
  - eexists _, (sliceLast 10 h). split; [reflexivity|]. rewrite sliceLast_length. lia.
  - eexists _, []. split; [reflexivity|]. cbn. lia.
  - eexists _, []. split; [reflexivity|]. cbn. lia.
Qed.

(** X18.  buildMessages returns the system message, then the last 10
    messages of the conversation history in their order (all of them when
    there are at most 10, none when the history is missing or empty), then
    the user message, so between 2 and 12 messages.  The system message holds
    the system prompt, followed by the project context block when a context is
    given that is not the empty string. *)
Theorem buildMessages_shape systemPrompt userMessage context conversationHistory :
  let h := default [] conversationHistory in
  let fullSystemPrompt :=
    match context with
    | Some (String c rest) =>
        (systemPrompt ++ newline ++ newline ++ "---" ++ newline ++ newline
           ++ "Project Context:" ++ newline ++ String c rest)%string
    | _ => systemPrompt
    end in
  buildMessages systemPrompt userMessage context conversationHistory
  = mkMsg RoleSystem fullSystemPrompt
      :: drop (List.length h - 10) h ++ [mkMsg RoleUser userMessage]
  /\ List.length (buildMessages systemPrompt userMessage context conversationHistory)
     = (2 + Nat.min 10 (List.length h))%nat
  /\ drop (List.length h - 10) h `suffix_of` h.
Proof.
  intros h fullSystemPrompt.
  assert (Heq : buildMessages systemPrompt userMessage context conversationHistory
                = mkMsg RoleSystem fullSystemPrompt
                    :: drop (List.length h - 10) h ++ [mkMsg RoleUser userMessage]).
  { subst h fullSystemPrompt. unfold buildMessages, sliceLast.
    destruct context as [[|c rest]|], conversationHistory as [[|m ms]|]; reflexivity. }
  split; [exact Heq|]. split.
  - rewrite Heq. cbn [List.length]. rewrite length_app, length_drop. cbn [List.length].
    lia.
  - apply suffix_drop.
Qed.

Lemma last_cons_snoc {A} (x : A) l y : last (x :: l ++ [y]) = Some y.
Proof. change (x :: l ++ [y]) with ((x :: l) ++ [y]). apply last_snoc. Qed.

(** X19.  truncateToFit reaches the budget when the token counter goes by
    the length of the text, as the Gemini and Anthropic adapters' does.  For
    a conversation of a system message, interior messages and a last message,
    whose system and last message together fit the budget (context limit of
    the model minus the reserve): truncateToFit returns a list of messages
    that starts with the system message, ends with the last message, and
    whose estimate is within the budget. *)
Theorem truncateToFit_fits_budget p env w sys middle final m reserve :
  getProvider None env w = (Return p, w) ->
  countsByLength p ->
  within (estimateWith p [sys; final]) (budgetOf m reserve) ->
  exists result,
    truncateToFit (sys :: middle ++ [final]) m reserve env w
    = (Return (map Some result), w)
    /\ within (estimateWith p result) (budgetOf m reserve)
    /\ head result = Some sys /\ last result = Some final.
Proof.
  intros Hp Hlen Hends.
  destruct (truncateToFit_keeps_newest_suffix p env w sys middle final m reserve Hp)
    as (result & Hrun & Hfits & Hover).
  exists result. split; [exact Hrun|].
  destruct (atMost (estimateWith p (sys :: middle ++ [final])) (budgetOf m reserve))
    eqn:Hwhole.
  - rewrite (Hfits eq_refl). split; [done|]. split; [done|apply last_cons_snoc].
  - destruct (Hover eq_refl) as (dropped & kept & _ & -> & Hkept & _).
    split; [|split; [done|apply last_cons_snoc]].
    destruct kept as [|c k2]; [exact Hends|].
    rewrite (estimateWith_Permutation p _ (sys :: k2 ++ [c; final]) Hlen).
    + by apply (Hkept [] c k2).
    + constructor. cbn. by rewrite (Permutation_middle k2 [final] c).
Qed.

Lemma truncateToFit_fits_budget_witness :
  truncateToFit
    [mkMsg RoleSystem "be brief"; mkMsg RoleUser "hello"; mkMsg RoleAssistant "hi";
     mkMsg RoleUser "what is next?"] "gpt-3.5-turbo" 16378 sampleEnv geminiService
  = (Return [Some (mkMsg RoleSystem "be brief"); Some (mkMsg RoleAssistant "hi");
             Some (mkMsg RoleUser "what is next?")], geminiService)
  /\ exists result,
       truncateToFit
         [mkMsg RoleSystem "be brief"; mkMsg RoleUser "hello"; mkMsg RoleAssistant "hi";
          mkMsg RoleUser "what is next?"] "gpt-3.5-turbo" 16378 sampleEnv geminiService
       = (Return (map Some result), geminiService)
       /\ within (estimateWith (GeminiProvider.adapter true) result)
            (budgetOf "gpt-3.5-turbo" 16378).
Proof.
  split; [vm_compute; reflexivity|].
  destruct (truncateToFit_fits_budget (GeminiProvider.adapter true) sampleEnv geminiService
              (mkMsg RoleSystem "be brief")
              [mkMsg RoleUser "hello"; mkMsg RoleAssistant "hi"]
              (mkMsg RoleUser "what is next?") "gpt-3.5-turbo" 16378)
    as (result & Hrun & Hfits & _).
  - vm_compute. reflexivity.
  - intros s t Hst. cbn. unfold GeminiProvider.countTokens, Math_ceil_quarter.
    rewrite Hst. reflexivity.
  - vm_compute. reflexivity.
  - exists result. split; [exact Hrun|exact Hfits].
Defined.

(** X20.  Messages built by buildMessages always come through truncateToFit
    whole.  On a service with an adapter, whatever the prompts, the context,
    the history, the model and the reserve: truncateToFit returns a list in
    which every element is a message (none is undefined), that starts with
    the system message built, ends with the user message, holds between 2 and
    12 messages, all of them messages of the list built and in the same
    order; and the service is left as it was. *)
Theorem built_messages_survive_truncation p env w systemPrompt userMessage context
    conversationHistory m reserve :
  getProvider None env w = (Return p, w) ->
  let msgs := buildMessages systemPrompt userMessage context conversationHistory in
  exists result,
    truncateToFit msgs m reserve env w = (Return (map Some result), w)
    /\ head result = head msgs
    /\ last result = Some (mkMsg RoleUser userMessage)
    /\ result `sublist_of` msgs
    /\ (2 <= List.length result <= 12)%nat.
Proof.
  intros Hp msgs.
  destruct (buildMessages_parts systemPrompt userMessage context conversationHistory)
    as (sys & middle & Hmsgs & Hmid).
  subst msgs. rewrite Hmsgs.
  destruct (truncateToFit_keeps_newest_suffix p env w sys middle
              (mkMsg RoleUser userMessage) m reserve Hp)
    as (result & Hrun & Hfits & Hover).
  exists result. split; [exact Hrun|].
  destruct (atMost (estimateWith p (sys :: middle ++ [mkMsg RoleUser userMessage]))
              (budgetOf m reserve)) eqn:Hwhole.
  - rewrite (Hfits eq_refl). split_and!; [done|apply last_cons_snoc|done| |].
    + cbn. rewrite length_app. cbn. lia.
    + cbn. rewrite length_app. cbn. lia.
  - destruct (Hover eq_refl) as (dropped & kept & -> & -> & _).
    rewrite length_app in Hmid.
    split_and!; [done|apply last_cons_snoc| | |].
    + apply sublist_skip. rewrite <- app_assoc. apply sublist_inserts_l. reflexivity.
    + cbn. rewrite length_app. cbn. lia.
    + cbn. rewrite length_app. cbn. lia.
Qed.

Lemma built_messages_survive_truncation_witness :
  exists result,
    truncateToFit (buildMessages "be brief" "hello" None None) "gpt-4o" 4096
      sampleEnv geminiService
    = (Return (map Some result), geminiService)
    /\ last result = Some (mkMsg RoleUser "hello").
Proof.
  destruct (built_messages_survive_truncation (GeminiProvider.adapter true) sampleEnv
              geminiService "be brief" "hello" None None "gpt-4o" 4096)
    as (result & Hrun & _ & Hlast & _).
  - vm_compute. reflexivity.
  - exists result. split; [exact Hrun|exact Hlast].
Defined.

(** ** [simpleComplete] *)

(** A call of [complete] that may use the cache and got its response from
    the adapter is answered from the cache when repeated within the TTL. *)
Lemma complete_repeat_hit req opts env w r1 w1 :
  mayUseCache req opts = true ->
  complete req opts env w = (Return r1, w1) ->
  invocations w1 <> invocations w ->
  clock env (ticks w1) - clock env (pred (ticks w1)) < CACHE_TTL_MS ->
  complete req opts env w1
  = (Return (servedFromCache r1),
     set_logs (logs w1 ++ [DebugCachedResponse]) (set_ticks (S (ticks w1)) w1)).
Proof.
  unfold mayUseCache. intros [Huc Hst%negb_true_iff]%andb_prop Hrun Hcalled Hfresh.
  destruct (complete_run _ _ _ _ _ _ Hrun) as [Hq|(l & p & w0 & Hq & Hne & Hloop)].
  { by destruct Hq as (Hi & _). }
  rewrite Huc in Hloop.
  destruct (retryLoop_returns _ _ _ _ _ _ _ _ _ Hloop) as [wl Hlast].
  pose proof (attemptOnce_stores _ _ _ _ _ _ _ _ Hst Hlast) as Hentry.
  destruct (retryLoop_attempts _ _ _ _ _ _ _ _ _ _ _ _ _ Hloop)
    as (n & s & Hn & Hi & _ & _ & Hp & _ & _ & _).
  destruct Hq as (Hi0 & _ & Hp0 & _).
  assert (Hne1 : providers w1 <> []) by congruence.
  exact (complete_cache_hit req opts env w1 _ Hne1 Huc Hst Hentry Hfresh).
Qed.

(** X21.  simpleComplete sends the system prompt, then every message of the
    conversation history in its order (all of them, however many), then the
    user prompt, with no model, with the stream flag unset and with the cache
    allowed.  It completes as complete does on that request: it throws what
    complete throws, and returns the content, the model and the three token
    counts of the response.  So when a call returned an answer obtained from
    the adapter and the same call is made again, the clock reading less than
    5 minutes later than the last reading of the first call, the second call
    returns the same answer from the cache: no adapter call, no sleep, no
    usage line, one clock reading and one debug line. *)
Theorem simpleComplete_repeat_is_cached params env w :
  simpleMessages params
  = mkMsg RoleSystem (systemPrompt params)
      :: default [] (conversationHistory params) ++ [mkMsg RoleUser (userPrompt params)]
  /\ (forall e w1,
        complete (simpleRequest params) (simpleOptions params) env w = (Throw e, w1) ->
        simpleComplete params env w = (Throw e, w1))
  /\ (forall r w1,
        complete (simpleRequest params) (simpleOptions params) env w = (Return r, w1) ->
        simpleComplete params env w
        = (Return (mkSimpleResponse (responseContent r) (responseModel r)
                     (mkSimpleUsage (promptTokens (usage r)) (completionTokens (usage r))
                                    (totalTokens (usage r)))), w1))
  /\ (forall answer w1,
        simpleComplete params env w = (Return answer, w1) ->
        invocations w1 <> invocations w ->
        clock env (ticks w1) - clock env (pred (ticks w1)) < CACHE_TTL_MS ->
        simpleComplete params env w1
        = (Return answer,
           set_logs (logs w1 ++ [DebugCachedResponse]) (set_ticks (S (ticks w1)) w1))).
Proof.
  split_and!.
  - unfold simpleMessages. destruct params as [sp up [h|] ? ? ? ? ?]; cbn; [|done].
    f_equal. f_equal. induction h as [|[r c] h IH]; cbn; [done|]. by rewrite IH.
  - intros e w1 Hrun. unfold simpleComplete, bind. by rewrite Hrun.
  - intros r w1 Hrun. unfold simpleComplete, bind. by rewrite Hrun.
  - intros answer w1 Hrun Hcalled Hfresh. unfold simpleComplete in *.
    apply bind_inv in Hrun as [(r & w1' & Hc & Hret)|(e & _ & [=])].
    injection Hret as <- <-.
    assert (Hmay : mayUseCache (simpleRequest params) (simpleOptions params) = true)
      by reflexivity.
    unfold bind. by rewrite (complete_repeat_hit _ _ _ _ _ _ Hmay Hc Hcalled Hfresh).
Qed.

(** ** The option [timeout] *)

Section Retimed.
Context (t : Z) (this : nat).

Lemma sameRetimed_ret {A} (a : A) : sameRetimed t this (ret a) (ret a).
Proof. done. Qed.

Lemma sameRetimed_throw {A} e : sameRetimed t this (throw (A:=A) e) (throw e).
Proof. done. Qed.

Lemma sameRetimed_bind {A B} (m' m : Js A) (k' k : A -> Js B) :
  sameRetimed t this m' m -> (forall a, sameRetimed t this (k' a) (k a)) ->
  sameRetimed t this (bind m' k') (bind m k).
Proof.
  intros Hm Hk env w. unfold bind. rewrite Hm.
  destruct (m env w) as [[a|e] w1]; cbn; [apply Hk|done].
Qed.

Lemma sameRetimed_tryCatch {A} (m' m : Js A) (h' h : JsError -> Js A) :
  sameRetimed t this m' m -> (forall e, sameRetimed t this (h' e) (h e)) ->
  sameRetimed t this (tryCatch m' h') (tryCatch m h).
Proof.
  intros Hm Hh env w. unfold tryCatch. rewrite Hm.
  destruct (m env w) as [[a|e] w1]; cbn; [done|apply Hh].
Qed.

Lemma sameRetimed_Date_now : sameRetimed t this Date_now Date_now.
Proof. done. Qed.

Lemma sameRetimed_logger x : sameRetimed t this (logger x) (logger x).
Proof. done. Qed.

Lemma sameRetimed_updateThis f :
  (forall b, f (withTimeout t b) = withTimeout t (f b)) ->
  sameRetimed t this (updateThis this f) (updateThis this f).
Proof.
  intros Hf env w. unfold updateThis, modify, retimed. cbn.
  rewrite !list_alter_alter_eq.
  rewrite (list_alter_ext (f ∘ withTimeout t) (withTimeout t ∘ f) (cbHeap w) (cbHeap w) this);
    [done| |done].
  intros b _. cbn. apply Hf.
Qed.

(** a field read of [this] gives the retimed breaker; what follows must not
    tell the two apart *)
Lemma sameRetimed_readThis {B} (k' k : CircuitBreaker -> Js B) :
  (forall b, sameRetimed t this (k' (withTimeout t b)) (k b)) ->
  sameRetimed t this (bind (readThis this) k') (bind (readThis this) k).
Proof.
  intros Hk env w. unfold bind, readThis, retimed. cbn.
  rewrite list_lookup_alter_eq. destruct (cbHeap w !! this) as [b|] eqn:Hb; cbn; [|done].
  apply Hk.
Qed.

Ltac retimed_auto :=
  repeat first
    [ apply sameRetimed_ret
    | apply sameRetimed_throw
    | apply sameRetimed_Date_now
    | apply sameRetimed_logger
    | apply sameRetimed_updateThis; intros [[? ? ? ? ?] ? ? ? ? ?]; reflexivity
    | apply sameRetimed_readThis; intros [[? ? ? ? ?] ? ? ? ? ?]; cbn
    | apply sameRetimed_bind; [|intros ?]
    | apply sameRetimed_tryCatch; [|intros ?]
    | match goal with
      | |- sameRetimed _ _ (match ?x with _ => _ end) (match ?x with _ => _ end) => destruct x
      | |- sameRetimed _ _ (if ?c then _ else _) (if ?c then _ else _) => destruct c
      end ].

Lemma sameRetimed_transitionTo s : sameRetimed t this (transitionTo this s) (transitionTo this s).
Proof. unfold transitionTo. retimed_auto. Qed.

Lemma sameRetimed_onSuccess : sameRetimed t this (onSuccess this) (onSuccess this).
Proof. unfold onSuccess. retimed_auto; apply sameRetimed_transitionTo. Qed.

Lemma sameRetimed_onFailure : sameRetimed t this (onFailure this) (onFailure this).
Proof. unfold onFailure. retimed_auto; apply sameRetimed_transitionTo. Qed.

Lemma sameRetimed_execute {T} (operation' operation : Js T) :
  sameRetimed t this operation' operation ->
  sameRetimed t this (execute this operation') (execute this operation).
Proof.
  intros Hop. unfold execute.
  apply sameRetimed_readThis. intros [[? ? ? ? ?] st ? ? ? ?]. cbn.
  apply sameRetimed_bind.
  - destruct st; retimed_auto; apply sameRetimed_transitionTo.
  - intros _. apply sameRetimed_tryCatch.
    + apply sameRetimed_bind; [exact Hop|intros r].
      apply sameRetimed_bind; [apply sameRetimed_onSuccess|intros _; apply sameRetimed_ret].
    + intros e. apply sameRetimed_bind; [apply sameRetimed_onFailure|intros _].
      apply sameRetimed_throw.
Qed.

Lemma sameRetimed_reset : sameRetimed t this (reset this) (reset this).
Proof. unfold reset. retimed_auto; apply sameRetimed_transitionTo. Qed.

End Retimed.

(** X22.  The option timeout of a breaker (by default 30000, 'time window
    for failures in ms') is never read.  Run on a world in which the breaker
    has any other timeout, execute completes the same way and leaves the same
    world, but for that timeout, provided the operation itself does not tell
    the two worlds apart; and so does reset.  Failures are therefore never
    forgotten with time: only a successful call or a reset clears the failure
    count. *)
Theorem timeout_option_is_never_read {T} t this (operation : Js T) env w :
  (forall env0 w0,
      operation env0 (retimed t this w0)
      = (fst (operation env0 w0), retimed t this (snd (operation env0 w0)))) ->
  execute this operation env (retimed t this w)
  = (fst (execute this operation env w),
     retimed t this (snd (execute this operation env w)))
  /\ reset this env (retimed t this w)
     = (fst (reset this env w), retimed t this (snd (reset this env w))).
Proof.
  intros Hop. split.
  - by apply sameRetimed_execute.
  - apply sameRetimed_reset.
Qed.

Lemma timeout_option_is_never_read_witness :
  execute 0 failingOperation sampleEnv (retimed 1 0 (breakerWorld sampleBreaker))
  = (fst (execute 0 failingOperation sampleEnv (breakerWorld sampleBreaker)),
     retimed 1 0 (snd (execute 0 failingOperation sampleEnv (breakerWorld sampleBreaker)))).
Proof.
  refine (proj1 (timeout_option_is_never_read 1 0 failingOperation sampleEnv
                   (breakerWorld sampleBreaker) _)).
  intros env0 w0. reflexivity.
Defined.

(** ** [complete] and the breaker of its provider *)

#[global] Instance breakersKept_preorder : PreOrder breakersKept.
Proof. split; [done|]. intros w1 w2 w3 H12 H23. unfold breakersKept in *. congruence. Qed.

Lemma providerComplete_leaves l p req : leavesBreaker l (providerComplete p req).
Proof. intros env w r w'. unfold providerComplete. by intros [= _ <-]. Qed.

Lemma breakersKept_execute {T} l (operation : Js T) :
  preserves breakersKept operation -> preserves breakersKept (execute l operation).
Proof. intros Hop. unfold execute, onSuccess, onFailure, transitionTo. kept_auto. Qed.

Lemma breakersKept_attemptOnce l p req opts uc :
  preserves breakersKept (attemptOnce l p req opts uc).
Proof.
  unfold attemptOnce.
  apply preserves_bind; [apply _| |intros r].
  { apply breakersKept_execute. intros env w r w'. unfold providerComplete. by intros [= _ <-]. }
  apply preserves_bind; [apply _|unfold getCacheKey; kept_auto|intros ?].
  apply preserves_bind; [apply _| |intros ?; kept_auto].
  destruct (truthyString _); [unfold trackUsage; kept_auto|kept_auto].
Qed.

Lemma breakersKept_retryLoop M body r :
  preserves breakersKept body ->
  forall a last, preserves breakersKept (retryLoop r a M last body).
Proof.
  intros Hbody. induction r as [|r IH]; intros a last; cbn; [kept_auto|].
  apply preserves_bind; [apply _| |intros [x|e]; [kept_auto|apply IH]].
  kept_auto.
Qed.

(** what follows the breaker call in an attempt never throws and leaves the
    breakers alone *)
Lemma attemptOnce_inv l p req opts uc env w res w' :
  attemptOnce l p req opts uc env w = (res, w') ->
  exists w1,
    execute l (providerComplete p req) env w = (res, w1)
    /\ cbHeap w' = cbHeap w1 /\ invocations w' = invocations w1
    /\ (forall e, res = Throw e -> w' = w1).
Proof.
  unfold attemptOnce. intros Hrun.
  apply bind_inv in Hrun as [(r0 & w1 & Hex & Hrun)|(e & Hex & ->)].
  - exists w1. revert Hrun. unfold bind, getCacheKey, asks, Date_now, modify, ret. cbn.
    destruct (uc && _); destruct (truthyString _); rewrite ?trackUsage_run;
      intros [= <- <-]; cbn; by split_and!.
  - exists w'. by split_and!.
Qed.

(** a call that reaches the adapter: the breaker is not OPEN *)
Lemma execute_calls_adapter l p req env w b res w1 :
  cbHeap w !! l = Some b -> state b <> OPEN ->
  execute l (providerComplete p req) env w = (res, w1) ->
  invocations w1 = invocations w ++ [(adapterName p, req)]
  /\ res = adapterReply env (List.length (invocations w)).
Proof.
  intros Hb Hs. unfold execute. unfold bind at 1. unfold readThis at 1. rewrite Hb.
  unfold bind at 1.
  assert (Hgate : (match state b with
                   | OPEN =>
                       let* now := Date_now in
                       let* b0 := readThis l in
                       if now >=? nextRetryTime b0
                       then transitionTo l HALF_OPEN
                       else throw (CircuitBreakerOpenError (name (options b0))
                                     (nextRetryTime b0))
                   | _ => ret ()
                   end) env w = (Return tt, w)) by (by destruct (state b)).
  rewrite Hgate. intros Hrun.
  destruct (protected_provider l p req env w res w1) as ((Hi & _) & _ & Hres); [eauto|done|].
  done.
Qed.

Lemma execute_return_clears {T} env this w (operation : Js T) r w2 :
  leavesBreaker this operation ->
  execute this operation env w = (Return r, w2) ->
  exists b2, cbHeap w2 !! this = Some b2 /\ failureCount b2 = 0 /\ state b2 <> OPEN.
Proof.
  intros Hleave Hex.
  destruct (cbHeap w !! this) as [b|] eqn:Hb.
  2: { revert Hex. unfold execute, bind, readThis. by rewrite Hb. }
  destruct (state b) eqn:Hs.
  - assert (Hrel := execute_relays env this w b operation Hb ltac:(by rewrite Hs) Hleave).
    rewrite Hex in Hrel. cbn in Hrel.
    destruct (operation env w) as [res w1] eqn:Hop. cbn in Hrel. subst res.
    rewrite (execute_closed_return env this w b operation r w1 Hb Hs Hleave Hop) in Hex.
    injection Hex as <-. pose proof (Hleave _ _ _ _ Hop) as Hb1. rewrite Hb in Hb1.
    eexists. cbn. rewrite list_lookup_insert_eq by (by eapply lookup_lt_Some).
    split; [done|]. cbn. by rewrite Hs.
  - destruct (Z.lt_ge_cases (clock env (ticks w)) (nextRetryTime b)) as [Hlt|Hge].
    + by rewrite (execute_open_rejected env this w b operation Hb Hs Hlt) in Hex.
    + destruct (execute_open_elapsed env this w b operation Hb Hs Hge) as [Heq Hbh].
      rewrite Heq in Hex.
      rewrite (execute_half_open_return env this _ _ operation r w2 Hbh eq_refl Hleave Hex).
      cbn. destruct (_ >=? _); eexists; done.
  - rewrite (execute_half_open_return env this w b operation r w2 Hb Hs Hleave Hex).
    destruct (_ >=? _); eexists; done.
Qed.

(** X23.  A completion that the adapter answered clears the failure count
    of its provider's breaker.  When complete returns a response and called
    the adapter to get it, the factory holds the breaker 'ai-<provider>', and
    that breaker has a failure count of 0 and is not OPEN. *)
Theorem successful_completion_clears_breaker req opts env w r w' :
  complete req opts env w = (Return r, w') ->
  invocations w' <> invocations w ->
  exists l b',
    map_get (breakerNameFor opts w) (breakers w') = Some l
    /\ cbHeap w' !! l = Some b' /\ failureCount b' = 0 /\ state b' <> OPEN.
Proof.
  intros Hrun Hcalled.
  assert (Hne : providers w <> []).
  { intros Hnil. revert Hrun. unfold complete, bind. by rewrite getProvider_none. }
  destruct (getProvider_returns (opts ≫= opt_provider) env w Hne) as [p Hp].
  assert (Hmiss : match consulted env req opts w with
                  | Some entry => CACHE_TTL_MS <= clock env (ticks w) - timestamp entry
                  | None => True
                  end).
  { destruct (consulted env req opts w) as [entry|] eqn:Hc; [|done].
    destruct (Z.lt_ge_cases (clock env (ticks w) - timestamp entry) CACHE_TTL_MS)
      as [Hfresh|Hstale]; [|done].
    apply consulted_Some in Hc as (Huc & Hst & Hentry).
    rewrite (complete_cache_hit req opts env w entry Hne Huc Hst Hentry Hfresh) in Hrun.
    injection Hrun as _ <-. done. }
  destruct (complete_miss req opts env w p Hp Hmiss) as (l & w0 & Hl & Heq).
  rewrite Heq in Hrun.
  destruct (getOrCreate_returns (breakerNameFor opts w)
              (Some (mkPartial (Some 5) (Some 2) None (Some 60000))) env
              (afterCacheMiss req opts p env w))
    as (l' & w0' & Hl' & _ & _ & _ & _ & Hreg & _).
  rewrite Hl in Hl'. injection Hl' as <- <-.
  pose proof (breakersKept_retryLoop _ _ _
                (breakersKept_attemptOnce l p req opts (nullish opts opt_useCache true))
                _ _ _ _ _ _ Hrun) as Hkept.
  destruct (retryLoop_returns _ _ _ _ _ _ _ _ _ Hrun) as [wl Hlast].
  destruct (attemptOnce_inv _ _ _ _ _ _ _ _ _ Hlast) as (w1 & Hex & Hheap & _).
  destruct (execute_return_clears env l wl _ r w1 (providerComplete_leaves l p req) Hex)
    as (b2 & Hb2 & Hfc & Hst).
  exists l, b2. unfold breakersKept in Hkept. rewrite Hkept, Hheap.
  split_and!; [exact Hreg|exact Hb2|exact Hfc|exact Hst].
Qed.

Lemma successful_completion_clears_breaker_witness :
  exists l b',
    map_get "ai-openai"%string
      (breakers (snd (complete sampleRequest None sampleEnv serviceWorld))) = Some l
    /\ cbHeap (snd (complete sampleRequest None sampleEnv serviceWorld)) !! l = Some b'
    /\ failureCount b' = 0 /\ state b' <> OPEN.
Proof.
  refine (successful_completion_clears_breaker sampleRequest None sampleEnv serviceWorld
            sampleResponse (snd (complete sampleRequest None sampleEnv serviceWorld)) _ _).
  - vm_compute. reflexivity.
  - vm_compute. discriminate.
Defined.

(** failed attempts on a breaker that stays CLOSED: one failure counted per
    adapter call *)
Lemma retryLoop_counts_failures l p req opts uc M env r :
  forall a last w b e w',
  retryLoop r a M last (attemptOnce l p req opts uc) env w = (Throw e, w') ->
  cbHeap w !! l = Some b -> state b = CLOSED ->
  failureCount b
    + Z.of_nat (List.length (invocations w') - List.length (invocations w))
    < failureThreshold (options b) ->
  exists b', cbHeap w' !! l = Some b' /\ state b' = CLOSED
             /\ failureCount b'
                = failureCount b
                  + Z.of_nat (List.length (invocations w') - List.length (invocations w))
             /\ options b' = options b.
Proof.
  induction r as [|r IH]; intros a last w b e w' Hrun Hb Hs Hbound.
  { rewrite retryLoop_exhausted in Hrun. injection Hrun as _ <-.
    exists b. rewrite Nat.sub_diag. split_and!; try done. cbn. lia. }
  destruct (attemptOnce l p req opts uc env w) as [[x|e1] w1] eqn:Hat.
  { by rewrite (retryLoop_success _ _ _ _ _ _ _ _ _ Hat) in Hrun. }
  destruct (attemptOnce_inv _ _ _ _ _ _ _ _ _ Hat) as (w1' & Hex & _ & _ & Hsame).
  rewrite <- (Hsame e1 eq_refl) in Hex. clear w1' Hsame.
  destruct (execute_calls_adapter l p req env w b _ _ Hb ltac:(by rewrite Hs) Hex)
    as [Hcalls _].
  destruct (execute_closed_throw env l w b _ e1 w1 Hb Hs (providerComplete_leaves l p req) Hex)
    as [t Hb1].
  assert (Hlater : forall w2,
            invocations w2 = invocations w1 -> cbHeap w2 = cbHeap w1 ->
            (List.length (invocations w2) <= List.length (invocations w'))%nat ->
            (w2 = w' \/ exists a2 last2,
               retryLoop r a2 M last2 (attemptOnce l p req opts uc) env w2 = (Throw e, w')) ->
            exists b', cbHeap w' !! l = Some b' /\ state b' = CLOSED
              /\ failureCount b'
                 = failureCount b
                   + Z.of_nat (List.length (invocations w') - List.length (invocations w))
              /\ options b' = options b).
  { intros w2 Hi2 Hh2 Hle Hrest.
    assert (Hlen1 : List.length (invocations w2) = S (List.length (invocations w))).
    { rewrite Hi2, Hcalls, length_app. cbn. lia. }
    destruct (Z.geb_spec (failureCount b + 1) (failureThreshold (options b))) as [Hge|Hlt];
      [lia|].
    destruct Hrest as [<-|(a2 & last2 & Hrun2)].
    - rewrite Hh2, Hb1. eexists. split; [done|]. cbn. split_and!; try done.
      rewrite Hlen1. lia.
    - destruct (IH a2 last2 w2 _ e w' Hrun2 ltac:(by rewrite Hh2, Hb1) eq_refl)
        as (b' & Hb' & Hs' & Hfc' & Ho').
      { cbn. lia. }
      exists b'. split_and!; try done. rewrite Hfc'. cbn. lia. }
  destruct (givesUpOn e1) eqn:Hg.
  - rewrite (retryLoop_gives_up _ _ _ _ _ _ _ _ _ Hat Hg) in Hrun. injection Hrun as _ <-.
    apply (Hlater (set_logs (logs w1 ++ [WarnAttemptFailed a M e1]) w1)); try done.
    by left.
  - destruct (Z.lt_ge_cases a M).
    + rewrite (retryLoop_backoff _ _ _ _ _ _ _ _ _ Hat Hg) in Hrun by done.
      destruct (retryLoop_attempts _ _ _ _ _ _ _ _ _ _ _ _ _ Hrun) as (n & _ & _ & Hi & _).
      apply (Hlater (set_sleeps (sleeps w1 ++ [backoff a])
                       (set_logs (logs w1 ++ [WarnAttemptFailed a M e1]) w1)));
        [done|done|rewrite Hi, length_app; lia|].
      right. by exists (a + 1), (Some e1).
    + rewrite (retryLoop_last _ _ _ _ _ _ _ _ _ Hat Hg) in Hrun by done.
      destruct (retryLoop_attempts _ _ _ _ _ _ _ _ _ _ _ _ _ Hrun) as (n & _ & _ & Hi & _).
      apply (Hlater (set_logs (logs w1 ++ [WarnAttemptFailed a M e1]) w1));
        [done|done|rewrite Hi, length_app; lia|].
      right. by exists (a + 1), (Some e1).
Qed.

(** X24.  Every failed attempt of complete counts as one failure of the
    provider's breaker, whether the error is one complete retries or not.
    The factory holds the breaker 'ai-<provider>', CLOSED; complete throws
    after n calls of the adapter (all of them failed); as long as the failure
    count before plus n stays below failureThreshold, the breaker is
    afterwards still CLOSED with its failure count raised by exactly n. *)
Theorem failed_attempts_count_toward_breaker req opts env w l b e w' :
  map_get (breakerNameFor opts w) (breakers w) = Some l ->
  cbHeap w !! l = Some b -> state b = CLOSED ->
  complete req opts env w = (Throw e, w') ->
  failureCount b
    + Z.of_nat (List.length (invocations w') - List.length (invocations w))
    < failureThreshold (options b) ->
  exists b', cbHeap w' !! l = Some b' /\ state b' = CLOSED
             /\ failureCount b'
                = failureCount b
                  + Z.of_nat (List.length (invocations w') - List.length (invocations w))
             /\ options b' = options b.
Proof.
  intros Hn Hb Hs Hrun Hbound.
  destruct (decide (providers w = [])) as [Hnil|Hne].
  { revert Hrun Hbound. unfold complete, bind. rewrite getProvider_none by done.
    intros [= _ <-]. rewrite Nat.sub_diag. exists b. split_and!; try done. cbn. lia. }
  destruct (getProvider_returns (opts ≫= opt_provider) env w Hne) as [p Hp].
  assert (Hmiss : match consulted env req opts w with
                  | Some entry => CACHE_TTL_MS <= clock env (ticks w) - timestamp entry
                  | None => True
                  end).
  { destruct (consulted env req opts w) as [entry|] eqn:Hc; [|done].
    destruct (Z.lt_ge_cases (clock env (ticks w) - timestamp entry) CACHE_TTL_MS)
      as [Hfresh|Hstale]; [|done].
    apply consulted_Some in Hc as (Huc & Hst & Hentry).
    by rewrite (complete_cache_hit req opts env w entry Hne Huc Hst Hentry Hfresh) in Hrun. }
  destruct (complete_miss req opts env w p Hp Hmiss) as (l' & w0 & Hl & Heq).
  rewrite Heq in Hrun.
  destruct (afterCacheMiss_fields req opts p env w) as (Hi0 & _ & Hh0 & Hb0 & _).
  rewrite (getOrCreate_known env (afterCacheMiss req opts p env w) _ _ l) in Hl
    by (by rewrite Hb0).
  injection Hl as <- <-.
  rewrite <- Hi0 in Hbound |- *.
  apply (retryLoop_counts_failures _ _ _ _ _ _ _ _ _ _ _ _ _ _ Hrun); [by rewrite Hh0|done|done].
Qed.

Lemma failed_attempts_count_toward_breaker_witness :
  exists b',
    cbHeap (snd (complete sampleRequest None (flakyEnv 5) breakerService)) !! 0%nat = Some b'
    /\ state b' = CLOSED /\ failureCount b' = 3.
Proof.
  destruct (failed_attempts_count_toward_breaker sampleRequest None (flakyEnv 5)
              breakerService 0 (newCircuitBreaker (fullOptionsOf "ai-openai" None))
              (Error (Some 503) "service unavailable")
              (snd (complete sampleRequest None (flakyEnv 5) breakerService)))
    as (b' & Hb' & Hs' & Hf' & _).
  - vm_compute. reflexivity.
  - vm_compute. reflexivity.
  - reflexivity.
  - vm_compute. reflexivity.
  - vm_compute. reflexivity.
  - exists b'. split; [exact Hb'|]. split; [exact Hs'|]. rewrite Hf'. vm_compute. reflexivity.
Defined.

(** ** Usage lines *)

#[global] Instance usageKept_preorder : PreOrder usageKept.
Proof. split; [done|]. intros w1 w2 w3 H12 H23. unfold usageKept in *. congruence. Qed.

Lemma usageLines_log w e :
  usageLines (set_logs (logs w ++ [e]) w)
  = usageLines w ++ (if isUsageLine e then [e] else []).
Proof. unfold usageLines. cbn. rewrite List.filter_app. cbn. by destruct (isUsageLine e). Qed.

Lemma usageKept_logger e : isUsageLine e = false -> preserves usageKept (logger e).
Proof.
  intros He env w r w'. unfold logger, modify. intros [= _ <-].
  unfold usageKept. by rewrite usageLines_log, He, app_nil_r.
Qed.

Ltac usage_auto :=
  repeat first
    [ assumption
    | apply preserves_ret; apply _
    | apply preserves_throw; apply _
    | apply preserves_gets; apply _
    | apply preserves_asks; apply _
    | apply preserves_readThis; apply _
    | apply preserves_Date_now; intros ?; done
    | apply usageKept_logger; reflexivity
    | apply preserves_modify; intros ?; done
    | apply preserves_bind; [apply _| |intros ?]
    | apply preserves_tryCatch; [apply _| |intros ?]
    | match goal with
      | |- preserves _ (match ?x with _ => _ end) => destruct x
      | |- preserves _ (if ?c then _ else _) => destruct c
      end ].

Lemma usageKept_execute {T} l (operation : Js T) :
  preserves usageKept operation -> preserves usageKept (execute l operation).
Proof. intros Hop. unfold execute, onSuccess, onFailure, transitionTo, updateThis. usage_auto. Qed.

Lemma attemptOnce_usage l p req opts uc env w res w1 :
  attemptOnce l p req opts uc env w = (res, w1) ->
  usageLines w1
  = usageLines w ++ match res with Return r => trackedLines env opts r | Throw _ => [] end.
Proof.
  unfold attemptOnce. intros Hrun.
  apply bind_inv in Hrun as [(r0 & w0 & Hex & Hrun)|(e & Hex & ->)].
  - assert (Hk : usageKept w w0).
    { apply (usageKept_execute l (providerComplete p req)) in Hex; [done|].
      intros env0 w2 r2 w2'. unfold providerComplete. by intros [= _ <-]. }
    unfold usageKept in Hk. rewrite <- Hk. revert Hrun.
    unfold trackedLines, bind, getCacheKey, asks, Date_now, modify, ret. cbn.
    destruct (uc && _); destruct (truthyString _); rewrite ?trackUsage_run;
      intros [= <- <-]; unfold usageLines; cbn; rewrite ?List.filter_app; cbn;
      try destruct (usageSink env _); cbn; by rewrite ?app_nil_r.
  - apply (usageKept_execute l (providerComplete p req)) in Hex; [by rewrite app_nil_r|].
    intros env0 w2 r2 w2'. unfold providerComplete. by intros [= _ <-].
Qed.

Lemma retryLoop_usage l p req opts uc M env r :
  forall a last w res w',
  retryLoop r a M last (attemptOnce l p req opts uc) env w = (res, w') ->
  usageLines w'
  = usageLines w ++ match res with Return x => trackedLines env opts x | Throw _ => [] end.
Proof.
  induction r as [|r IH]; intros a last w res w' Hrun.
  { rewrite retryLoop_exhausted in Hrun. injection Hrun as <- <-. by rewrite app_nil_r. }
  destruct (attemptOnce l p req opts uc env w) as [[x|e] w1] eqn:Hat;
    pose proof (attemptOnce_usage _ _ _ _ _ _ _ _ _ Hat) as Hu.
  - rewrite (retryLoop_success _ _ _ _ _ _ _ _ _ Hat) in Hrun. by injection Hrun as <- <-.
  - rewrite app_nil_r in Hu. destruct (givesUpOn e) eqn:Hg.
    + rewrite (retryLoop_gives_up _ _ _ _ _ _ _ _ _ Hat Hg) in Hrun.
      injection Hrun as <- <-. rewrite usageLines_log. cbn. by rewrite !app_nil_r.
    + destruct (Z.lt_ge_cases a M).
      * rewrite (retryLoop_backoff _ _ _ _ _ _ _ _ _ Hat Hg) in Hrun by done.
        rewrite (IH _ _ _ _ _ Hrun). f_equal.
        change (usageLines (set_logs (logs w1 ++ [WarnAttemptFailed a M e]) w1) = usageLines w).
        rewrite usageLines_log. cbn. by rewrite app_nil_r.
      * rewrite (retryLoop_last _ _ _ _ _ _ _ _ _ Hat Hg) in Hrun by done.
        rewrite (IH _ _ _ _ _ Hrun). f_equal.
        rewrite usageLines_log. cbn. by rewrite app_nil_r.
Qed.

(** X25.  Usage is recorded once per answer of the adapter and never
    otherwise.  Over a call of complete the log gains exactly one line of
    trackUsage (the usage line, or the error line when writing it failed) when
    the call returns a response it got from the adapter and the options carry
    a non-empty project id; it gains none when the call throws, when the
    response comes from the cache, or when there is no project id.  The line
    carries the project id, the user id, the model and token counts and cost
    of the response, and the operation of the options or 'completion'. *)
Theorem usage_is_recorded_once req opts env w :
  let run := complete req opts env w in
  usageLines (snd run)
  = usageLines w
    ++ match fst run with
       | Return r =>
           if (List.length (invocations w) <? List.length (invocations (snd run)))%nat
           then trackedLines env opts r
           else []
       | Throw _ => []
       end.
Proof.
  intros run. subst run.
  destruct (decide (providers w = [])) as [Hnil|Hne].
  { unfold complete, bind. rewrite getProvider_none by done. cbn. by rewrite app_nil_r. }
  destruct (getProvider_returns (opts ≫= opt_provider) env w Hne) as [p Hp].
  assert (Hmiss :
    match consulted env req opts w with
    | Some entry => CACHE_TTL_MS <= clock env (ticks w) - timestamp entry
    | None => True
    end ->
    usageLines (snd (complete req opts env w))
    = usageLines w
      ++ match fst (complete req opts env w) with
         | Return r =>
             if (List.length (invocations w)
                 <? List.length (invocations (snd (complete req opts env w))))%nat
             then trackedLines env opts r
             else []
         | Throw _ => []
         end).
  { intros Hmiss.
    destruct (complete_miss req opts env w p Hp Hmiss) as (l & w0 & Hl & ->).
    destruct (getOrCreate_returns (breakerNameFor opts w)
                (Some (mkPartial (Some 5) (Some 2) None (Some 60000))) env
                (afterCacheMiss req opts p env w))
      as (l' & w0' & Hl' & (Hi & _) & _ & _ & Hlogs & _).
    rewrite Hl in Hl'. injection Hl' as <- <-.
    destruct (afterCacheMiss_fields req opts p env w) as (Hi0 & _).
    assert (Hu0 : usageLines w0 = usageLines w).
    { rewrite <- (afterCacheMiss_usage req opts p env w). unfold usageLines.
      by rewrite Hlogs. }
    destruct (retryLoop _ _ _ _ _ env w0) as [res w'] eqn:Hrun. cbn [fst snd].
    rewrite (retryLoop_usage _ _ _ _ _ _ _ _ _ _ _ _ _ Hrun), Hu0. f_equal.
    destruct res as [r|e]; [|done].
    destruct (retryLoop_returns_later _ _ _ _ _ _ _ _ _ _ _ _ _ Hrun) as (wl & Hlast & Hle).
    destruct (attemptOnce_cases _ _ _ _ _ _ _ _ _ Hlast)
      as (_ & _ & _ & [[_ [e [=]]]|[Hcalls _]]).
    destruct (Nat.ltb _ _) eqn:Hlt; [done|]. apply Nat.ltb_ge in Hlt.
    rewrite Hcalls, length_app in Hlt. cbn in Hlt. rewrite Hi, Hi0 in Hle. lia. }
  destruct (consulted env req opts w) as [entry|] eqn:Hc; [|by apply Hmiss].
  destruct (Z.lt_ge_cases (clock env (ticks w) - timestamp entry) CACHE_TTL_MS)
    as [Hfresh|Hstale]; [|by apply Hmiss].
  apply consulted_Some in Hc as (Huc & Hst & Hentry).
  rewrite (complete_cache_hit req opts env w entry Hne Huc Hst Hentry Hfresh).
  cbn [fst snd]. unfold usageLines. cbn [logs invocations set_logs set_ticks].
  rewrite List.filter_app, Nat.ltb_irrefl. done.
Qed.

(** ** The counters of a breaker *)

Ltac counted :=
  unfold wellCounted in *; cbn in *; destruct_and?;
  repeat match goal with
    | H : ?x = ?x -> _ |- _ => specialize (H eq_refl)
    | H : ?a = ?b, H' : ?a = ?b -> _ |- _ => specialize (H' H)
    end;
  destruct_and?; split_and?;
  try (intros; first [discriminate | lia | split; lia | done]).

Lemma breakerStep_wellCounted {T} env this w b w1 :
  cbHeap w !! this = Some b -> wellCounted b ->
  1 <= failureThreshold (options b) -> 1 <= successThreshold (options b) ->
  breakerStep (T:=T) env this w w1 ->
  exists b1, cbHeap w1 !! this = Some b1 /\ wellCounted b1 /\ options b1 = options b.
Proof.
  intros Hb Hwc Hft Hst Hstep.
  assert (Hhalf : forall wh bh (operation : Js T) r,
            cbHeap wh !! this = Some bh -> state bh = HALF_OPEN ->
            0 <= failureCount bh -> 0 <= successCount bh ->
            successCount bh < successThreshold (options bh) ->
            1 <= failureThreshold (options bh) ->
            leavesBreaker this operation ->
            execute this operation env wh = (r, w1) ->
            exists b1, cbHeap w1 !! this = Some b1 /\ wellCounted b1
                       /\ options b1 = options bh).
  { intros wh bh operation r Hbh Hsh Hf0 Hs0 Hsc Hft' Hleave Hex. destruct r as [x|e].
    - rewrite (execute_half_open_return env this wh bh operation x w1 Hbh Hsh Hleave Hex).
      destruct (Z.geb_spec (successCount bh + 1) (successThreshold (options bh)));
        eexists; (split; [done|]); split; try done; counted.
    - destruct (execute_half_open_throw env this wh bh operation e w1 Hbh Hsh Hleave Hex)
        as [t ->].
      eexists; (split; [done|]); split; try done; counted. }
  destruct Hstep as [operation r w w1 Hleave Hex|r w w1 Hrun].
  - destruct (state b) eqn:Hs.
    + destruct r as [x|e].
      * assert (Hrel := execute_relays env this w b operation Hb ltac:(by rewrite Hs) Hleave).
        rewrite Hex in Hrel. cbn in Hrel.
        destruct (operation env w) as [res w0] eqn:Hop. cbn in Hrel. subst res.
        rewrite (execute_closed_return env this w b operation x w0 Hb Hs Hleave Hop) in Hex.
        injection Hex as <-. pose proof (Hleave _ _ _ _ Hop) as Hb0. rewrite Hb in Hb0.
        eexists. cbn. rewrite list_lookup_insert_eq by (by eapply lookup_lt_Some).
        split; [done|]. split; [|done]. counted.
      * destruct (execute_closed_throw env this w b operation e w1 Hb Hs Hleave Hex)
          as [t ->].
        destruct (Z.geb_spec (failureCount b + 1) (failureThreshold (options b)));
          eexists; (split; [done|]); split; try done; counted.
    + destruct (Z.lt_ge_cases (clock env (ticks w)) (nextRetryTime b)) as [Hlt|Hge].
      * rewrite (execute_open_rejected env this w b operation Hb Hs Hlt) in Hex.
        injection Hex as _ <-. exists b. cbn. done.
      * destruct (execute_open_elapsed env this w b operation Hb Hs Hge) as [Heq Hbh].
        rewrite Heq in Hex.
        destruct (Hhalf _ _ operation r Hbh eq_refl) as (b1 & Hb1 & Hwc1 & Ho1);
          try done; counted.
        exists b1. done.
    + destruct (Hhalf _ _ operation r Hb Hs) as (b1 & Hb1 & Hwc1 & Ho1); try done; counted.
      exists b1. done.
  - rewrite (reset_run env this w b Hb) in Hrun. injection Hrun as _ <-.
    exists (afterReset b). cbn. rewrite list_lookup_insert_eq by (by eapply lookup_lt_Some).
    split; [done|]. split; [|done]. counted.
Qed.

(** X26.  The counters of a breaker stay consistent with its state.  For a
    breaker whose two thresholds are at least 1: if a CLOSED breaker counts
    fewer failures than failureThreshold and no success, an OPEN one no
    success, and a HALF_OPEN one fewer successes than successThreshold, with
    no counter negative, then the same holds after any sequence of calls of
    execute (whose operations do not touch the breaker themselves) and of
    resets, and the options are the same.  A breaker as constructed is in
    that condition. *)
Theorem breaker_counters_stay_consistent {T} env this w b w' :
  cbHeap w !! this = Some b -> wellCounted b ->
  1 <= failureThreshold (options b) -> 1 <= successThreshold (options b) ->
  rtc (breakerStep (T:=T) env this) w w' ->
  (exists b', cbHeap w' !! this = Some b' /\ wellCounted b' /\ options b' = options b)
  /\ wellCounted (newCircuitBreaker (options b)).
Proof.
  intros Hb Hwc Hft Hst Hrun. split; [|split_and!; cbn; try done; try lia; intros _; lia].
  revert b Hb Hwc Hft Hst. induction Hrun as [w|w w1 w2 Hstep _ IH]; intros b Hb Hwc Hft Hst.
  - by exists b.
  - destruct (breakerStep_wellCounted env this w b w1 Hb Hwc Hft Hst Hstep)
      as (b1 & Hb1 & Hwc1 & Ho1).
    destruct (IH b1 Hb1 Hwc1) as (b2 & Hb2 & Hwc2 & Ho2); [by rewrite Ho1..|].
    exists b2. split_and!; try done. congruence.
Qed.

Lemma breaker_counters_stay_consistent_witness :
  exists b',
    cbHeap (snd (execute 0 failingOperation sampleEnv (breakerWorld sampleBreaker))) !! 0%nat
    = Some b' /\ wellCounted b'.
Proof.
  destruct (breaker_counters_stay_consistent (T:=unit) sampleEnv 0
              (breakerWorld sampleBreaker) sampleBreaker
              (snd (execute 0 failingOperation sampleEnv (breakerWorld sampleBreaker))))
    as ((b' & Hb' & Hwc' & _) & _).
  - reflexivity.
  - unfold wellCounted. simpl. repeat split; try lia; intros H; discriminate H.
  - simpl. lia.
  - simpl. lia.
  - apply rtc_once. eapply breaker_call with (operation := failingOperation).
    + apply throw_leavesBreaker.
    + vm_compute. reflexivity.
  - exists b'. split; [exact Hb'|exact Hwc'].
Defined.

(** ** The breaker of a fallback adapter *)

Lemma breakerName_inj k1 k2 :
  ("ai-" ++ providerValue k1)%string = ("ai-" ++ providerValue k2)%string -> k1 = k2.
Proof. by destruct k1, k2. Qed.

(** X27.  The breaker complete uses is named after the provider that was
    asked for, not after the adapter that serves.  When no adapter is
    registered under the preferred provider (or, without a preference, under
    the default one), getProvider falls back to the first registered adapter;
    a call of complete that is not answered from the cache then makes all its
    adapter calls on that fallback adapter, while the breaker it runs them
    through is registered under 'ai-' followed by the provider asked for; what
    the factory holds under the fallback adapter's own provider name is the
    same before and after, so no breaker is created there. *)
Theorem fallback_runs_under_requested_breaker req opts env w k a rest :
  providers w = (k, a) :: rest ->
  let asked := default (defaultProvider w) (opts ≫= opt_provider) in
  map_get asked (providers w) = None ->
  match consulted env req opts w with
  | Some entry => CACHE_TTL_MS <= clock env (ticks w) - timestamp entry
  | None => True
  end ->
  let w' := snd (complete req opts env w) in
  (exists n, invocations w' = invocations w ++ replicate n (adapterName a, req))
  /\ is_Some (map_get ("ai-" ++ providerValue asked)%string (breakers w'))
  /\ map_get ("ai-" ++ providerValue k)%string (breakers w')
     = map_get ("ai-" ++ providerValue k)%string (breakers w).
Proof.
  intros Hps asked Hasked Hmiss w'. subst w'.
  assert (Hp : getProvider (opts ≫= opt_provider) env w = (Return a, w)).
  { rewrite getProvider_run. fold asked. by rewrite Hasked, Hps. }
  destruct (complete_miss req opts env w a Hp Hmiss) as (l & w0 & Hl & ->).
  destruct (afterCacheMiss_fields req opts a env w) as (Hi0 & _ & _ & Hb0 & _).
  assert (Hne : k <> asked).
  { clear - Hps Hasked. intros ->. rewrite Hps in Hasked. cbn in Hasked.
    by rewrite decide_True in Hasked. }
  assert (Hw0 : invocations w0 = invocations w
                /\ map_get (breakerNameFor opts w) (breakers w0) = Some l
                /\ map_get ("ai-" ++ providerValue k)%string (breakers w0)
                   = map_get ("ai-" ++ providerValue k)%string (breakers w)).
  { destruct (map_get (breakerNameFor opts w) (breakers w)) as [l0|] eqn:Hn.
    - rewrite (getOrCreate_known env (afterCacheMiss req opts a env w) _ _ l0) in Hl
        by (by rewrite Hb0).
      injection Hl as <- <-. rewrite Hi0, Hb0. split_and!; [reflexivity|exact Hn|reflexivity].
    - rewrite (getOrCreate_new env (afterCacheMiss req opts a env w)) in Hl
        by (by rewrite Hb0).
      injection Hl as <- <-. cbn.
      rewrite Hi0, Hb0, map_get_set_eq. split_and!; [reflexivity|reflexivity|].
      apply map_get_set_ne. unfold breakerNameFor. fold asked.
      intros Heq%breakerName_inj. by destruct Hne. }
  destruct Hw0 as (Hi & Hreg & Hother).
  destruct (retryLoop _ _ _ _ _ env w0) as [res w'] eqn:Hrun. cbn [snd].
  pose proof (breakersKept_retryLoop _ _ _
                (breakersKept_attemptOnce l a req opts (nullish opts opt_useCache true))
                _ _ _ _ _ _ Hrun) as Hkept.
  unfold breakersKept in Hkept. rewrite Hkept.
  destruct (retryLoop_attempts _ _ _ _ _ _ _ _ _ _ _ _ _ Hrun) as (n & _ & _ & Hcalls & _).
  split_and!.
  - exists n. by rewrite Hcalls, Hi.
  - unfold breakerNameFor in Hreg. fold asked in Hreg. by rewrite Hreg.
  - exact Hother.
Qed.

Lemma fallback_runs_under_requested_breaker_witness :
  let w := initialised false true true in
  let opts := Some (mkCompleteOptions (Some OPENAI) None None None None None) in
  is_Some (map_get "ai-openai"%string (breakers (snd (complete sampleRequest opts sampleEnv w))))
  /\ map_get "ai-anthropic"%string (breakers (snd (complete sampleRequest opts sampleEnv w)))
     = None.
Proof.
  intros w opts.
  destruct (fallback_runs_under_requested_breaker sampleRequest opts sampleEnv w
              ANTHROPIC (anthropicAdapter true) [(GEMINI, geminiAdapter true)])
    as (_ & Hasked & Hown).
  - vm_compute. reflexivity.
  - vm_compute. reflexivity.
  - vm_compute. exact I.
  - split; [exact Hasked|exact Hown].
Defined.

(** * The retry schedule of [complete] *)

(** [k] attempts in a row that find the breaker CLOSED, reach the adapter and
    fail with an error the loop retries: the loop is then at attempt [a + k],
    after [k] adapter calls and a sleep after each of them that was not the
    last attempt, with the breaker still CLOSED and [k] failures more. *)
Lemma retryLoop_failing_attempts l p req opts uc M env :
  forall (k r : nat) a last w b,
  cbHeap w !! l = Some b -> state b = CLOSED ->
  failureCount b + Z.of_nat k < failureThreshold (options b) ->
  (k <= r)%nat -> a + Z.of_nat r = M + 1 ->
  (forall i, (i < k)%nat -> exists e,
      adapterReply env (List.length (invocations w) + i) = Throw e
      /\ givesUpOn e = false) ->
  exists w1 last1 b1,
    retryLoop r a M last (attemptOnce l p req opts uc) env w
    = retryLoop (r - k) (a + Z.of_nat k) M last1 (attemptOnce l p req opts uc) env w1
    /\ invocations w1 = invocations w ++ replicate k (adapterName p, req)
    /\ sleeps w1 = sleeps w ++ backoffs a (Nat.min k (r - 1))
    /\ cbHeap w1 !! l = Some b1 /\ state b1 = CLOSED
    /\ failureCount b1 = failureCount b + Z.of_nat k
    /\ options b1 = options b
    /\ (k = 0%nat -> last1 = last)
    /\ (forall k', k = S k' ->
          exists e, adapterReply env (List.length (invocations w) + k') = Throw e
                    /\ last1 = Some e).
Proof.
  induction k as [|k IH]; intros r a last w b Hb Hs Hroom Hk Hfuel Hfail.
  { exists w, last, b. rewrite Nat.sub_0_r, Z.add_0_r. cbn. rewrite !app_nil_r.
    split_and!; try done. lia. }
  destruct r as [|r]; [lia|].
  destruct (Hfail 0%nat ltac:(lia)) as (e0 & Hreply & Hretry).
  rewrite Nat.add_0_r in Hreply.
  destruct (attemptOnce l p req opts uc env w) as [res wa] eqn:Hat.
  destruct (attemptOnce_cases _ _ _ _ _ _ _ _ _ Hat) as (Hsl & _).
  destruct (attemptOnce_inv _ _ _ _ _ _ _ _ _ Hat) as (wx & Hex & _ & _ & Hsame).
  destruct (execute_calls_adapter l p req env w b _ _ Hb ltac:(by rewrite Hs) Hex)
    as [Hcalls Hres].
  rewrite Hreply in Hres. subst res. rewrite <- (Hsame e0 eq_refl) in Hex, Hcalls. clear wx Hsame.
  destruct (execute_closed_throw env l w b _ e0 wa Hb Hs (providerComplete_leaves l p req) Hex)
    as [t Hba].
  destruct (Z.geb_spec (failureCount b + 1) (failureThreshold (options b))) as [Hge|Hlt];
    [lia|].
  assert (Hstep : exists w2,
            retryLoop (S r) a M last (attemptOnce l p req opts uc) env w
            = retryLoop r (a + 1) M (Some e0) (attemptOnce l p req opts uc) env w2
            /\ invocations w2 = invocations wa /\ cbHeap w2 = cbHeap wa
            /\ sleeps w2 = sleeps wa ++ backoffs a (Nat.min 1 r)).
  { destruct r as [|r].
    - eexists. split; [apply (retryLoop_last _ _ _ _ _ _ _ _ _ Hat Hretry); lia|].
      cbn. by rewrite app_nil_r.
    - eexists. split; [apply (retryLoop_backoff _ _ _ _ _ _ _ _ _ Hat Hretry); lia|].
      done. }
  destruct Hstep as (w2 & Hloop & Hi2 & Hh2 & Hs2).
  destruct (IH r (a + 1) (Some e0) w2 _ ltac:(by rewrite Hh2, Hba) eq_refl)
    as (w1 & last1 & b1 & Hrest & Hi1 & Hs1 & Hb1 & Hst1 & Hfc1 & Ho1 & Hzero & Hlast).
  { cbn. lia. }
  { lia. }
  { lia. }
  { intros i Hi. destruct (Hfail (S i) ltac:(lia)) as (e & He & Hg).
    exists e. split; [|done]. rewrite Hi2, Hcalls, length_app. cbn.
    by replace (List.length (invocations w) + 1 + i)%nat
         with (List.length (invocations w) + S i)%nat by lia. }
  exists w1, last1, b1. split_and!.
  - rewrite Hloop, Hrest. cbn [Nat.sub]. f_equal. lia.
  - rewrite Hi1, Hi2, Hcalls, <- app_assoc. done.
  - rewrite Hs1, Hs2, Hsl, <- app_assoc. f_equal.
    destruct r as [|r].
    + assert (k = 0%nat) as -> by lia. done.
    + replace (Nat.min (S k) (S (S r) - 1)) with (S (Nat.min k (S r - 1))) by lia.
      done.
  - done.
  - done.
  - rewrite Hfc1. cbn. lia.
  - rewrite Ho1. done.
  - lia.
  - intros k' [= <-]. destruct k as [|k].
    + exists e0. rewrite Nat.add_0_r. split; [done|]. by apply Hzero.
    + destruct (Hlast k eq_refl) as (e & He & ->). exists e. split; [|done].
      rewrite Hi2, Hcalls, length_app in He. cbn in He.
      by replace (List.length (invocations w) + S k)%nat
           with (List.length (invocations w) + 1 + k)%nat by lia.
Qed.

(** The world in which [complete] enters its retry loop after a cache miss,
    when its breaker lets [k] attempts through. *)
Lemma complete_enters_loop req opts env w k :
  providers w <> [] ->
  match consulted env req opts w with
  | Some entry => CACHE_TTL_MS <= clock env (ticks w) - timestamp entry
  | None => True
  end ->
  breakerAdmits opts w k ->
  exists l p w0 b,
    complete req opts env w
    = retryLoop (Z.to_nat (nullish opts opt_maxRetries 3)) 1
        (nullish opts opt_maxRetries 3) None
        (attemptOnce l p req opts (nullish opts opt_useCache true)) env w0
    /\ invocations w0 = invocations w /\ sleeps w0 = sleeps w
    /\ cbHeap w0 !! l = Some b /\ state b = CLOSED
    /\ (forall j, breakerAdmits opts w j ->
          failureCount b + Z.of_nat j <= failureThreshold (options b)).
Proof.
  intros Hne Hmiss Hroom.
  destruct (getProvider_returns (opts ≫= opt_provider) env w Hne) as [p Hp].
  destruct (complete_miss req opts env w p Hp Hmiss) as (l & w0 & Hl & Heq).
  destruct (afterCacheMiss_fields req opts p env w) as (Hi0 & Hs0 & Hh0 & Hb0 & _).
  unfold breakerAdmits in *.
  destruct (map_get (breakerNameFor opts w) (breakers w)) as [l0|] eqn:Hname.
  - destruct Hroom as (b & Hb & Hst & Hfc).
    rewrite (getOrCreate_known env (afterCacheMiss req opts p env w) _ _ l0) in Hl
      by (by rewrite Hb0).
    injection Hl as <- <-.
    exists l0, p, (afterCacheMiss req opts p env w), b.
    split_and!; [exact Heq|exact Hi0|exact Hs0|by rewrite Hh0|exact Hst|].
    intros j (b' & Hb' & _ & Hfc'). rewrite Hb in Hb'. by injection Hb' as <-.
  - rewrite (getOrCreate_new env (afterCacheMiss req opts p env w)) in Hl
      by (by rewrite Hb0).
    pose proof (f_equal fst Hl) as Hl1. pose proof (f_equal snd Hl) as Hl2.
    cbn [fst snd] in Hl1, Hl2. clear Hl. rewrite Hh0 in Hl1.
    injection Hl1 as <-. subst w0.
    eexists _, p, _, _.
    split; [exact Heq|]. cbn [invocations sleeps cbHeap set_breakers set_cbHeap].
    split; [exact Hi0|]. split; [exact Hs0|].
    split; [apply list_lookup_middle; by rewrite Hh0|]. split; [reflexivity|].
    intros j Hj. cbn in Hj |- *. lia.
Qed.

Lemma backoffs_snoc a n : backoffs a (S n) = backoffs a n ++ [backoff (a + Z.of_nat n)].
Proof.
  revert a. induction n as [|n IH]; intros a.
  - cbn. by rewrite Z.add_0_r.
  - change (backoff a :: backoffs (a + 1) (S n)
            = (backoff a :: backoffs (a + 1) n) ++ [backoff (a + Z.of_nat (S n))]).
    replace (a + Z.of_nat (S n)) with (a + 1 + Z.of_nat n) by lia.
    by rewrite IH.
Qed.

(** A call through a breaker the store holds reaches the adapter, or is
    rejected by the breaker, which is then OPEN and throws its
    CircuitBreakerOpenError. *)
Lemma execute_reaches_or_rejects l p req env w b res w1 :
  cbHeap w !! l = Some b ->
  execute l (providerComplete p req) env w = (res, w1) ->
  (invocations w1 = invocations w ++ [(adapterName p, req)]
   /\ res = adapterReply env (List.length (invocations w)))
  \/ (invocations w1 = invocations w
      /\ res = Throw (CircuitBreakerOpenError (name (options b)) (nextRetryTime b))).
Proof.
  intros Hb Hex.
  destruct (state b) eqn:Hs.
  1, 3: left; eapply execute_calls_adapter; [exact Hb|by rewrite Hs|exact Hex].
  destruct (Z.lt_ge_cases (clock env (ticks w)) (nextRetryTime b)) as [Hlt|Hge].
  - rewrite (execute_open_rejected env l w b _ Hb Hs Hlt) in Hex.
    right. by injection Hex as <- <-.
  - destruct (execute_open_elapsed env l w b (providerComplete p req) Hb Hs Hge)
      as [Heq Hhalf].
    rewrite Heq in Hex. left.
    by apply (execute_calls_adapter l p req env (halfOpened l b w) _ _ _ Hhalf).
Qed.

Lemma attemptOnce_reaches_or_rejects l p req opts uc env w b res wa :
  cbHeap w !! l = Some b ->
  attemptOnce l p req opts uc env w = (res, wa) ->
  sleeps wa = sleeps w
  /\ ((invocations wa = invocations w ++ [(adapterName p, req)]
       /\ res = adapterReply env (List.length (invocations w)))
      \/ (invocations wa = invocations w
          /\ res = Throw (CircuitBreakerOpenError (name (options b)) (nextRetryTime b)))).
Proof.
  intros Hb Hat.
  destruct (attemptOnce_cases _ _ _ _ _ _ _ _ _ Hat) as (Hsl & _ & _ & Hcases).
  split; [exact Hsl|].
  destruct Hcases as [[Hsame _]|Hcall]; [|by left].
  destruct (attemptOnce_inv _ _ _ _ _ _ _ _ _ Hat) as (w1 & Hex & _ & Hi & _).
  destruct (execute_reaches_or_rejects _ _ _ _ _ _ _ _ Hb Hex) as [[Hcall _]|[_ Hrej]].
  - rewrite Hi, Hcall in Hsame. apply (f_equal List.length) in Hsame.
    rewrite length_app in Hsame. cbn in Hsame. lia.
  - by right.
Qed.

(** What follows an attempt in a run of the loop only adds adapter calls and
    sleeps. *)
Lemma retryLoop_extends l p req opts uc M env r a last w res w' :
  retryLoop r a M last (attemptOnce l p req opts uc) env w = (res, w') ->
  (List.length (invocations w) <= List.length (invocations w'))%nat
  /\ exists later, sleeps w' = sleeps w ++ later.
Proof.
  intros Hrun.
  destruct (retryLoop_attempts _ _ _ _ _ _ _ _ _ _ _ _ _ Hrun) as (n & s & _ & Hi & Hs & _).
  split; [rewrite Hi, length_app; lia|by eexists].
Qed.

(** The schedule of the loop as [complete] runs it, from attempt 1 with
    [maxRetries] attempts, on a CLOSED breaker that lets [k] attempts
    through, when the first [k] answers of the adapter are errors the loop
    retries. *)
Lemma retryLoop_schedule l p req opts uc M env (k : nat) w b :
  let run := retryLoop (Z.to_nat M) 1 M None (attemptOnce l p req opts uc) env w in
  let first := List.length (invocations w) in
  cbHeap w !! l = Some b -> state b = CLOSED ->
  failureCount b + Z.of_nat k <= failureThreshold (options b) ->
  (forall i, (i < k)%nat -> exists e,
      adapterReply env (first + i) = Throw e /\ givesUpOn e = false) ->
  (Z.of_nat k < M ->
     (exists later, sleeps (snd run) = sleeps w ++ backoffs 1 k ++ later)
     /\ ((first + k < List.length (invocations (snd run)))%nat
         \/ exists circuit retryAfter,
              fst run = Throw (CircuitBreakerOpenError circuit retryAfter))
     /\ (failureCount b + Z.of_nat k < failureThreshold (options b) ->
         (first + k < List.length (invocations (snd run)))%nat
         /\ forall r, adapterReply env (first + k) = Return r ->
              fst run = Return r
              /\ List.length (invocations (snd run)) = S (first + k)
              /\ sleeps (snd run) = sleeps w ++ backoffs 1 k))
  /\ (Z.of_nat k = M -> (0 < k)%nat ->
        fst run = adapterReply env (first + k - 1)
        /\ (exists e, fst run = Throw e)
        /\ List.length (invocations (snd run)) = (first + k)%nat
        /\ sleeps (snd run) = sleeps w ++ backoffs 1 (k - 1)).
Proof.
  intros run first Hb Hs Hroom Hfail. subst run.
  set (body := attemptOnce l p req opts uc).
  (* the loop after [j] failed attempts that found the breaker CLOSED *)
  assert (Hafter : forall j : nat, (j <= k)%nat -> (j < Z.to_nat M)%nat ->
            failureCount b + Z.of_nat j < failureThreshold (options b) ->
            exists w1 last1 b1,
              retryLoop (Z.to_nat M) 1 M None body env w
              = retryLoop (Z.to_nat M - j) (1 + Z.of_nat j) M last1 body env w1
              /\ List.length (invocations w1) = (first + j)%nat
              /\ sleeps w1 = sleeps w ++ backoffs 1 j
              /\ cbHeap w1 !! l = Some b1 /\ state b1 = CLOSED).
  { intros j Hjk HjM Hfc.
    destruct (retryLoop_failing_attempts l p req opts uc M env j (Z.to_nat M) 1 None w b
                Hb Hs Hfc ltac:(lia) ltac:(lia))
      as (w1 & last1 & b1 & Hloop & Hi1 & Hs1 & Hb1 & Hst1 & _).
    { intros i Hi. apply Hfail. lia. }
    exists w1, last1, b1. split; [exact Hloop|].
    split; [rewrite Hi1, length_app, length_replicate; done|].
    split; [|done]. rewrite Hs1. do 2 f_equal. lia. }
  (* the loop after [k] failed attempts, the last of which may have opened
     the breaker *)
  assert (Hfailed : (0 < k)%nat -> (k <= Z.to_nat M)%nat ->
            exists w2 e b2,
              retryLoop (Z.to_nat M) 1 M None body env w
              = retryLoop (Z.to_nat M - k) (1 + Z.of_nat k) M (Some e) body env w2
              /\ adapterReply env (first + k - 1) = Throw e
              /\ List.length (invocations w2) = (first + k)%nat
              /\ sleeps w2 = sleeps w ++ backoffs 1 (Nat.min k (Z.to_nat M - 1))
              /\ cbHeap w2 !! l = Some b2).
  { intros Hpos HkM. destruct k as [|j]; [lia|].
    destruct (Hafter j ltac:(lia) ltac:(lia) ltac:(lia))
      as (w1 & last1 & b1 & Hloop & Hi1 & Hs1 & Hb1 & Hst1).
    destruct (Hfail j ltac:(lia)) as (e & Hreply & Hretry).
    destruct (body env w1) as [res1 wa] eqn:Hat.
    destruct (attemptOnce_cases _ _ _ _ _ _ _ _ _ Hat) as (Hsa & _).
    destruct (attemptOnce_inv _ _ _ _ _ _ _ _ _ Hat) as (wx & Hex & _ & _ & Hsame).
    destruct (execute_calls_adapter l p req env w1 b1 _ _ Hb1 ltac:(by rewrite Hst1) Hex)
      as [Hcalls Hres].
    rewrite Hi1, Hreply in Hres. subst res1.
    rewrite <- (Hsame e eq_refl) in Hex, Hcalls. clear wx Hsame.
    destruct (execute_closed_throw env l w1 b1 _ e wa Hb1 Hst1
                (providerComplete_leaves l p req) Hex) as [t Hba].
    assert (Hlena : List.length (invocations wa) = (first + S j)%nat).
    { rewrite Hcalls, length_app, Hi1. cbn. lia. }
    rewrite Hloop.
    replace (first + S j - 1)%nat with (first + j)%nat by lia.
    destruct (Z.to_nat M - j)%nat as [|r] eqn:Hr; [lia|].
    replace (Z.to_nat M - S j)%nat with r by lia.
    replace (1 + Z.of_nat (S j)) with (1 + Z.of_nat j + 1) by lia.
    destruct r as [|r].
    - eexists _, e, _. split; [apply (retryLoop_last _ _ _ _ _ _ _ _ _ Hat Hretry); lia|].
      cbn [invocations sleeps cbHeap set_logs].
      split; [done|]. split; [done|]. split; [|exact Hba].
      rewrite Hsa, Hs1. do 2 f_equal. lia.
    - eexists _, e, _. split; [apply (retryLoop_backoff _ _ _ _ _ _ _ _ _ Hat Hretry); lia|].
      cbn [invocations sleeps cbHeap set_logs set_sleeps].
      split; [done|]. split; [done|]. split; [|exact Hba].
      rewrite Hsa, Hs1, <- app_assoc. f_equal.
      replace (Nat.min (S j) (Z.to_nat M - 1)) with (S j) by lia.
      by rewrite backoffs_snoc. }
  split.
  - intros Hlt.
    (* the world before attempt k + 1 *)
    assert (Hnext : exists wk lastk bk r,
              retryLoop (Z.to_nat M) 1 M None body env w
              = retryLoop (S r) (1 + Z.of_nat k) M lastk body env wk
              /\ List.length (invocations wk) = (first + k)%nat
              /\ sleeps wk = sleeps w ++ backoffs 1 k
              /\ cbHeap wk !! l = Some bk
              /\ (failureCount b + Z.of_nat k < failureThreshold (options b) ->
                  state bk = CLOSED)).
    { destruct (Z.to_nat M - k)%nat as [|r] eqn:Hr; [lia|].
      destruct (decide (k = 0%nat)) as [->|Hpos].
      - exists w, None, b, r. rewrite Nat.sub_0_r in Hr. rewrite Hr. cbn.
        rewrite app_nil_r, Nat.add_0_r. by split_and!.
      - destruct (decide (failureCount b + Z.of_nat k < failureThreshold (options b)))
          as [Hfc|Hfull].
        + destruct (Hafter k ltac:(lia) ltac:(lia) Hfc)
            as (w1 & last1 & b1 & Hloop & Hi1 & Hs1 & Hb1 & Hst1).
          exists w1, last1, b1, r. rewrite Hloop, ?Hr. by split_and!.
        + destruct (Hfailed ltac:(lia) ltac:(lia))
            as (w2 & e & b2 & Hloop & _ & Hi2 & Hs2 & Hb2).
          exists w2, (Some e), b2, r. rewrite Hloop, ?Hr.
          replace (Nat.min k (Z.to_nat M - 1)) with k in Hs2 by lia.
          by split_and!. }
    destruct Hnext as (wk & lastk & bk & r & Hloop & Hik & Hsk & Hbk & Hclosed).
    rewrite Hloop. clear Hloop.
    destruct (body env wk) as [res1 wa] eqn:Hat.
    destruct (attemptOnce_reaches_or_rejects _ _ _ _ _ _ _ _ _ _ Hbk Hat)
      as (Hsa & Hcases).
    (* whatever follows the attempt *)
    assert (Hrest : forall res2 w2 w3,
              invocations w2 = invocations wa ->
              (exists s2, sleeps w2 = sleeps wa ++ s2) ->
              (w3 = w2 \/ exists r2 a2 last2,
                 retryLoop r2 a2 M last2 body env w2 = (res2, w3)) ->
              (List.length (invocations wa) <= List.length (invocations w3))%nat
              /\ exists later, sleeps w3 = sleeps w ++ backoffs 1 k ++ later).
    { intros res2 w2 w3 Hi2 [s2 Hs2] [->|(r2 & a2 & last2 & Hrun2)].
      - split; [by rewrite Hi2|]. exists s2. by rewrite Hs2, Hsa, Hsk, app_assoc.
      - destruct (retryLoop_extends _ _ _ _ _ _ _ _ _ _ _ _ _ Hrun2) as [Hle [later Hlater]].
        split; [by rewrite <- Hi2|].
        exists (s2 ++ later). by rewrite Hlater, Hs2, Hsa, Hsk, <- !app_assoc. }
    assert (Hend : exists res w3,
              retryLoop (S r) (1 + Z.of_nat k) M lastk body env wk = (res, w3)
              /\ (List.length (invocations wa) <= List.length (invocations w3))%nat
              /\ (exists later, sleeps w3 = sleeps w ++ backoffs 1 k ++ later)
              /\ (forall x, res1 = Return x ->
                    res = Return x /\ w3 = wa)
              /\ (forall e, res1 = Throw e -> givesUpOn e = true -> res = Throw e)).
    { destruct res1 as [x|e].
      - eexists _, _. split; [apply (retryLoop_success _ _ _ _ _ _ _ _ _ Hat)|].
        destruct (Hrest (Return x) wa wa eq_refl) as [Hle Hsl];
          [exists []; by rewrite app_nil_r|by left|].
        split_and!; [exact Hle|exact Hsl| |done]. by intros x0 [= <-].
      - destruct (givesUpOn e) eqn:Hg.
        + eexists _, _. split; [apply (retryLoop_gives_up _ _ _ _ _ _ _ _ _ Hat Hg)|].
          destruct (Hrest (Throw e : Completion AICompletionResponse)
                      (set_logs (logs wa ++ [WarnAttemptFailed (1 + Z.of_nat k) M e]) wa)
                      (set_logs (logs wa ++ [WarnAttemptFailed (1 + Z.of_nat k) M e]) wa)
                      eq_refl) as [Hle Hsl];
            [exists []; by rewrite app_nil_r|by left|].
          split_and!; [exact Hle|exact Hsl|done|]. by intros e0 [= <-].
        + destruct (Z.lt_ge_cases (1 + Z.of_nat k) M) as [Hlt'|Hge'].
          * rewrite (retryLoop_backoff _ _ _ _ _ _ _ _ _ Hat Hg Hlt').
            destruct (retryLoop r (1 + Z.of_nat k + 1) M (Some e) body env _)
              as [res2 w3] eqn:Hrun2.
            exists res2, w3. split; [done|].
            destruct (Hrest res2 _ w3
                        (eq_refl : invocations
                           (set_sleeps (sleeps wa ++ [backoff (1 + Z.of_nat k)])
                              (set_logs (logs wa ++ [WarnAttemptFailed (1 + Z.of_nat k) M e])
                                 wa))
                         = invocations wa))
              as [Hle Hsl]; [by eexists|right; eauto|].
            split_and!; [exact Hle|exact Hsl|done|]. intros e0 [= <-]. congruence.
          * rewrite (retryLoop_last _ _ _ _ _ _ _ _ _ Hat Hg Hge').
            destruct (retryLoop r (1 + Z.of_nat k + 1) M (Some e) body env _)
              as [res2 w3] eqn:Hrun2.
            exists res2, w3. split; [done|].
            destruct (Hrest res2 _ w3
                        (eq_refl : invocations
                           (set_logs (logs wa ++ [WarnAttemptFailed (1 + Z.of_nat k) M e]) wa)
                         = invocations wa))
              as [Hle Hsl]; [exists []; by rewrite app_nil_r|right; eauto|].
            split_and!; [exact Hle|exact Hsl|done|]. intros e0 [= <-]. congruence. }
    destruct Hend as (res & w3 & -> & Hle & Hsl & Hret & Hthrow). cbn [fst snd].
    split; [exact Hsl|]. split.
    + destruct Hcases as [[Hcall _]|[_ Hrej]].
      * left. rewrite Hcall, length_app, Hik in Hle. cbn in Hle. lia.
      * right. eexists _, _. by apply (Hthrow _ Hrej).
    + intros Hfc.
      destruct (attemptOnce_inv _ _ _ _ _ _ _ _ _ Hat) as (wx & Hex & _ & Hia & _).
      destruct (execute_calls_adapter l p req env wk bk _ _ Hbk
                  ltac:(by rewrite (Hclosed Hfc)) Hex) as [Hcall Hres].
      rewrite <- Hia in Hcall. rewrite Hik in Hres.
      assert (Hlena : List.length (invocations wa) = S (first + k)).
      { rewrite Hcall, length_app, Hik. cbn. lia. }
      split; [lia|]. intros r0 Hr0. rewrite Hr0 in Hres.
      destruct (Hret r0 Hres) as [-> ->].
      split; [done|]. split; [exact Hlena|]. by rewrite Hsa, Hsk.
  - intros HkM Hpos.
    destruct (Hfailed Hpos ltac:(lia)) as (w2 & e & b2 & Hloop & Hreply & Hi2 & Hs2 & _).
    rewrite Hloop. replace (Z.to_nat M - k)%nat with 0%nat by lia.
    rewrite retryLoop_exhausted. cbn [fst snd default from_option id].
    split_and!; [by rewrite Hreply|by eexists|exact Hi2|].
    rewrite Hs2. do 2 f_equal. lia.
Qed.

(** C5.  In a call of complete with maxRetries attempts (3 when not given).
    Whatever happens: the adapter is called n times, n at most maxRetries,
    and the s sleeps taken are, in order, min(1000 * 2^(a-1), 10000) for
    a = 1, 2, ..., s, with s below maxRetries; an adapter call that succeeds
    is the last one and complete returns its result; when all maxRetries
    attempts called the adapter and the last answer is an error, complete
    throws that error.
    The schedule itself, for a call that is not answered from the cache, on
    a service with an adapter whose breaker is CLOSED (or not yet created)
    and lets k attempts through: when the first k adapter calls of the run
    are answered with errors that are neither a CircuitBreakerOpenError nor
    of status 400, 401, 403, 404, then
    - if k is below maxRetries, each of these k attempts was followed by its
      sleep, min(1000 * 2^(a-1), 10000) ms after attempt a, and attempt k + 1
      takes place: it calls the adapter, or the breaker, opened by the k-th
      failure, rejects it and complete throws CircuitBreakerOpenError; when
      the breaker is still CLOSED after the k failures the adapter is called,
      and if it answers, complete returns the answer after exactly k + 1
      adapter calls and exactly these k sleeps;
    - if k is maxRetries, complete throws the last of the k errors after
      exactly maxRetries adapter calls and maxRetries - 1 sleeps, none after
      the last attempt. *)
Theorem complete_retry_schedule req opts env w :
  let M := nullish opts opt_maxRetries 3 in
  let res := fst (complete req opts env w) in
  let w' := snd (complete req opts env w) in
  let first := List.length (invocations w) in
  (exists n s : nat,
      (n <= Z.to_nat M)%nat
      /\ List.length (invocations w') = (first + n)%nat
      /\ sleeps w' = sleeps w ++ backoffs 1 s
      /\ (s = 0%nat \/ Z.of_nat s < M)
      /\ (forall j r,
            (first <= j < List.length (invocations w'))%nat ->
            adapterReply env j = Return r ->
            res = Return r /\ List.length (invocations w') = S j)
      /\ (n = Z.to_nat M -> (0 < n)%nat ->
          forall e, adapterReply env (List.length (invocations w') - 1) = Throw e ->
                    res = Throw e))
  /\ (forall a, backoff a = Z.min (1000 * 2 ^ (a - 1)) 10000)
  /\ (forall k : nat,
        providers w <> [] ->
        match consulted env req opts w with
        | Some entry => CACHE_TTL_MS <= clock env (ticks w) - timestamp entry
        | None => True
        end ->
        breakerAdmits opts w k ->
        (forall i, (i < k)%nat ->
           exists e, adapterReply env (first + i) = Throw e
                     /\ instanceofCircuitBreakerOpenError e = false
                     /\ isNonRetryableError e = false) ->
        (Z.of_nat k < M ->
           (exists later, sleeps w' = sleeps w ++ backoffs 1 k ++ later)
           /\ ((first + k < List.length (invocations w'))%nat
               \/ exists circuit retryAfter,
                    res = Throw (CircuitBreakerOpenError circuit retryAfter))
           /\ (breakerAdmits opts w (S k) ->
               (first + k < List.length (invocations w'))%nat
               /\ forall r, adapterReply env (first + k) = Return r ->
                    res = Return r
                    /\ List.length (invocations w') = S (first + k)
                    /\ sleeps w' = sleeps w ++ backoffs 1 k))
        /\ (Z.of_nat k = M -> (0 < k)%nat ->
              res = adapterReply env (first + k - 1)
              /\ (exists e, res = Throw e)
              /\ List.length (invocations w') = (first + k)%nat
              /\ sleeps w' = sleeps w ++ backoffs 1 (k - 1))).
Proof.
  intros M res w' first. split; [|split; [done|]].
  - subst res w' first. destruct (complete req opts env w) as [res w'] eqn:Hrun. cbn.
    destruct (complete_run _ _ _ _ _ _ Hrun) as [Hq|(l & p & w0 & Hq & _ & Hloop)].
    { destruct Hq as (Hi & Hs & _). exists 0%nat, 0%nat. rewrite Hi, Hs. cbn.
      rewrite app_nil_r. split_and!; try done; try lia. }
    destruct (retryLoop_attempts _ _ _ _ _ _ _ _ _ _ _ _ _ Hloop)
      as (n & s & Hn & Hi & Hs & Hsb & _ & _ & Hcalls & Hall).
    destruct Hq as (Hi0 & Hs0 & _). rewrite Hi0 in Hi. rewrite Hs0 in Hs.
    exists n, s. rewrite Hi, length_app, length_replicate.
    split_and!; try done; try lia.
    + intros j r Hj Hreply.
      specialize (Hcalls (j - List.length (invocations w))%nat ltac:(lia)).
      rewrite Hi0 in Hcalls.
      replace (List.length (invocations w) + (j - List.length (invocations w)))%nat
        with j in Hcalls by lia.
      rewrite Hreply in Hcalls. destruct Hcalls as [-> Hlast]. split; [done|lia].
    + intros Hall' Hpos e Hreply. destruct (Hall Hall') as [_ Hlast].
      apply Hlast; [done|]. by rewrite Hi0.
  - intros k Hne Hmiss Hroom Hfail.
    destruct (complete_enters_loop req opts env w k Hne Hmiss Hroom)
      as (l & p & w0 & b & Heq & Hi0 & Hs0 & Hb & Hst & Hadmits).
    pose proof (Hadmits k Hroom) as Hfc.
    change (nullish opts opt_maxRetries 3) with M in Heq.
    subst res w' first. rewrite Heq, <- Hi0, <- Hs0. clear Heq.
    assert (Hfail0 : forall i, (i < k)%nat -> exists e,
              adapterReply env (List.length (invocations w0) + i) = Throw e
              /\ givesUpOn e = false).
    { intros i Hi. destruct (Hfail i Hi) as (e & He & Hcb & Hnr).
      exists e. rewrite Hi0. split; [done|]. unfold givesUpOn. by rewrite Hcb, Hnr. }
    destruct (retryLoop_schedule l p req opts (nullish opts opt_useCache true) M env k w0 b
                Hb Hst Hfc Hfail0) as [Hbelow Hall].
    split; [|exact Hall].
    intros Hlt. destruct (Hbelow Hlt) as (Hsleeps & Hnext & Hanswer).
    split; [exact Hsleeps|]. split; [exact Hnext|].
    intros Hroom'. apply Hanswer. specialize (Hadmits (S k) Hroom'). lia.
Qed.

(** the adapter fails twice with a 503 and then answers, maxRetries 3, the
    breaker yet to be created: two sleeps, 1000 and 2000 ms, three adapter
    calls, and the answer is returned *)
Lemma complete_retry_schedule_witness :
  let run := complete sampleRequest None (flakyEnv 2) serviceWorld in
  fst run = Return sampleResponse
  /\ List.length (invocations (snd run)) = 3%nat
  /\ sleeps (snd run) = [1000; 2000].
Proof.
  destruct (complete_retry_schedule sampleRequest None (flakyEnv 2) serviceWorld)
    as (_ & _ & Hschedule).
  destruct (Hschedule 2%nat) as [Hbelow _].
  - vm_compute. discriminate.
  - vm_compute. exact I.
  - vm_compute. discriminate.
  - intros i Hi. exists (Error (Some 503) "service unavailable").
    destruct i as [|[|i]]; [vm_compute; done|vm_compute; done|lia].
  - destruct Hbelow as (_ & _ & Hanswer); [vm_compute; reflexivity|].
    destruct Hanswer as [_ Hanswer]; [vm_compute; discriminate|].
    destruct (Hanswer sampleResponse) as (Hres & Hcalls & Hsleeps);
      [vm_compute; reflexivity|].
    split; [exact Hres|]. split; [exact Hcalls|exact Hsleeps].
Defined.
